(** * Liquid flow of dragonfly/block/liquid.go

    A shallow embedding of the liquid tick engine ([tickLiquid]), of the
    flow application ([flowInto]) and of the breadth-first path finder
    ([calculateLiquidPaths]), with the properties the specification
    states about them.

    Conventions of the embedding:
    - Go's [int] holding data (depths, decays, coordinates) is a [Z] whose
      arithmetic wraps around at 64 bits ([int_add], [int_sub], [int_mul]);
      [int8] wraps around at 8 bits.  An [int] that counts live objects
      (a slice length, a slice index, the hop counter of [Len]) cannot
      reach 2^63 and is a plain [Z].
    - the world is a total map from positions to blocks; every call of
      [PlaceBlock], [BreakBlock] and [Harden] is recorded in a trace, in
      the order of execution;
    - a Go panic ends the computation with [Panic]. *)

From Stdlib Require Import String.
From Stdlib Require Import ZArith List Bool Lia.
Import ListNotations.
Local Open Scope Z_scope.

Set Implicit Arguments.

(** ** Machine integers *)

(** Two's complement reduction of [z] to [bits] bits. *)
Definition wrap (bits z : Z) : Z :=
  (z + 2 ^ (bits - 1)) mod 2 ^ bits - 2 ^ (bits - 1).

Definition int_add (a b : Z) : Z := wrap 64 (a + b).
Definition int_sub (a b : Z) : Z := wrap 64 (a - b).
Definition int_mul (a b : Z) : Z := wrap 64 (a * b).

(** The conversion [int8(v)] and the arithmetic of [int8]. *)
Definition int8 (v : Z) : Z := wrap 8 v.
Definition int8_add (a b : Z) : Z := wrap 8 (a + b).
Definition int8_sub (a b : Z) : Z := wrap 8 (a - b).
Definition int8_mul (a b : Z) : Z := wrap 8 (a * b).

(** [math.MaxInt8] *)
Definition MaxInt8 : Z := 127.

(** ** Positions *)

(** [world.BlockPos] is [[3]int]: x, y, z. *)
Definition BlockPos : Type := (Z * Z * Z)%type.

Definition pX (p : BlockPos) : Z := fst (fst p).
Definition pY (p : BlockPos) : Z := snd (fst p).
Definition pZ (p : BlockPos) : Z := snd p.

Definition BlockPos_eqb (p q : BlockPos) : bool :=
  (pX p =? pX q) && (pY p =? pY q) && (pZ p =? pZ q).

(** Modelled from the spec: [BlockPos.Add] is not part of liquid.go.
    Arithmetic on positions is componentwise. *)
Definition Add (p q : BlockPos) : BlockPos :=
  (int_add (pX p) (pX q), int_add (pY p) (pY q), int_add (pZ p) (pZ q)).

(** Modelled from the spec: [BlockPos.Neighbours] is not part of liquid.go.
    It calls its argument on every position that shares a face with [p];
    [sourceAround] and [spreadOutwards] select among them by the y
    coordinate, so the two vertical neighbours are enumerated along with
    the four horizontal ones. *)
Definition Neighbours (p : BlockPos) : list BlockPos :=
  [ (int_add (pX p) 1, pY p, pZ p);
    (int_sub (pX p) 1, pY p, pZ p);
    (pX p, int_add (pY p) 1, pZ p);
    (pX p, int_sub (pY p) 1, pZ p);
    (pX p, pY p, int_add (pZ p) 1);
    (pX p, pY p, int_sub (pZ p) 1) ].

(** [pos.Add(world.BlockPos{0, -1})] *)
Definition below (p : BlockPos) : BlockPos := Add p (0, -1, 0).

(** ** Blocks and their capabilities *)

(** What a block type implements besides [world.Block]:
    [LiquidRemovable] (with the result of [HasLiquidDrops]) and
    [world.Item]. *)
Record Caps : Type := mkCaps {
  removable : option bool;
  item : bool
}.

(** A value of the interface [Liquid].  The capabilities are those of the
    concrete type behind the interface. *)
Record Liquid : Type := mkLiquid {
  LiquidDepth : Z;
  LiquidFalling : bool;
  SpreadDecay : Z;
  LiquidType : String.string;
  LiquidCaps : Caps
}.

(** Modelled from the spec: [WithDepth] is implemented by the liquids,
    outside liquid.go.  It returns the liquid with the depth and the
    falling flag passed, everything else unchanged. *)
Definition WithDepth (l : Liquid) (depth : Z) (falling : bool) : Liquid :=
  {| LiquidDepth := depth;
     LiquidFalling := falling;
     SpreadDecay := SpreadDecay l;
     LiquidType := LiquidType l;
     LiquidCaps := LiquidCaps l |}.

Inductive Block : Type :=
| Air
| LiquidBlock (l : Liquid)
| OtherBlock (name : String.string) (c : Caps).

(** The type assertion [existing.(Liquid)]. *)
Definition asLiquid (blk : Block) : option Liquid :=
  match blk with
  | LiquidBlock l => Some l
  | _ => None
  end.

(** The type assertion [existing.(Air)]. *)
Definition isAir (blk : Block) : bool :=
  match blk with
  | Air => true
  | _ => false
  end.

(** Modelled from the spec: the capabilities of [Air] are declared outside
    liquid.go.  An empty position is removable by liquid and drops
    nothing. *)
Definition capsOf (blk : Block) : Caps :=
  match blk with
  | Air => {| removable := Some false; item := false |}
  | LiquidBlock l => LiquidCaps l
  | OtherBlock _ c => c
  end.

(** The type assertion [existing.(LiquidRemovable)], with the value of
    [HasLiquidDrops] when it succeeds. *)
Definition asLiquidRemovable (blk : Block) : option bool := removable (capsOf blk).

(** The type assertion [existing.(world.Item)]. *)
Definition isItem (blk : Block) : bool := item (capsOf blk).

(** ** The world *)

Definition World : Type := BlockPos -> Block.

Definition setBlock (w : World) (pos : BlockPos) (blk : Block) : World :=
  fun p => if BlockPos_eqb p pos then blk else w p.

(** Modelled from the spec: [block_internal.World_runtimeID] is not part of
    liquid.go.  The runtime ID is 0 exactly at an empty position. *)
Definition World_runtimeID_is_zero (w : World) (pos : BlockPos) : bool :=
  isAir (w pos).

(** Modelled from the spec: [world_internal.LiquidRemovable] is not part of
    liquid.go.  The table holds the runtime IDs of the blocks that expose
    the liquid-removable capability. *)
Definition LiquidRemovable_registered (w : World) (pos : BlockPos) : bool :=
  match asLiquidRemovable (w pos) with
  | Some _ => true
  | None => false
  end.

(** The calls made on the world, as they are recorded. *)
Inductive Event : Type :=
| EvPlace (pos : BlockPos) (blk : Block)
| EvBreak (pos : BlockPos)
| EvHarden (l : Liquid) (pos src : BlockPos).

Record State : Type := mkState {
  blocks : World;
  trace : list Event
}.

(** ** Computations that change the world or panic *)

Inductive outcome (A : Type) : Type :=
| Done (a : A) (s : State)
| Panic (msg : String.string) (s : State).

Arguments Panic {A} msg s.

Definition M (A : Type) : Type := State -> outcome A.

Definition ret {A : Type} (a : A) : M A := fun s => Done a s.

Definition bind {A B : Type} (m : M A) (k : A -> M B) : M B :=
  fun s =>
    match m s with
    | Done a s' => k a s'
    | Panic msg s' => Panic msg s'
    end.

Definition panic {A : Type} (msg : String.string) : M A := fun s => Panic msg s.

Notation "x <- m ;; k" := (bind m (fun x => k))
  (at level 61, m at next level, right associativity).
Notation "m ;;; k" := (bind m (fun _ => k))
  (at level 61, right associativity).

Definition final {A : Type} (o : outcome A) : State :=
  match o with
  | Done _ s => s
  | Panic _ s => s
  end.

Definition panicked {A : Type} (o : outcome A) : bool :=
  match o with
  | Done _ _ => false
  | Panic _ _ => true
  end.

(** [w.Block(pos)] *)
Definition getBlock (pos : BlockPos) : M Block := fun s => Done (blocks s pos) s.

Definition getWorld : M World := fun s => Done (blocks s) s.

(** [w.PlaceBlock(pos, blk)] *)
Definition PlaceBlock (pos : BlockPos) (blk : Block) : M unit :=
  fun s => Done tt {| blocks := setBlock (blocks s) pos blk;
                      trace := trace s ++ [EvPlace pos blk] |}.

(** Modelled from the spec: [w.BreakBlock(pos)] belongs to the world.  It
    destroys the block, which leaves the position empty. *)
Definition BreakBlock (pos : BlockPos) : M unit :=
  fun s => Done tt {| blocks := setBlock (blocks s) pos Air;
                      trace := trace s ++ [EvBreak pos] |}.

(** The loop [for _, x := range l { f(x) }]. *)
Fixpoint forEach {A : Type} (l : list A) (f : A -> M unit) : M unit :=
  match l with
  | [] => ret tt
  | x :: l' => f x ;;; forEach l' f
  end.

(** The messages of the two kinds of panic. *)
Definition item_panic : String.string :=
  "blocks removable by liquid with drops should always implement world.Item"%string.
Definition index_panic : String.string := "runtime error: index out of range"%string.

(** ** source, sourceAround, canFlowInto *)

(** [source] checks if a liquid is a source block. *)
Definition source (b : Liquid) : bool :=
  (LiquidDepth b =? 8) && negb (LiquidFalling b).

(** The callback that [sourceAround] passes to [Neighbours], as a function
    of the flag [sourcePresent] it assigns. *)
Definition sourceAround_visit (b : Liquid) (pos : BlockPos) (w : World)
    (sourcePresent : bool) (neighbour : BlockPos) : bool :=
  if pY neighbour =? int_sub (pY pos) 1 then sourcePresent
  else
    match asLiquid (w neighbour) with
    | None => sourcePresent
    | Some side =>
        if negb (String.eqb (LiquidType side) (LiquidType b)) then sourcePresent
        else if (pY neighbour =? int_add (pY pos) 1) || source side
                || (LiquidDepth side >? LiquidDepth b)
             then true
             else sourcePresent
    end.

Definition sourceAround (b : Liquid) (pos : BlockPos) (w : World) : bool :=
  fold_left (sourceAround_visit b pos w) (Neighbours pos) false.

Definition canFlowInto (b : Liquid) (w : World) (pos : BlockPos) (sideways : bool) : bool :=
  if World_runtimeID_is_zero w pos then true
  else
    let ok := LiquidRemovable_registered w pos in
    if ok && sideways then
      match asLiquid (w pos) with
      | Some liq =>
          if (LiquidDepth liq =? 8) || negb (String.eqb (LiquidType liq) (LiquidType b))
          then false
          else ok
      | None => ok
      end
    else ok.

(** ** Path nodes *)

#[local] Unset Elimination Schemes.
Inductive liquidNode : Type :=
| mkNode (x z : Z) (depth : Z) (previous : option liquidNode).
#[local] Set Elimination Schemes.

Definition nodeX (n : liquidNode) : Z := let (x, _, _, _) := n in x.
Definition nodeZ (n : liquidNode) : Z := let (_, z, _, _) := n in z.
Definition nodeDepth (n : liquidNode) : Z := let (_, _, d, _) := n in d.
Definition previous (n : liquidNode) : option liquidNode := let (_, _, _, p) := n in p.

Definition liquidPath : Type := list BlockPos.

(** [neighbours] returns the four horizontal neighbours of the node with
    decreased depth.  The subtraction is one of [int8]. *)
Definition neighbours (node : liquidNode) (decay : Z)
  : liquidNode * liquidNode * liquidNode * liquidNode :=
  (mkNode (int_sub (nodeX node) 1) (nodeZ node) (int8_sub (nodeDepth node) decay) (Some node),
   mkNode (int_add (nodeX node) 1) (nodeZ node) (int8_sub (nodeDepth node) decay) (Some node),
   mkNode (nodeX node) (int_sub (nodeZ node) 1) (int8_sub (nodeDepth node) decay) (Some node),
   mkNode (nodeX node) (int_add (nodeZ node) 1) (int8_sub (nodeDepth node) decay) (Some node)).

(** The loop of [Len], started with [i]. *)
Fixpoint Len_loop (node : liquidNode) (i : Z) : Z :=
  match node with
  | mkNode _ _ _ None => i - 1
  | mkNode _ _ _ (Some p) => Len_loop p (i + 1)
  end.

(** [Len] returns the length of the path created by the node. *)
Definition Len (node : liquidNode) : Z := Len_loop node 1.

(** The assignment [path[i] = v]; [None] when the index is out of range,
    where Go panics. *)
Definition set_index (path : liquidPath) (i : Z) (v : BlockPos) : option liquidPath :=
  if (0 <=? i) && (i <? Z.of_nat (length path))
  then Some (firstn (Z.to_nat i) path ++ v :: skipn (S (Z.to_nat i)) path)
  else None.

(** The loop of [Path]. *)
Fixpoint Path_loop (src : BlockPos) (node : liquidNode) (path : liquidPath) (i : Z)
  : option liquidPath :=
  match node with
  | mkNode _ _ _ None => Some path
  | mkNode x z _ (Some p) =>
      match set_index path i (x, pY src, z) with
      | None => None
      | Some path' => Path_loop src p path' (i - 1)
      end
  end.

(** [Path] converts the liquid node into a path; [None] stands for the
    panic of [make] on a negative length or of an index out of range. *)
Definition Path (node : liquidNode) (src : BlockPos) : option liquidPath :=
  let l := Len node in
  if l <? 0 then None
  else Path_loop src node (repeat (0, 0, 0) (Z.to_nat l)) (l - 1).

(** ** The queue of nodes *)

Record liquidQueue : Type := mkQueue {
  nodes : list liquidNode;
  cursor : Z;
  shortestPath : Z
}.

(** The queue that [liquidQueuePool.New] makes. *)
Definition newQueue : liquidQueue :=
  {| nodes := []; cursor := 0; shortestPath := MaxInt8 |}.

Definition PushBack (q : liquidQueue) (node : liquidNode) : liquidQueue :=
  {| nodes := nodes q ++ [node]; cursor := cursor q; shortestPath := shortestPath q |}.

(** [Front] reads [q.nodes[q.i]] and advances the cursor; [None] when the
    index is out of range. *)
Definition Front (q : liquidQueue) : option (liquidNode * liquidQueue) :=
  if cursor q <? 0 then None
  else
    match nth_error (nodes q) (Z.to_nat (cursor q)) with
    | None => None
    | Some v =>
        Some (v, {| nodes := nodes q; cursor := cursor q + 1;
                    shortestPath := shortestPath q |})
    end.

Definition QLen (q : liquidQueue) : Z := Z.of_nat (length (nodes q)) - cursor q.

Definition Reset (q : liquidQueue) : liquidQueue :=
  {| nodes := firstn 0 (nodes q); cursor := 0; shortestPath := MaxInt8 |}.

Definition setShortestPath (q : liquidQueue) (l : Z) : liquidQueue :=
  {| nodes := nodes q; cursor := cursor q; shortestPath := l |}.

(** ** The path finder *)

(** [spreadNeighbour] attempts to spread a path node into the neighbour
    passed.  It returns the queue along with its result. *)
Definition spreadNeighbour (b : Liquid) (src : BlockPos) (w : World)
    (node : liquidNode) (queue : liquidQueue) : bool * liquidQueue :=
  if int8_add (nodeDepth node) 3 <=? 0 then (false, queue)
  else if Len node >? shortestPath queue then (false, queue)
  else
    let pos := (nodeX node, pY src, nodeZ node) in
    if negb (canFlowInto b w pos true) then (false, queue)
    else
      let pos := (nodeX node, int_sub (pY src) 1, nodeZ node) in
      if canFlowInto b w pos false then (true, queue)
      else (false, PushBack queue node).

(** What one iteration of a loop leaves behind: the state of the next
    iteration, the result of the loop at a [break], or a panic. *)
Inductive progress (S R : Type) : Type :=
| Continue (s : S)
| Break (r : R)
| Crash.

Arguments Continue {S R} s.
Arguments Break {S R} r.
Arguments Crash {S R}.

(** Up to [2 ^ k] iterations of [body]: [Continue] is the state that is
    left when the iterations are used up. *)
Fixpoint iterate {S R : Type} (k : nat) (body : S -> progress S R) (s : S)
  : progress S R :=
  match k with
  | O => body s
  | Datatypes.S k' =>
      match iterate k' body s with
      | Continue s' => iterate k' body s'
      | r => r
      end
  end.

(** Exactly [n] iterations of [body], unless the loop ends before. *)
Fixpoint loop {S R : Type} (n : nat) (body : S -> progress S R) (s : S)
  : progress S R :=
  match n with
  | O => Continue s
  | Datatypes.S n' =>
      match body s with
      | Continue s' => loop n' body s'
      | r => r
      end
  end.

(** One of the four [if spreadNeighbour(...) { ... }] statements of the
    loop of [calculateLiquidPaths]. *)
Definition visit (b : Liquid) (pos : BlockPos) (w : World) (neigh : liquidNode)
    (st : liquidQueue * list liquidPath) : option (liquidQueue * list liquidPath) :=
  let (queue, paths) := st in
  let (found, queue) := spreadNeighbour b pos w neigh queue in
  if found then
    let queue := setShortestPath queue (Len neigh) in
    match Path neigh pos with
    | None => None
    | Some p => Some (queue, paths ++ [p])
    end
  else Some (queue, paths).

(** The body of the loop of [calculateLiquidPaths]. *)
Definition search_body (b : Liquid) (pos : BlockPos) (w : World) (decay : Z)
    (st : liquidQueue * list liquidPath)
  : progress (liquidQueue * list liquidPath) (list liquidPath) :=
  let (queue, paths) := st in
  if QLen queue =? 0 then Break paths
  else
    match Front queue with
    | None => Crash
    | Some (node, queue) =>
        let '(neighA, neighB, neighC, neighD) := neighbours node (int8_mul decay 2) in
        match visit b pos w neighA (queue, paths) with
        | None => Crash
        | Some st =>
        match visit b pos w neighB st with
        | None => Crash
        | Some st =>
        match visit b pos w neighC st with
        | None => Crash
        | Some st =>
        match visit b pos w neighD st with
        | None => Crash
        | Some st => Continue st
        end end end end
    end.

(** The node the search starts from. *)
Definition rootNode (b : Liquid) (pos : BlockPos) : liquidNode :=
  mkNode (pX pos) (pZ pos) (int8 (LiquidDepth b)) None.

(** The state at the entry of the loop.  A queue taken from the pool is a
    new one or one that [Reset] has been applied to, see [Reset_newQueue]. *)
Definition search_start (b : Liquid) (pos : BlockPos)
  : liquidQueue * list liquidPath :=
  (PushBack newQueue (rootNode b pos), []).

(** The number of doublings given to the loop of the search. *)
Definition search_budget : nat := 256.

(** [calculateLiquidPaths] calculates paths in the world that the liquid
    passed can flow in to reach lower grounds, starting at the position
    passed.  [None] stands for a panic on an index, or for a loop that has
    not ended after [2 ^ search_budget] iterations;
    [calculateLiquidPaths_total] shows that neither happens. *)
Definition calculateLiquidPaths (b : Liquid) (pos : BlockPos) (w : World)
  : option (list liquidPath) :=
  match iterate search_budget (search_body b pos w (int8 (SpreadDecay b)))
                (search_start b pos) with
  | Break paths => Some paths
  | _ => None
  end.

(** ** Flow application and the tick engine *)

Section Flow.

(** [Harden] is implemented by the liquids, outside liquid.go: whatever it
    does to the world is a parameter of the development.  It receives the
    liquid it is called on, the position of that liquid, the world and the
    position the flow comes from. *)
Variable Harden : Liquid -> BlockPos -> World -> BlockPos -> World * bool.

(** [existingLiquid.Harden(pos, w, &src)] *)
Definition callHarden (l : Liquid) (pos src : BlockPos) : M bool :=
  fun s =>
    Done (snd (Harden l pos (blocks s) src))
         {| blocks := fst (Harden l pos (blocks s) src);
            trace := trace s ++ [EvHarden l pos src] |}.

(** [flowInto] makes the liquid passed flow into the position passed in a
    world.  If successful, the block at that position will be broken and
    the liquid with a lower depth will replace it. *)
Definition flowInto (b : Liquid) (src pos : BlockPos) (falling : bool) : M bool :=
  let newDepth :=
    if falling then LiquidDepth b else int_sub (LiquidDepth b) (SpreadDecay b) in
  if (newDepth <=? 0) && negb falling then ret false
  else
    existing <- getBlock pos ;;
    match asLiquid existing with
    | Some existingLiquid =>
        if String.eqb (LiquidType existingLiquid) (LiquidType b) then
          if (LiquidDepth existingLiquid >=? newDepth) || LiquidFalling existingLiquid
          then ret true
          else PlaceBlock pos (LiquidBlock (WithDepth b newDepth falling)) ;;; ret true
        else callHarden existingLiquid pos src ;;; ret false
    | None =>
        match asLiquidRemovable existing with
        | None => ret false
        | Some hasDrops =>
            (if isAir existing then ret tt else BreakBlock pos) ;;;
            (if hasDrops
             then if isItem existing then ret tt else panic item_panic
             else ret tt) ;;;
            PlaceBlock pos (LiquidBlock (WithDepth b newDepth falling)) ;;;
            ret true
        end
    end.

(** [spreadOutwards] spreads the liquid outwards into the horizontal
    directions. *)
Definition spreadOutwards (b : Liquid) (pos : BlockPos) : M unit :=
  forEach (Neighbours pos)
    (fun neighbour =>
       if pY neighbour =? pY pos
       then flowInto b pos neighbour false ;;; ret tt
       else ret tt).

(** [tickLiquid] ticks the liquid block passed at a specific position in
    the world. *)
Definition tickLiquid (b : Liquid) (pos : BlockPos) : M unit :=
  w <- getWorld ;;
  if negb (source b) && negb (sourceAround b pos w) then
    if int_sub (LiquidDepth b) 4 <=? 0 then PlaceBlock pos Air
    else
      PlaceBlock pos
        (LiquidBlock
           (WithDepth b (int_sub (LiquidDepth b) (int_mul 2 (SpreadDecay b))) false))
  else
    let canFlowBelow := canFlowInto b w (below pos) false in
    b <- (if LiquidFalling b && negb canFlowBelow then ret (WithDepth b 8 true)
          else if canFlowBelow
               then flowInto (WithDepth b 8 true) pos (below pos) true ;;; ret b
               else ret b) ;;
    let depth := LiquidDepth b in
    let decay := SpreadDecay b in
    if depth <=? decay then ret tt
    else if source b || negb canFlowBelow then
      w <- getWorld ;;
      match calculateLiquidPaths b pos w with
      | None => panic index_panic
      | Some paths =>
          match paths with
          | [] => spreadOutwards b pos
          | first :: _ =>
              let smallestLen := Z.of_nat (length first) in
              forEach paths
                (fun path =>
                   if Z.of_nat (length path) <=? smallestLen then
                     match path with
                     | [] => panic index_panic
                     | step :: _ => flowInto b pos step false ;;; ret tt
                     end
                   else ret tt)
          end
      end
    else ret tt.

(** ** Definitions used to state the properties of the flow *)

(** The sustain check of [tickLiquid]: its first branch, the decay, is
    taken when this is false. *)
Definition sustained (b : Liquid) (pos : BlockPos) (w : World) : bool :=
  source b || sourceAround b pos w.

(** The falling logic of [tickLiquid]: the liquid the rest of the tick
    works with. *)
Definition falling_logic (b : Liquid) (pos : BlockPos) : M Liquid :=
  w <- getWorld ;;
  let canFlowBelow := canFlowInto b w (below pos) false in
  if LiquidFalling b && negb canFlowBelow then ret (WithDepth b 8 true)
  else if canFlowBelow
       then flowInto (WithDepth b 8 true) pos (below pos) true ;;; ret b
       else ret b.

(** What the falling logic does to the world. *)
Definition push_below (b : Liquid) (pos : BlockPos) : M unit :=
  w <- getWorld ;;
  if canFlowInto b w (below pos) false
  then flowInto (WithDepth b 8 true) pos (below pos) true ;;; ret tt
  else ret tt.

(** The liquid value that the falling logic leaves in the variable [b]. *)
Definition after_falling_logic (b : Liquid) (canFlowBelow : bool) : Liquid :=
  if LiquidFalling b && negb canFlowBelow then WithDepth b 8 true else b.

(** The spread-capacity check and the lateral spread of [tickLiquid], for
    the liquid value [b] and the flag [canFlowBelow]. *)
Definition lateral_spread (b : Liquid) (canFlowBelow : bool) (pos : BlockPos) : M unit :=
  let depth := LiquidDepth b in
  let decay := SpreadDecay b in
  if depth <=? decay then ret tt
  else if source b || negb canFlowBelow then
    w <- getWorld ;;
    match calculateLiquidPaths b pos w with
    | None => panic index_panic
    | Some paths =>
        match paths with
        | [] => spreadOutwards b pos
        | first :: _ =>
            let smallestLen := Z.of_nat (length first) in
            forEach paths
              (fun path =>
                 if Z.of_nat (length path) <=? smallestLen then
                   match path with
                   | [] => panic index_panic
                   | step :: _ => flowInto b pos step false ;;; ret tt
                   end
                 else ret tt)
        end
    end
  else ret tt.

(** A non-falling flow into each of the targets, in their order. *)
Definition flowAll (b : Liquid) (src : BlockPos) (targets : list BlockPos) : M unit :=
  forEach targets (fun t => flowInto b src t false ;;; ret tt).

(** The state [Harden] and its record leave. *)
Definition hardened (l : Liquid) (pos src : BlockPos) (s : State) : State :=
  {| blocks := fst (Harden l pos (blocks s) src);
     trace := trace s ++ [EvHarden l pos src] |}.

End Flow.

(** The state after the block at [pos] has been destroyed, unless it is
    air. *)
Definition cleared (pos : BlockPos) (s : State) : State :=
  if isAir (blocks s pos) then s
  else {| blocks := setBlock (blocks s) pos Air; trace := trace s ++ [EvBreak pos] |}.

(** The state after a block has been placed. *)
Definition placed (pos : BlockPos) (blk : Block) (s : State) : State :=
  {| blocks := setBlock (blocks s) pos blk; trace := trace s ++ [EvPlace pos blk] |}.

(** The four horizontal neighbours of a position, at its y. *)
Definition horizontal (p : BlockPos) : list BlockPos :=
  [ (int_add (pX p) 1, pY p, pZ p);
    (int_sub (pX p) 1, pY p, pZ p);
    (pX p, pY p, int_add (pZ p) 1);
    (pX p, pY p, int_sub (pZ p) 1) ].

(** The position directly above. *)
Definition above (p : BlockPos) : BlockPos := (pX p, int_add (pY p) 1, pZ p).

Definition len (p : liquidPath) : Z := Z.of_nat (length p).

(** The minimum of the lengths of the paths. *)
Definition min_len (paths : list liquidPath) : Z :=
  match paths with
  | [] => 0
  | p :: ps => fold_left (fun m q => Z.min m (len q)) ps (len p)
  end.

(** The first step of every path. *)
Definition first_steps (paths : list liquidPath) : list BlockPos :=
  flat_map (fun p => match p with [] => [] | step :: _ => [step] end) paths.

(** The positions the lateral spread flows into, as the specification has
    them: none unless the liquid is a source or could not flow below; the
    four horizontal neighbours when the path finder returns no path; else
    the first step of every path whose length is at most the minimum. *)
Definition lateral_targets (b : Liquid) (canFlowBelow : bool) (pos : BlockPos)
    (w : World) : list BlockPos :=
  if source b || negb canFlowBelow then
    match calculateLiquidPaths b pos w with
    | Some [] => horizontal pos
    | Some paths => first_steps (filter (fun p => len p <=? min_len paths) paths)
    | None => []
    end
  else [].

(** A liquid of the type of [b] is at [p]. *)
Definition same_type_liquid_at (b : Liquid) (w : World) (p : BlockPos) (side : Liquid) : Prop :=
  w p = LiquidBlock side /\ LiquidType side = LiquidType b.

(** [side] is a source or is deeper than [b]. *)
Definition feeds (b side : Liquid) : Prop :=
  source side = true \/ LiquidDepth b < LiquidDepth side.

(** The sustain condition in the words of the specification: the same
    requirement on a neighbour at the sides and above. *)
Definition sustain_uniform (b : Liquid) (pos : BlockPos) (w : World) : Prop :=
  source b = true \/
  exists p side,
    In p (above pos :: horizontal pos) /\ same_type_liquid_at b w p side /\ feeds b side.

(** The sustain condition with a liquid above that sustains whatever its
    depth. *)
Definition sustain_rule (b : Liquid) (pos : BlockPos) (w : World) : Prop :=
  source b = true \/
  (exists side, same_type_liquid_at b w (above pos) side) \/
  (exists p side,
     In p (horizontal pos) /\ same_type_liquid_at b w p side /\ feeds b side).

(** The events that a computation started in [s] and ended in [s'] has
    added to the trace. *)
Definition issued (s s' : State) : list Event :=
  skipn (length (trace s)) (trace s').

(** The position an event places or breaks a block at. *)
Definition mutated_at (e : Event) : option BlockPos :=
  match e with
  | EvPlace p _ => Some p
  | EvBreak p => Some p
  | EvHarden _ _ _ => None
  end.

(** The depth [flowInto] delivers. *)
Definition newDepth (b : Liquid) (falling : bool) : Z :=
  if falling then LiquidDepth b else int_sub (LiquidDepth b) (SpreadDecay b).

(** The three conditions under which [flowInto] fails. *)
Definition no_depth_left (b : Liquid) (falling : bool) : Prop :=
  falling = false /\ int_sub (LiquidDepth b) (SpreadDecay b) <= 0.

Definition foreign_liquid (b : Liquid) (existing : Block) : Prop :=
  exists l, existing = LiquidBlock l /\ LiquidType l <> LiquidType b.

Definition not_removable (existing : Block) : Prop :=
  asLiquid existing = None /\ asLiquidRemovable existing = None.

(** A block that is removable by liquid with drops and is no item. *)
Definition drops_without_item (existing : Block) : Prop :=
  asLiquidRemovable existing = Some true /\ isItem existing = false.

(** The ways a call [flowInto(b, src, pos, w, falling)] in the state [s]
    can end, one for each [return] and for the panic. *)
Inductive flow_outcome
    (Harden : Liquid -> BlockPos -> World -> BlockPos -> World * bool)
    (b : Liquid) (src pos : BlockPos) (falling : bool) (s : State)
  : outcome bool -> Prop :=
| flow_no_depth :
    no_depth_left b falling ->
    flow_outcome Harden b src pos falling s (Done false s)
| flow_saturated l :
    ~ no_depth_left b falling ->
    blocks s pos = LiquidBlock l -> LiquidType l = LiquidType b ->
    (LiquidDepth l >=? newDepth b falling) || LiquidFalling l = true ->
    flow_outcome Harden b src pos falling s (Done true s)
| flow_raised l :
    ~ no_depth_left b falling ->
    blocks s pos = LiquidBlock l -> LiquidType l = LiquidType b ->
    (LiquidDepth l >=? newDepth b falling) || LiquidFalling l = false ->
    flow_outcome Harden b src pos falling s
      (Done true (placed pos (LiquidBlock (WithDepth b (newDepth b falling) falling)) s))
| flow_hardened l :
    ~ no_depth_left b falling ->
    blocks s pos = LiquidBlock l -> LiquidType l <> LiquidType b ->
    flow_outcome Harden b src pos falling s (Done false (hardened Harden l pos src s))
| flow_blocked :
    ~ no_depth_left b falling ->
    not_removable (blocks s pos) ->
    flow_outcome Harden b src pos falling s (Done false s)
| flow_panicked :
    ~ no_depth_left b falling ->
    asLiquid (blocks s pos) = None ->
    drops_without_item (blocks s pos) ->
    flow_outcome Harden b src pos falling s (Panic item_panic (cleared pos s))
| flow_replaced hasDrops :
    ~ no_depth_left b falling ->
    asLiquid (blocks s pos) = None ->
    asLiquidRemovable (blocks s pos) = Some hasDrops ->
    hasDrops && negb (isItem (blocks s pos)) = false ->
    flow_outcome Harden b src pos falling s
      (Done true (placed pos (LiquidBlock (WithDepth b (newDepth b falling) falling))
                         (cleared pos s))).

(** The events one call [flowInto(b, src, pos, w, falling)] can record. *)
Definition flow_event (b : Liquid) (src pos : BlockPos) (falling : bool) (e : Event) : Prop :=
  e = EvBreak pos \/
  (e = EvPlace pos (LiquidBlock (WithDepth b (newDepth b falling) falling)) /\
   (falling = true \/ 0 < newDepth b falling)) \/
  (exists l, e = EvHarden l pos src).

(** The events one call of [tickLiquid] on a sustained liquid can record:
    those of the push below and those of a lateral flow. *)
Definition tick_event (b : Liquid) (pos : BlockPos) (e : Event) : Prop :=
  flow_event (WithDepth b 8 true) pos (below pos) true e \/
  (exists b' t,
     (b' = b \/ b' = WithDepth b 8 true) /\ In t (horizontal pos) /\
     flow_event b' pos t false e).

(** The trace of [s'] is the trace of [s] followed by events that satisfy
    [P]. *)
Definition extends (P : Event -> Prop) (s s' : State) : Prop :=
  exists evs, trace s' = trace s ++ evs /\ Forall P evs.

(** The test [sourceAround] makes on a neighbour it does not skip. *)
Definition same_type_at (b : Liquid) (w : World) (p : BlockPos) (test : Liquid -> bool) : bool :=
  match asLiquid (w p) with
  | Some side => String.eqb (LiquidType side) (LiquidType b) && test side
  | None => false
  end.

Definition feedsb (b side : Liquid) : bool :=
  source side || (LiquidDepth side >? LiquidDepth b).

(** ** Definitions used in the analysis of the search *)

(** The number of [previous] links from a node to the root of its tree. *)
Fixpoint hops (n : liquidNode) : nat :=
  match n with
  | mkNode _ _ _ None => O
  | mkNode _ _ _ (Some p) => S (hops p)
  end.

(** The positions from the child of the root down to the node. *)
Fixpoint chain (src : BlockPos) (n : liquidNode) : liquidPath :=
  match n with
  | mkNode _ _ _ None => []
  | mkNode x z _ (Some p) => chain src p ++ [(x, pY src, z)]
  end.

Definition children (node : liquidNode) (decay : Z) : list liquidNode :=
  let '(a, b, c, d) := neighbours node decay in [a; b; c; d].

(** The nodes of the tree that [neighbours] grows from [root]. *)
Inductive descends (root : liquidNode) : liquidNode -> Prop :=
| descends_root : descends root root
| descends_child p c decay :
    descends root p -> In c (children p decay) -> descends root c.

(** The nodes that [Front] has not returned yet. *)
Definition pending (q : liquidQueue) : list liquidNode :=
  skipn (Z.to_nat (cursor q)) (nodes q).

Definition cursor_ok (q : liquidQueue) : Prop :=
  0 <= cursor q <= Z.of_nat (length (nodes q)).

(** A queue in breadth-first order: nodes at [k] hops, then nodes at
    [k + 1] hops. *)
Definition levels (k : nat) (l : list liquidNode) : Prop :=
  exists l1 l2,
    l = l1 ++ l2 /\
    Forall (fun n => hops n = k) l1 /\
    Forall (fun n => hops n = S k) l2.

(** The greatest number of hops of a node that can enter the queue. *)
Definition max_hops : nat := 127.

(** The number of iterations that a node with [r] more hops to go can
    cause: its own and those of its descendants. *)
Fixpoint reach (r : nat) : nat :=
  match r with
  | O => 1
  | S r' => 1 + 4 * reach r'
  end.

(** The work a node of the queue stands for, by the hops that are left to
    it before [shortestPath] cuts it off. *)
Definition weight (n : liquidNode) : nat := reach (max_hops - hops n).



(** The work of a queue, for a weight of the nodes. *)
Definition work (wt : liquidNode -> nat) (l : list liquidNode) : nat :=
  fold_right (fun n acc => (wt n + acc)%nat) O l.

(** The state of the search is in order: the cursor is within the queue,
    [shortestPath] has not grown and the nodes that wait are [sound]. *)
Definition queue_ok (sound : liquidNode -> Prop) (st : liquidQueue * list liquidPath) : Prop :=
  cursor_ok (fst st) /\ shortestPath (fst st) <= MaxInt8 /\
  Forall sound (pending (fst st)).

(** The iterations that a liquid of depth 8 at most needs, the last one
    included. *)
Definition depth_budget : nat := S (reach 5).

(** What [visit] can do with a neighbour [c]: nothing, enqueue it, or
    record its path. *)
Inductive visited (src : BlockPos) (c : liquidNode)
  : liquidQueue * list liquidPath -> liquidQueue * list liquidPath -> Prop :=
| visited_skip q ps : visited src c (q, ps) (q, ps)
| visited_push q ps :
    Len c <= shortestPath q ->
    0 < int8_add (nodeDepth c) 3 ->
    visited src c (q, ps) (PushBack q c, ps)
| visited_found q ps :
    Len c <= shortestPath q ->
    visited src c (q, ps) (setShortestPath q (Len c), ps ++ [chain src c]).

(** The visits of a list of neighbours, one after the other. *)
Inductive visited_all (src : BlockPos)
  : list liquidNode -> liquidQueue * list liquidPath ->
    liquidQueue * list liquidPath -> Prop :=
| visited_nil st : visited_all src [] st st
| visited_cons c cs st st1 st2 :
    visited src c st st1 -> visited_all src cs st1 st2 ->
    visited_all src (c :: cs) st st2.

(** What a neighbour of a node at [h] hops can add to the work. *)
Definition gain (h : nat) : nat :=
  if (S h <=? max_hops)%nat then reach (max_hops - S h) else 0%nat.

(** The invariant of the loop of the search at level [k]. *)
Definition search_inv (root : liquidNode) (src : BlockPos) (k : nat)
    (st : liquidQueue * list liquidPath) : Prop :=
  cursor_ok (fst st) /\
  shortestPath (fst st) <= MaxInt8 /\
  levels k (pending (fst st)) /\
  Forall (descends root) (pending (fst st)) /\
  (snd st <> [] -> shortestPath (fst st) <= Z.of_nat (S k)) /\
  Forall (fun p => exists n, descends root n /\ (1 <= hops n)%nat /\
                             p = chain src n /\
                             Z.of_nat (hops n) = shortestPath (fst st)) (snd st).

(** ** Blocks, liquids and worlds of the examples *)

Definition solid : Caps := {| removable := None; item := true |}.
Definition washable : Caps := {| removable := Some false; item := false |}.
Definition misregistered : Caps := {| removable := Some true; item := false |}.

Definition water (depth : Z) (falling : bool) : Liquid :=
  {| LiquidDepth := depth; LiquidFalling := falling; SpreadDecay := 1;
     LiquidType := "water"; LiquidCaps := washable |}.

Definition lava (depth : Z) (falling : bool) : Liquid :=
  {| LiquidDepth := depth; LiquidFalling := falling; SpreadDecay := 2;
     LiquidType := "lava"; LiquidCaps := washable |}.

(** A liquid with a spread decay of 3. *)
Definition tar (depth : Z) (falling : bool) : Liquid :=
  {| LiquidDepth := depth; LiquidFalling := falling; SpreadDecay := 3;
     LiquidType := "tar"; LiquidCaps := washable |}.

Definition stone : Block := OtherBlock "stone" solid.
Definition cobblestone : Block := OtherBlock "cobblestone" solid.
Definition weed : Block := OtherBlock "weed" misregistered.

Definition origin : BlockPos := (0, 0, 0).

(** Nothing but air. *)
Definition void : World := fun _ => Air.

(** Stone below y = 0, air from there on. *)
Definition plain : World := fun p => if pY p <? 0 then stone else Air.

(** A [Harden] that turns the liquid it is called on into cobblestone. *)
Definition harden_cobble (l : Liquid) (pos : BlockPos) (w : World) (src : BlockPos)
  : World * bool :=
  (setBlock w pos cobblestone, true).

Definition fresh (w : World) : State := {| blocks := w; trace := [] |}.

(** The plain with falling water above the origin. *)
Definition capped : World := setBlock plain (0, 1, 0) (LiquidBlock (water 8 true)).

(** The plain with shallow still water above the origin. *)
Definition topped : World := setBlock plain (0, 1, 0) (LiquidBlock (water 3 false)).

(** The plain with a water source, or a weed, east of the origin. *)
Definition pond : World := setBlock plain (1, 0, 0) (LiquidBlock (water 8 false)).
Definition weedy : World := setBlock plain (1, 0, 0) weed.

(** The plain with a hole in the ground two blocks east of the origin. *)
Definition holed : World := setBlock plain (2, -1, 0) Air.

(** ** Definitions used to state further properties of the code *)

(** The position a node stands for, at the y of the search. *)
Definition nodePos (src : BlockPos) (n : liquidNode) : BlockPos :=
  (nodeX n, pY src, nodeZ n).

(** The position that [pos[1]--] makes of a position. *)
Definition down (p : BlockPos) : BlockPos := (pX p, int_sub (pY p) 1, pZ p).

(** The liquid can spread onto [p] and cannot flow down from there. *)
Definition ledge (b : Liquid) (w : World) (p : BlockPos) : Prop :=
  canFlowInto b w p true = true /\ canFlowInto b w (down p) false = false.

(** The liquid can spread onto [p] and can flow down from there. *)
Definition drop (b : Liquid) (w : World) (p : BlockPos) : Prop :=
  canFlowInto b w p true = true /\ canFlowInto b w (down p) false = true.

(** A path over ledges that ends at a drop. *)
Definition leads_to_drop (b : Liquid) (w : World) (path : liquidPath) : Prop :=
  exists init last,
    path = init ++ [last] /\ Forall (ledge b w) init /\ drop b w last.

(** Every step of the path is a horizontal neighbour of the step before
    it, the first one of [start]. *)
Fixpoint walk (start : BlockPos) (path : liquidPath) : Prop :=
  match path with
  | [] => True
  | q :: rest => In q (horizontal start) /\ walk q rest
  end.

(** The nodes from the child of the root down to [n] stand on ledges. *)
Fixpoint on_ledges (b : Liquid) (w : World) (src : BlockPos) (n : liquidNode) : Prop :=
  match n with
  | mkNode _ _ _ None => True
  | mkNode x z _ (Some p) => ledge b w (x, pY src, z) /\ on_ledges b w src p
  end.

(** The nodes of the queue satisfy [P] and the paths found satisfy [Q]. *)
Definition search_keeps (P : liquidNode -> Prop) (Q : liquidPath -> Prop)
    (st : liquidQueue * list liquidPath) : Prop :=
  cursor_ok (fst st) /\ Forall P (pending (fst st)) /\ Forall Q (snd st).

(** [PushBack] of every node of a list, in its order. *)
Definition pushAll (q : liquidQueue) (l : list liquidNode) : liquidQueue :=
  fold_left PushBack l q.

(** [k] calls of [Front]: the nodes they return and the queue they leave,
    or [None] when one of them panics. *)
Fixpoint drain (k : nat) (q : liquidQueue) : option (list liquidNode * liquidQueue) :=
  match k with
  | O => Some ([], q)
  | S k' =>
      match Front q with
      | None => None
      | Some (n, q') =>
          match drain k' q' with
          | None => None
          | Some (l, q'') => Some (n :: l, q'')
          end
      end
  end.

(** The worlds agree at [p]. *)
Definition agree_at (w w' : World) (p : BlockPos) : Prop := w p = w' p.

(** The plain walled in around the origin. *)
Definition walled : World :=
  fun p => if (pY p =? 0) && negb (BlockPos_eqb p origin) then stone else plain p.

(** The four positions next to [pos], in the order in which the search
    visits them. *)
Definition search_sides (pos : BlockPos) : list BlockPos :=
  [ (int_sub (pX pos) 1, pY pos, pZ pos);
    (int_add (pX pos) 1, pY pos, pZ pos);
    (pX pos, pY pos, int_sub (pZ pos) 1);
    (pX pos, pY pos, int_add (pZ pos) 1) ].

(** The test of [drop]. *)
Definition is_drop (b : Liquid) (w : World) (t : BlockPos) : bool :=
  canFlowInto b w t true && canFlowInto b w (down t) false.

(** The state of the search while and after the neighbours of the root
    are visited: the queue holds neighbours of the root, the paths are
    [found], and [shortestPath] is 1 as soon as there is a path. *)
Definition first_round (found : list liquidPath) (st : liquidQueue * list liquidPath) : Prop :=
  cursor_ok (fst st) /\
  Forall (fun n => hops n = 1%nat) (pending (fst st)) /\
  snd st = found /\
  1 <= shortestPath (fst st) /\
  (found <> [] -> shortestPath (fst st) = 1).

(** The void with falling water above the origin. *)
Definition shaft : World := setBlock void (0, 1, 0) (LiquidBlock (water 8 true)).

(** ** The effect of the flows, read off the blocks *)

(** What one flow does to the state, by the block at the target [t], and
    whether it panics: nothing when there is no depth left; a liquid of
    the same type is raised when it is shallower and not falling; a liquid
    of another type is hardened; a block that is not removable stays; any
    other block is broken and replaced, with a panic before the placement
    when it has drops and is no item. *)
Definition flow_effect
    (Harden : Liquid -> BlockPos -> World -> BlockPos -> World * bool)
    (b : Liquid) (src t : BlockPos) (falling : bool) (s : State) : State * bool :=
  let new := LiquidBlock (WithDepth b (newDepth b falling) falling) in
  if negb falling && (newDepth b falling <=? 0) then (s, false)
  else
    match blocks s t with
    | LiquidBlock l =>
        if String.eqb (LiquidType l) (LiquidType b) then
          if (newDepth b falling <=? LiquidDepth l) || LiquidFalling l then (s, false)
          else (placed t new s, false)
        else (hardened Harden l t src s, false)
    | blk =>
        match asLiquidRemovable blk with
        | None => (s, false)
        | Some hasDrops =>
            if hasDrops && negb (isItem blk) then (cleared t s, true)
            else (placed t new (cleared t s), false)
        end
    end.

(** The flows into the targets, one after the other; a panic ends them. *)
Fixpoint spread_effect
    (Harden : Liquid -> BlockPos -> World -> BlockPos -> World * bool)
    (b : Liquid) (src : BlockPos) (targets : list BlockPos) (s : State) : State * bool :=
  match targets with
  | [] => (s, false)
  | t :: rest =>
      let r := flow_effect Harden b src t false s in
      if snd r then r else spread_effect Harden b src rest (fst r)
  end.

(** The falling step of a tick: a falling flow of depth 8 into the
    position below, when the liquid can flow there. *)
Definition fall_effect
    (Harden : Liquid -> BlockPos -> World -> BlockPos -> World * bool)
    (b : Liquid) (pos : BlockPos) (s : State) : State * bool :=
  if canFlowInto b (blocks s) (below pos) false
  then flow_effect Harden (WithDepth b 8 true) pos (below pos) true s
  else (s, false).

(** The outcome of a tick that leaves the state [fst r], and has panicked
    when [snd r]. *)
Definition ended (r : State * bool) : outcome unit :=
  if snd r then Panic item_panic (fst r) else Done tt (fst r).

(** The targets of the lateral spread for the paths the path finder
    returns: the four horizontal neighbours when there is no path, else
    the first step of every path whose length is at most the minimum. *)
Definition spread_targets (pos : BlockPos) (paths : list liquidPath) : list BlockPos :=
  match paths with
  | [] => horizontal pos
  | _ => first_steps (filter (fun p => len p <=? min_len paths) paths)
  end.

(** A block that a flow of [b] meets without hardening and without panic. *)
Definition open_to (b : Liquid) (blk : Block) : Prop :=
  ~ foreign_liquid b blk /\ ~ (asLiquid blk = None /\ drops_without_item blk).

(** The block a flow of [b] that is not falling leaves where it has met
    the block [blk], for a block that is [open_to] it. *)
Definition flowed (b : Liquid) (blk : Block) : Block :=
  let new := LiquidBlock (WithDepth b (newDepth b false) false) in
  if newDepth b false <=? 0 then blk
  else
    match blk with
    | LiquidBlock l =>
        if String.eqb (LiquidType l) (LiquidType b)
           && negb ((newDepth b false <=? LiquidDepth l) || LiquidFalling l)
        then new else blk
    | _ => match asLiquidRemovable blk with
           | None => blk
           | Some _ => new
           end
    end.

(** [p] is one of the targets. *)
Definition among (targets : list BlockPos) (p : BlockPos) : bool :=
  existsb (BlockPos_eqb p) targets.

(** ** The search of a liquid whose decay wraps *)






(** * Properties *)

Unset Implicit Arguments.

(** ** Machine integers and positions *)


Lemma wrap_exact (bits z : Z) :
  0 < bits -> - 2 ^ (bits - 1) <= z < 2 ^ (bits - 1) -> wrap bits z = z.
Proof.
  intros Hb Hz. unfold wrap.
  assert (Hp : 2 ^ bits = 2 * 2 ^ (bits - 1)).
  { replace bits with (Z.succ (bits - 1)) at 1 by lia. apply Z.pow_succ_r. lia. }
  rewrite Z.mod_small by lia. lia.
Qed.

(** Without overflow the arithmetic of [int] is that of the integers. *)
Lemma int_sub_exact (a b : Z) :
  - 2 ^ 63 <= a - b < 2 ^ 63 -> int_sub a b = a - b.
Proof. intros H. unfold int_sub. apply wrap_exact; [lia | exact H]. Qed.

Lemma int_add_exact (a b : Z) :
  - 2 ^ 63 <= a + b < 2 ^ 63 -> int_add a b = a + b.
Proof. intros H. unfold int_add. apply wrap_exact; [lia | exact H]. Qed.

Lemma int_mul_exact (a b : Z) :
  - 2 ^ 63 <= a * b < 2 ^ 63 -> int_mul a b = a * b.
Proof. intros H. unfold int_mul. apply wrap_exact; [lia | exact H]. Qed.

Lemma wrap8_exact (v : Z) : -128 <= v <= 127 -> wrap 8 v = v.
Proof.
  intros H. apply wrap_exact; [lia |]. change (2 ^ (8 - 1)) with 128. lia.
Qed.

Lemma int8_exact (v : Z) : -128 <= v <= 127 -> int8 v = v.
Proof. apply wrap8_exact. Qed.

Lemma int8_add_exact (a b : Z) : -128 <= a + b <= 127 -> int8_add a b = a + b.
Proof. apply wrap8_exact. Qed.

Lemma int8_sub_exact (a b : Z) : -128 <= a - b <= 127 -> int8_sub a b = a - b.
Proof. apply wrap8_exact. Qed.

Lemma int8_mul_exact (a b : Z) : -128 <= a * b <= 127 -> int8_mul a b = a * b.
Proof. apply wrap8_exact. Qed.

(** Adding a small non-zero amount changes an [int]. *)
Lemma wrap64_shift (a d : Z) :
  0 < Z.abs d < 2 ^ 64 -> wrap 64 (a + d) <> a.
Proof.
  intros Hd Heq. unfold wrap in Heq.
  change (2 ^ (64 - 1)) with 9223372036854775808 in Heq.
  change (2 ^ 64) with 18446744073709551616 in *.
  pose proof (Z.mod_pos_bound (a + d + 9223372036854775808) 18446744073709551616).
  pose proof (Z.div_mod (a + d + 9223372036854775808) 18446744073709551616).
  lia.
Qed.

Lemma int_add_1_neq (a : Z) : int_add a 1 <> a.
Proof. apply wrap64_shift. simpl. lia. Qed.

Lemma int_sub_1_neq (a : Z) : int_sub a 1 <> a.
Proof. unfold int_sub. replace (a - 1) with (a + -1) by lia. apply wrap64_shift. simpl. lia. Qed.

Lemma int_add_sub_1_neq (a : Z) : int_add a 1 <> int_sub a 1.
Proof.
  unfold int_add, int_sub, wrap.
  change (2 ^ (64 - 1)) with 9223372036854775808.
  change (2 ^ 64) with 18446744073709551616.
  pose proof (Z.div_mod (a + 1 + 9223372036854775808) 18446744073709551616).
  pose proof (Z.div_mod (a - 1 + 9223372036854775808) 18446744073709551616).
  lia.
Qed.

Lemma BlockPos_eqb_eq (p q : BlockPos) : BlockPos_eqb p q = true <-> p = q.
Proof.
  destruct p as [[x y] z], q as [[x' y'] z']. unfold BlockPos_eqb, pX, pY, pZ. simpl.
  rewrite !andb_true_iff, !Z.eqb_eq. split.
  - intros [[-> ->] ->]. reflexivity.
  - intros H. inversion H. auto.
Qed.

Lemma BlockPos_eqb_refl (p : BlockPos) : BlockPos_eqb p p = true.
Proof. apply BlockPos_eqb_eq. reflexivity. Qed.

Lemma BlockPos_eqb_neq (p q : BlockPos) : BlockPos_eqb p q = false <-> p <> q.
Proof.
  rewrite <- BlockPos_eqb_eq. destruct (BlockPos_eqb p q); split; congruence.
Qed.

Lemma setBlock_same (w : World) (pos : BlockPos) (blk : Block) :
  setBlock w pos blk pos = blk.
Proof. unfold setBlock. rewrite BlockPos_eqb_refl. reflexivity. Qed.

Lemma setBlock_other (w : World) (pos p : BlockPos) (blk : Block) :
  p <> pos -> setBlock w pos blk p = w p.
Proof.
  intros H. unfold setBlock. apply BlockPos_eqb_neq in H. rewrite H. reflexivity.
Qed.

(** The horizontal neighbours are the neighbours at the same y. *)
Lemma horizontal_filter (p : BlockPos) :
  horizontal p = filter (fun n => pY n =? pY p) (Neighbours p).
Proof.
  unfold horizontal, Neighbours. cbn [filter pY fst snd].
  rewrite Z.eqb_refl.
  destruct (Z.eqb_spec (int_add (pY p) 1) (pY p)) as [E | _];
    [exfalso; exact (int_add_1_neq _ E) |].
  destruct (Z.eqb_spec (int_sub (pY p) 1) (pY p)) as [E | _];
    [exfalso; exact (int_sub_1_neq _ E) |].
  reflexivity.
Qed.

Lemma horizontal_not_self (p t : BlockPos) : In t (horizontal p) -> t <> p.
Proof.
  destruct p as [[x y] z]. unfold horizontal, pX, pY, pZ. simpl.
  intros [H | [H | [H | [H | []]]]] E; subst t; inversion E;
    first [ eapply int_add_1_neq; eassumption | eapply int_sub_1_neq; eassumption ].
Qed.

Lemma below_not_self (p : BlockPos) : below p <> p.
Proof.
  destruct p as [[x y] z]. unfold below, Add, pX, pY, pZ. simpl. intros E.
  inversion E as [[Hx Hy Hz]].
  unfold int_add in Hy. apply (wrap64_shift y (-1)); [simpl; lia | exact Hy].
Qed.

(** ** Path nodes *)

Lemma liquidNode_ind (P : liquidNode -> Prop) :
  (forall x z d, P (mkNode x z d None)) ->
  (forall x z d p, P p -> P (mkNode x z d (Some p))) ->
  forall n, P n.
Proof.
  intros Hroot Hchild. fix IH 1. intros [x z d [p |]].
  - apply Hchild. apply IH.
  - apply Hroot.
Qed.

Lemma Len_loop_hops (n : liquidNode) : forall i, Len_loop n i = i - 1 + Z.of_nat (hops n).
Proof.
  induction n as [x z d | x z d p IH] using liquidNode_ind; intros i; simpl.
  - lia.
  - rewrite IH. lia.
Qed.

(** [Len] counts the hops from the root. *)
Lemma Len_hops (n : liquidNode) : Len n = Z.of_nat (hops n).
Proof. unfold Len. rewrite Len_loop_hops. lia. Qed.

Lemma chain_length (src : BlockPos) (n : liquidNode) : length (chain src n) = hops n.
Proof.
  induction n as [x z d | x z d p IH] using liquidNode_ind; simpl.
  - reflexivity.
  - rewrite length_app, IH. simpl. lia.
Qed.

Lemma set_index_at (pre post : liquidPath) (old v : BlockPos) (i : Z) :
  i = Z.of_nat (length pre) ->
  set_index (pre ++ old :: post) i v = Some (pre ++ v :: post).
Proof.
  intros ->. unfold set_index.
  assert (Hin : (0 <=? Z.of_nat (length pre))
                && (Z.of_nat (length pre) <? Z.of_nat (length (pre ++ old :: post))) = true).
  { rewrite length_app. cbn [length].
    apply andb_true_iff; split; [apply Z.leb_le | apply Z.ltb_lt]; lia. }
  rewrite Hin, Nat2Z.id. f_equal.
  rewrite firstn_app, firstn_all, Nat.sub_diag, firstn_O, app_nil_r. f_equal. f_equal.
  rewrite skipn_app, skipn_all2 by lia.
  replace (S (length pre) - length pre)%nat with 1%nat by lia. reflexivity.
Qed.

(** The loop of [Path] fills the first [hops n] positions of the slice
    from the last one down, and does not leave the slice. *)
Lemma Path_loop_chain (src : BlockPos) (n : liquidNode) :
  forall pre post,
    length pre = hops n ->
    Path_loop src n (pre ++ post) (Z.of_nat (hops n) - 1) = Some (chain src n ++ post).
Proof.
  induction n as [x z d | x z d p IH] using liquidNode_ind; intros pre post Hlen;
    cbn [hops chain Path_loop] in *.
  - destruct pre; [reflexivity | discriminate].
  - destruct (exists_last (l := pre)) as [pre' [old Hpre]].
    { intros ->. discriminate. }
    subst pre. rewrite length_app in Hlen. cbn [length] in Hlen.
    rewrite <- app_assoc. cbn [app].
    rewrite (set_index_at pre' post old (x, pY src, z)) by lia.
    cbv beta iota.
    replace (Z.of_nat (S (hops p)) - 1 - 1) with (Z.of_nat (hops p) - 1) by lia.
    rewrite IH by lia.
    rewrite <- app_assoc. reflexivity.
Qed.

(** [Path] never panics and returns the chain of the node. *)
Lemma Path_chain (n : liquidNode) (src : BlockPos) : Path n src = Some (chain src n).
Proof.
  unfold Path. rewrite Len_hops.
  replace (Z.of_nat (hops n) <? 0) with false by (symmetry; apply Z.ltb_ge; lia).
  rewrite Nat2Z.id.
  pose proof (Path_loop_chain src n (repeat (0, 0, 0) (hops n)) []) as H.
  rewrite !app_nil_r in H. apply H. apply repeat_length.
Qed.

Lemma children_hops (p c : liquidNode) (decay : Z) :
  In c (children p decay) -> hops c = S (hops p).
Proof.
  unfold children, neighbours. simpl.
  intros [H | [H | [H | [H | []]]]]; subst c; reflexivity.
Qed.

Lemma children_step (src : BlockPos) (p c : liquidNode) (decay : Z) :
  In c (children p decay) ->
  exists t, chain src c = chain src p ++ [t] /\
            In t (horizontal (nodeX p, pY src, nodeZ p)).
Proof.
  unfold children, neighbours, horizontal, pX, pY, pZ. simpl.
  intros [H | [H | [H | [H | []]]]]; subst c; simpl; eexists; split;
    try reflexivity; simpl; auto.
Qed.

(** The path of a node below the root starts with a horizontal neighbour
    of the root. *)
Lemma descends_first_step (root : liquidNode) (src : BlockPos) (n : liquidNode) :
  previous root = None ->
  descends root n ->
  (1 <= hops n)%nat ->
  exists t rest, chain src n = t :: rest /\
                 In t (horizontal (nodeX root, pY src, nodeZ root)).
Proof.
  intros Hroot Hd. induction Hd as [| p c decay Hp IH Hc]; intros Hh.
  - destruct root as [x z d [q |]]; simpl in *; [discriminate | lia].
  - destruct (children_step src _ _ _ Hc) as [t [Hchain Ht]].
    destruct (Nat.eq_dec (hops p) 0) as [Hz | Hnz].
    + assert (p = root) as ->.
      { clear - Hp Hz. destruct Hp as [| p c decay _ Hc]; [reflexivity |].
        apply children_hops in Hc. lia. }
      assert (chain src root = []) as Hnil.
      { destruct root as [x z d [q |]]; simpl in *; [discriminate | reflexivity]. }
      rewrite Hchain, Hnil. simpl. eauto.
    + destruct IH as [t' [rest [Hch Hin]]]; [lia |].
      rewrite Hchain, Hch. simpl. eauto.
Qed.

(** ** The queue *)

(** Resetting gives back the queue the pool starts with, whatever the
    queue held. *)
Lemma Reset_newQueue (q : liquidQueue) : Reset q = newQueue.
Proof. reflexivity. Qed.

Lemma pending_PushBack (q : liquidQueue) (c : liquidNode) :
  cursor_ok q -> pending (PushBack q c) = pending q ++ [c].
Proof.
  unfold cursor_ok, pending, PushBack. cbn [nodes cursor]. intros H.
  rewrite skipn_app.
  replace (Z.to_nat (cursor q) - length (nodes q))%nat with 0%nat by lia.
  reflexivity.
Qed.

Lemma cursor_ok_PushBack (q : liquidQueue) (c : liquidNode) :
  cursor_ok q -> cursor_ok (PushBack q c).
Proof.
  unfold cursor_ok, PushBack. cbn [nodes cursor]. rewrite length_app. cbn [length]. lia.
Qed.

Lemma pending_empty (q : liquidQueue) :
  cursor_ok q -> QLen q = 0 -> pending q = [].
Proof.
  unfold cursor_ok, QLen, pending. intros H H0. apply skipn_all2. lia.
Qed.

(** [Front] does not panic on a queue that is not empty. *)
Lemma Front_pending (q : liquidQueue) :
  cursor_ok q -> QLen q <> 0 ->
  exists n q',
    Front q = Some (n, q') /\ pending q = n :: pending q' /\
    cursor_ok q' /\ shortestPath q' = shortestPath q.
Proof.
  unfold cursor_ok, QLen, Front, pending. intros H H0.
  replace (cursor q <? 0) with false by (symmetry; apply Z.ltb_ge; lia).
  destruct (nth_error (nodes q) (Z.to_nat (cursor q))) as [n |] eqn:E.
  - exists n. eexists. split; [reflexivity |]. cbn [nodes cursor shortestPath].
    destruct (nth_error_split _ _ E) as [l1 [l2 [Hl Hlen]]].
    split; [| split; [| reflexivity]].
    + replace (Z.to_nat (cursor q + 1)) with (S (length l1)) by lia.
      rewrite <- Hlen, Hl.
      assert (E1 : skipn (length l1) (l1 ++ n :: l2) = n :: l2).
      { rewrite skipn_app, skipn_all2, Nat.sub_diag by lia. reflexivity. }
      assert (E2 : skipn (S (length l1)) (l1 ++ n :: l2) = l2).
      { rewrite skipn_app, skipn_all2 by lia.
        replace (S (length l1) - length l1)%nat with 1%nat by lia. reflexivity. }
      rewrite E1, E2. reflexivity.
    + assert (Z.to_nat (cursor q) < length (nodes q))%nat
        by (apply nth_error_Some; congruence).
      lia.
  - apply nth_error_None in E. lia.
Qed.

(** ** One iteration of the search *)

Lemma spreadNeighbour_cases (b : Liquid) (src : BlockPos) (w : World)
    (c : liquidNode) (q : liquidQueue) :
  spreadNeighbour b src w c q = (false, q) \/
  (spreadNeighbour b src w c q = (false, PushBack q c) /\
   Len c <= shortestPath q /\ 0 < int8_add (nodeDepth c) 3) \/
  (spreadNeighbour b src w c q = (true, q) /\ Len c <= shortestPath q).
Proof.
  unfold spreadNeighbour.
  destruct (Z.leb_spec (int8_add (nodeDepth c) 3) 0); [auto |].
  destruct (Z.gtb_spec (Len c) (shortestPath q)); [auto |].
  destruct (canFlowInto b w (nodeX c, pY src, nodeZ c) true); cbn [negb]; [| auto].
  destruct (canFlowInto b w (nodeX c, int_sub (pY src) 1, nodeZ c) false).
  - right. right. split; [reflexivity | lia].
  - right. left. split; [reflexivity | lia].
Qed.


(** [visit] does not panic, and does one of three things. *)
Lemma visit_visited (b : Liquid) (pos : BlockPos) (w : World) (c : liquidNode)
    (st : liquidQueue * list liquidPath) :
  exists st', visit b pos w c st = Some st' /\ visited pos c st st'.
Proof.
  destruct st as [q ps]. unfold visit.
  destruct (spreadNeighbour_cases b pos w c q) as [E | [[E [H1 H2]] | [E H1]]];
    rewrite E.
  - eexists. split; [reflexivity | constructor].
  - eexists. split; [reflexivity | constructor; assumption].
  - rewrite Path_chain. eexists. split; [reflexivity | constructor; assumption].
Qed.

Lemma search_body_break (b : Liquid) (pos : BlockPos) (w : World) (decay : Z)
    (q : liquidQueue) (ps : list liquidPath) :
  QLen q = 0 -> search_body b pos w decay (q, ps) = Break ps.
Proof. intros H. unfold search_body. rewrite H. reflexivity. Qed.

(** An iteration on a queue that is not empty takes a node off the queue
    and visits its four neighbours; it does not panic. *)
Lemma search_body_continue (b : Liquid) (pos : BlockPos) (w : World) (decay : Z)
    (q : liquidQueue) (ps : list liquidPath) :
  cursor_ok q -> QLen q <> 0 ->
  exists n q0 st',
    pending q = n :: pending q0 /\ cursor_ok q0 /\
    shortestPath q0 = shortestPath q /\
    visited_all pos (children n (int8_mul decay 2)) (q0, ps) st' /\
    search_body b pos w decay (q, ps) = Continue st'.
Proof.
  intros Hok Hlen. unfold search_body.
  destruct (Z.eqb_spec (QLen q) 0) as [E | _]; [contradiction |].
  destruct (Front_pending q Hok Hlen) as [n [q0 [HF [Hp [Hok0 Hsp]]]]].
  rewrite HF. unfold children, neighbours. cbv beta iota.
  destruct (visit_visited b pos w
              (mkNode (int_sub (nodeX n) 1) (nodeZ n)
                      (int8_sub (nodeDepth n) (int8_mul decay 2)) (Some n))
              (q0, ps)) as [st1 [E1 V1]].
  rewrite E1.
  destruct (visit_visited b pos w
              (mkNode (int_add (nodeX n) 1) (nodeZ n)
                      (int8_sub (nodeDepth n) (int8_mul decay 2)) (Some n))
              st1) as [st2 [E2 V2]].
  rewrite E2.
  destruct (visit_visited b pos w
              (mkNode (nodeX n) (int_sub (nodeZ n) 1)
                      (int8_sub (nodeDepth n) (int8_mul decay 2)) (Some n))
              st2) as [st3 [E3 V3]].
  rewrite E3.
  destruct (visit_visited b pos w
              (mkNode (nodeX n) (int_add (nodeZ n) 1)
                      (int8_sub (nodeDepth n) (int8_mul decay 2)) (Some n))
              st3) as [st4 [E4 V4]].
  rewrite E4.
  exists n, q0, st4.
  split; [exact Hp |]. split; [exact Hok0 |]. split; [exact Hsp |].
  split; [| reflexivity].
  apply visited_cons with st1; [exact V1 |].
  apply visited_cons with st2; [exact V2 |].
  apply visited_cons with st3; [exact V3 |].
  apply visited_cons with st4; [exact V4 |].
  apply visited_nil.
Qed.

(** ** Loops *)

Section Loops.

Variables (S R : Type) (body : S -> progress S R).

Lemma loop_add (a b : nat) (s : S) :
  loop (a + b) body s =
  match loop a body s with
  | Continue s' => loop b body s'
  | r => r
  end.
Proof.
  revert s. induction a as [| a IH]; intros s; cbn [loop Nat.add].
  - reflexivity.
  - destruct (body s); [apply IH | reflexivity | reflexivity].
Qed.

(** [iterate k] runs [2 ^ k] iterations. *)
Lemma iterate_loop (k : nat) (s : S) : iterate k body s = loop (2 ^ k) body s.
Proof.
  revert s. induction k as [| k IH]; intros s.
  - cbn [iterate Nat.pow loop Nat.mul]. destruct (body s); reflexivity.
  - cbn [iterate]. rewrite Nat.pow_succ_r'.
    replace (2 * 2 ^ k)%nat with (2 ^ k + 2 ^ k)%nat by lia.
    rewrite loop_add, <- IH. destruct (iterate k body s); auto.
Qed.

(** A loop that has ended does not change with more iterations allowed. *)
Lemma loop_more (n m : nat) (s : S) (r : R) :
  loop n body s = Break r -> (n <= m)%nat -> loop m body s = Break r.
Proof.
  intros H Hle. replace m with (n + (m - n))%nat by lia.
  rewrite loop_add, H. reflexivity.
Qed.

(** An invariant of the body holds in the state the loop breaks in. *)
Lemma loop_invariant (I : S -> Prop) :
  (forall s s', I s -> body s = Continue s' -> I s') ->
  forall n s r, I s -> loop n body s = Break r ->
                exists s', I s' /\ body s' = Break r.
Proof.
  intros Hstep. induction n as [| n IH]; intros s r Hs Hloop; cbn [loop] in Hloop.
  - discriminate.
  - destruct (body s) as [s1 | r1 |] eqn:E.
    + apply (IH s1 r); [eapply Hstep; eassumption | assumption].
    + exists s. split; [assumption | congruence].
    + discriminate.
Qed.

End Loops.

(** ** Termination of the search *)

Lemma reach_succ (r : nat) : reach (Datatypes.S r) = (1 + 4 * reach r)%nat.
Proof. reflexivity. Qed.

Lemma reach_pos (r : nat) : (1 <= reach r)%nat.
Proof. destruct r; [cbn [reach]; lia | rewrite reach_succ; lia]. Qed.

Lemma reach_pow (r : nat) : (3 * reach r + 1 = 4 ^ Datatypes.S r)%nat.
Proof.
  induction r as [| r IH].
  - reflexivity.
  - rewrite reach_succ, (Nat.pow_succ_r' 4 (Datatypes.S r)). lia.
Qed.

Lemma budget_enough : (reach max_hops < 2 ^ search_budget)%nat.
Proof.
  assert (E : (2 ^ search_budget = 4 ^ Datatypes.S max_hops)%nat).
  { change 4%nat with (2 ^ 2)%nat. rewrite <- Nat.pow_mul_r. f_equal. }
  rewrite E. pose proof (reach_pow max_hops). lia.
Qed.

Lemma MaxInt8_max_hops : MaxInt8 = Z.of_nat max_hops.
Proof. reflexivity. Qed.

Lemma work_app (wt : liquidNode -> nat) (l1 l2 : list liquidNode) :
  work wt (l1 ++ l2) = (work wt l1 + work wt l2)%nat.
Proof.
  induction l1 as [| n l1 IH]; cbn [work app fold_right]; [reflexivity |].
  fold (work wt (l1 ++ l2)). fold (work wt l1). rewrite IH. lia.
Qed.

Lemma children_all_hops (n : liquidNode) (decay : Z) :
  Forall (fun c => hops c = Datatypes.S (hops n)) (children n decay).
Proof. apply Forall_forall. intros c Hc. eapply children_hops; eassumption. Qed.

Lemma children_length (n : liquidNode) (decay : Z) : length (children n decay) = 4%nat.
Proof. reflexivity. Qed.

(** The loop ends when every node of the queue weighs more than the
    neighbours it can put on the queue. *)
Section Work.

Variables (b : Liquid) (pos : BlockPos) (w : World) (decay : Z).

(** A weight of the nodes, and what is known of the nodes of the queue. *)
Variable wt : liquidNode -> nat.
Variable sound : liquidNode -> Prop.

(** A node outweighs four times any neighbour that can be enqueued, and
    such a neighbour is sound. *)
Hypothesis outweighs :
  forall n,
    sound n ->
    exists g,
      (1 + 4 * g <= wt n)%nat /\
      forall c,
        In c (children n (int8_mul decay 2)) ->
        Len c <= MaxInt8 -> 0 < int8_add (nodeDepth c) 3 ->
        sound c /\ (wt c <= g)%nat.

Lemma visited_work (c : liquidNode) (g : nat) (st st' : liquidQueue * list liquidPath) :
  visited pos c st st' ->
  (Len c <= MaxInt8 -> 0 < int8_add (nodeDepth c) 3 -> sound c /\ (wt c <= g)%nat) ->
  queue_ok sound st ->
  queue_ok sound st' /\
  (work wt (pending (fst st')) <= work wt (pending (fst st)) + g)%nat.
Proof.
  intros V Hc [Hok [Hsp Hs]].
  destruct V as [q ps | q ps HL HD | q ps HL]; cbn [fst] in *.
  - split; [split; [exact Hok | split; [exact Hsp | exact Hs]] | lia].
  - destruct Hc as [Hsound Hwt]; [lia | exact HD |].
    split.
    + split; [apply cursor_ok_PushBack; exact Hok |]. split; [exact Hsp |].
      cbn [fst]. rewrite pending_PushBack by exact Hok. apply Forall_app. auto.
    + rewrite pending_PushBack, work_app by exact Hok. cbn [work fold_right]. lia.
  - split; [| unfold pending; cbn [setShortestPath nodes cursor]; lia].
    split; [exact Hok |]. split; [cbn [fst setShortestPath shortestPath]; lia |].
    exact Hs.
Qed.

Lemma visited_all_work (cs : list liquidNode) (g : nat)
    (st st' : liquidQueue * list liquidPath) :
  visited_all pos cs st st' ->
  (forall c, In c cs ->
             Len c <= MaxInt8 -> 0 < int8_add (nodeDepth c) 3 ->
             sound c /\ (wt c <= g)%nat) ->
  queue_ok sound st ->
  queue_ok sound st' /\
  (work wt (pending (fst st')) <= work wt (pending (fst st)) + length cs * g)%nat.
Proof.
  intros V. induction V as [st | c cs st st1 st2 V1 V IH]; intros Hcs Hq.
  - cbn [length]. split; [exact Hq | lia].
  - destruct (visited_work c g st st1 V1 (Hcs c (or_introl eq_refl)) Hq) as [Hq1 Hw1].
    destruct (IH (fun c' Hc' => Hcs c' (or_intror Hc')) Hq1) as [Hq2 Hw2].
    split; [exact Hq2 |]. cbn [length]. lia.
Qed.

(** Every iteration that does not end the loop takes work away. *)
Lemma search_body_work (st st' : liquidQueue * list liquidPath) :
  queue_ok sound st ->
  search_body b pos w decay st = Continue st' ->
  queue_ok sound st' /\ (work wt (pending (fst st')) < work wt (pending (fst st)))%nat.
Proof.
  destruct st as [q ps]. intros [Hok [Hsp Hs]] Hbody. cbn [fst] in *.
  destruct (Z.eq_dec (QLen q) 0) as [E | E].
  - rewrite search_body_break in Hbody by assumption. discriminate.
  - destruct (search_body_continue b pos w decay q ps Hok E)
      as [n [q0 [st1 [Hp [Hok0 [Hsp0 [V Hb]]]]]]].
    rewrite Hb in Hbody. injection Hbody as <-.
    rewrite Hp in Hs. apply Forall_cons_iff in Hs. destruct Hs as [Hn Hrest].
    destruct (outweighs n Hn) as [g [Hg Hcs]].
    destruct (visited_all_work _ g _ _ V Hcs) as [Hq1 Hw].
    { split; [exact Hok0 |]. split; [cbn [fst]; lia | exact Hrest]. }
    split; [exact Hq1 |].
    rewrite children_length in Hw. cbn [fst] in Hw.
    rewrite Hp. cbn [work fold_right]. fold (work wt (pending q0)). lia.
Qed.

Lemma search_loop_ends :
  forall fuel st,
    queue_ok sound st ->
    (work wt (pending (fst st)) < fuel)%nat ->
    exists paths, loop fuel (search_body b pos w decay) st = Break paths.
Proof.
  induction fuel as [| fuel IH]; intros st Hq Hw; [lia |].
  cbn [loop]. destruct (search_body b pos w decay st) as [st' | paths |] eqn:E.
  - destruct (search_body_work st st' Hq E) as [Hq' Hw'].
    apply IH; [exact Hq' | lia].
  - eauto.
  - exfalso. destruct st as [q ps]. destruct Hq as [Hok _]. cbn [fst] in *.
    destruct (Z.eq_dec (QLen q) 0) as [E0 | E0].
    + rewrite search_body_break in E by assumption. discriminate.
    + destruct (search_body_continue b pos w decay q ps Hok E0)
        as [n [q0 [st1 [_ [_ [_ [_ Hb]]]]]]]. congruence.
Qed.

End Work.

(** The weight by hops fits every search. *)
Lemma weight_outweighs (decay : Z) (n : liquidNode) :
  True ->
  exists g,
    (1 + 4 * g <= weight n)%nat /\
    forall c,
      In c (children n (int8_mul decay 2)) ->
      Len c <= MaxInt8 -> 0 < int8_add (nodeDepth c) 3 ->
      True /\ (weight c <= g)%nat.
Proof.
  intros _. exists (gain (hops n)). unfold gain, weight. split.
  - destruct (Nat.leb_spec (Datatypes.S (hops n)) max_hops) as [H | H].
    + replace (max_hops - hops n)%nat
        with (Datatypes.S (max_hops - Datatypes.S (hops n))) by lia.
      rewrite reach_succ. lia.
    + pose proof (reach_pos (max_hops - hops n)). lia.
  - intros c Hc HL _. split; [exact I |].
    apply children_hops in Hc. rewrite Len_hops, Hc, MaxInt8_max_hops in HL.
    rewrite Hc. destruct (Nat.leb_spec (Datatypes.S (hops n)) max_hops); lia.
Qed.

(** The arithmetic of [int8] on the depths of a search whose liquid has a
    decay of 1 to 63. *)
Lemma child_depth_exact (decay d : Z) :
  1 <= decay <= 63 -> -2 <= d <= 127 ->
  int8_sub d (int8_mul (int8 decay) 2) = d - 2 * decay.
Proof.
  intros Hd Hn. rewrite int8_exact by lia.
  rewrite int8_mul_exact by lia. rewrite int8_sub_exact by lia. lia.
Qed.



Lemma search_start_ok (b : Liquid) (pos : BlockPos) :
  cursor_ok (fst (search_start b pos)) /\
  shortestPath (fst (search_start b pos)) <= MaxInt8 /\
  pending (fst (search_start b pos)) = [rootNode b pos].
Proof.
  unfold search_start, cursor_ok, pending. cbn. repeat split; lia.
Qed.

(** The loop of the search ends after at most [reach max_hops + 1]
    iterations, and [calculateLiquidPaths] returns what it has then. *)
Lemma calculateLiquidPaths_total (b : Liquid) (pos : BlockPos) (w : World) :
  exists paths,
    loop (Datatypes.S (reach max_hops)) (search_body b pos w (int8 (SpreadDecay b)))
         (search_start b pos) = Break paths /\
    calculateLiquidPaths b pos w = Some paths.
Proof.
  destruct (search_start_ok b pos) as [Hok [Hsp Hp]].
  destruct (search_loop_ends b pos w (int8 (SpreadDecay b)) weight (fun _ => True)
              (weight_outweighs (int8 (SpreadDecay b)))
              (Datatypes.S (reach max_hops)) (search_start b pos))
    as [paths Hloop].
  { split; [exact Hok |]. split; [exact Hsp |]. rewrite Hp. repeat constructor. }
  { rewrite Hp. cbn [work fold_right]. unfold weight. cbn [rootNode hops].
    rewrite Nat.sub_0_r. lia. }
  exists paths. split; [exact Hloop |].
  unfold calculateLiquidPaths. rewrite iterate_loop.
  rewrite (loop_more _ _ _ _ _ _ _ Hloop); [reflexivity |].
  pose proof budget_enough. lia.
Qed.


(** ** The breadth-first order and the paths found *)

Lemma levels_pop (k : nat) (n : liquidNode) (rest : list liquidNode) :
  levels k (n :: rest) -> (k <= hops n)%nat /\ levels (hops n) rest.
Proof.
  intros [l1 [l2 [Hl [H1 H2]]]]. destruct l1 as [| m l1]; cbn [app] in Hl.
  - subst l2. inversion H2 as [| ? ? Hn Hrest]; subst. split; [lia |].
    rewrite Hn. exists rest, []. rewrite app_nil_r. auto.
  - injection Hl as <- ->. inversion H1 as [| ? ? Hn Hrest]; subst. split; [lia |].
    exists l1, l2. auto.
Qed.

Lemma levels_push (k : nat) (l : list liquidNode) (c : liquidNode) :
  levels k l -> hops c = S k -> levels k (l ++ [c]).
Proof.
  intros [l1 [l2 [Hl [H1 H2]]]] Hc. exists l1, (l2 ++ [c]).
  rewrite Hl, app_assoc. split; [reflexivity |]. split; [assumption |].
  apply Forall_app. auto.
Qed.

Lemma visited_inv (root : liquidNode) (src : BlockPos) (h : nat) (c : liquidNode)
    (st st' : liquidQueue * list liquidPath) :
  search_inv root src h st ->
  descends root c -> hops c = S h ->
  visited src c st st' ->
  search_inv root src h st'.
Proof.
  intros [Hok [Hsp [Hlv [Hd [Hb Hps]]]]] Hc Hh V.
  destruct V as [q ps | q ps HL HD | q ps HL]; cbn [fst snd] in *.
  - unfold search_inv; cbn [fst snd]; auto 10.
  - unfold search_inv; cbn [fst snd].
    rewrite pending_PushBack by assumption.
    split; [apply cursor_ok_PushBack; assumption |].
    split; [assumption |].
    split; [apply levels_push; assumption |].
    split; [apply Forall_app; auto |].
    split; assumption.
  - rewrite Len_hops, Hh in HL.
    assert (Hsame : ps <> [] -> shortestPath q = Z.of_nat (S h)).
    { intros Hne. specialize (Hb Hne). lia. }
    unfold search_inv; cbn [fst snd setShortestPath shortestPath].
    rewrite Len_hops, Hh.
    split; [exact Hok |].
    split; [lia |].
    split; [exact Hlv |].
    split; [exact Hd |].
    split; [intros _; lia |].
    apply Forall_app. split.
    + destruct ps as [| p ps']; [constructor |].
      rewrite <- Hsame by discriminate. exact Hps.
    + constructor; [| constructor].
      exists c. repeat split; try assumption; lia.
Qed.

Lemma visited_all_inv (root : liquidNode) (src : BlockPos) (h : nat)
    (cs : list liquidNode) (st st' : liquidQueue * list liquidPath) :
  visited_all src cs st st' ->
  Forall (fun c => descends root c /\ hops c = S h) cs ->
  search_inv root src h st ->
  search_inv root src h st'.
Proof.
  intros V. induction V as [st | c cs st st1 st2 V1 V IH]; intros Hcs Hinv.
  - exact Hinv.
  - inversion Hcs as [| ? ? [Hc Hh] Hcs']; subst.
    apply IH; [exact Hcs' |]. eapply visited_inv; eassumption.
Qed.

(** The invariant is kept by an iteration. *)
Lemma search_body_inv (b : Liquid) (pos : BlockPos) (w : World) (decay : Z)
    (root : liquidNode) (st st' : liquidQueue * list liquidPath) :
  (exists k, search_inv root pos k st) ->
  search_body b pos w decay st = Continue st' ->
  exists k, search_inv root pos k st'.
Proof.
  intros [k [Hok [Hsp [Hlv [Hd [Hb Hps]]]]]] Hbody. destruct st as [q ps].
  cbn [fst snd] in *.
  destruct (Z.eq_dec (QLen q) 0) as [E | E].
  - rewrite search_body_break in Hbody by assumption. discriminate.
  - destruct (search_body_continue b pos w decay q ps Hok E)
      as [n [q0 [st1 [Hp [Hok0 [Hsp0 [V Hbd]]]]]]].
    rewrite Hbd in Hbody. injection Hbody as <-.
    rewrite Hp in Hlv, Hd. apply levels_pop in Hlv. destruct Hlv as [Hk Hlv].
    inversion Hd as [| ? ? Hn Hrest]; subst.
    exists (hops n). apply (visited_all_inv root pos (hops n) _ _ _ V).
    + apply Forall_forall. intros c Hc. split.
      * eapply descends_child; eassumption.
      * eapply children_hops; eassumption.
    + unfold search_inv; cbn [fst snd]. rewrite Hsp0.
      split; [exact Hok0 |]. split; [exact Hsp |]. split; [exact Hlv |].
      split; [exact Hrest |]. split; [intros Hne; specialize (Hb Hne); lia |].
      exact Hps.
Qed.

Lemma search_start_inv (b : Liquid) (pos : BlockPos) :
  search_inv (rootNode b pos) pos 0 (search_start b pos).
Proof.
  destruct (search_start_ok b pos) as [Hok [Hsp Hp]].
  unfold search_inv. rewrite Hp.
  split; [exact Hok |]. split; [exact Hsp |].
  split; [exists [rootNode b pos], []; repeat split; repeat constructor |].
  split; [repeat constructor |].
  split; [intros H; exfalso; apply H; reflexivity | constructor].
Qed.

(** The paths of one search have one length, and each starts with a
    horizontal neighbour of the position the search starts at. *)
Lemma calculateLiquidPaths_paths (b : Liquid) (pos : BlockPos) (w : World)
    (paths : list liquidPath) :
  calculateLiquidPaths b pos w = Some paths ->
  exists L,
    Forall (fun p => len p = L /\
                     exists step rest, p = step :: rest /\ In step (horizontal pos))
           paths.
Proof.
  intros Hcalc.
  destruct (calculateLiquidPaths_total b pos w) as [paths' [Hloop Hcalc']].
  assert (paths' = paths) by congruence. subst paths'.
  destruct (loop_invariant _ _ (search_body b pos w (int8 (SpreadDecay b)))
              (fun st => exists k, search_inv (rootNode b pos) pos k st)
              (search_body_inv b pos w _ (rootNode b pos))
              _ _ _ (ex_intro _ 0%nat (search_start_inv b pos)) Hloop)
    as [[q ps] [[k Hinv] Hbreak]].
  assert (ps = paths) as ->.
  { unfold search_body in Hbreak. destruct (QLen q =? 0).
    - congruence.
    - destruct (Front q) as [[n q0] |]; [| discriminate].
      destruct (neighbours n _) as [[[cA cB] cC] cD].
      repeat match type of Hbreak with
             | match ?v with _ => _ end = _ => destruct v; try discriminate
             end. }
  destruct Hinv as [_ [_ [_ [_ [_ Hps]]]]]. cbn [fst snd] in Hps.
  exists (shortestPath q). eapply Forall_impl; [| exact Hps].
  intros p [n [Hd [Hh [Hp Hsp]]]]. split.
  - unfold len. rewrite Hp, chain_length. exact Hsp.
  - destruct (descends_first_step (rootNode b pos) pos n eq_refl Hd Hh)
      as [t [rest [Hch Hin]]].
    exists t, rest. split; [congruence |].
    destruct pos as [[x y] z]. exact Hin.
Qed.

(** ** Sequencing *)

Lemma bind_ext {A B : Type} (m : M A) (k1 k2 : A -> M B) (s : State) :
  (forall a s', k1 a s' = k2 a s') -> bind m k1 s = bind m k2 s.
Proof. intros H. unfold bind. destruct (m s); [apply H | reflexivity]. Qed.

Lemma bind_assoc {A B C : Type} (m : M A) (k : A -> M B) (h : B -> M C) (s : State) :
  bind (bind m k) h s = bind m (fun a => bind (k a) h) s.
Proof. unfold bind. destruct (m s); reflexivity. Qed.

Lemma extends_refl (P : Event -> Prop) (s : State) : extends P s s.
Proof. exists []. rewrite app_nil_r. auto. Qed.

Lemma extends_trans (P : Event -> Prop) (s1 s2 s3 : State) :
  extends P s1 s2 -> extends P s2 s3 -> extends P s1 s3.
Proof.
  intros [e1 [H1 F1]] [e2 [H2 F2]]. exists (e1 ++ e2).
  rewrite H2, H1, app_assoc. split; [reflexivity | apply Forall_app; auto].
Qed.

Lemma extends_impl (P Q : Event -> Prop) (s s' : State) :
  (forall e, P e -> Q e) -> extends P s s' -> extends Q s s'.
Proof.
  intros H [evs [Ht F]]. exists evs. split; [assumption |].
  eapply Forall_impl; eassumption.
Qed.

Lemma extends_issued (P : Event -> Prop) (s s' : State) :
  extends P s s' -> Forall P (issued s s').
Proof.
  intros [evs [Ht F]]. unfold issued. rewrite Ht.
  rewrite skipn_app, skipn_all, Nat.sub_diag. exact F.
Qed.

Lemma extends_bind {A B : Type} (P : Event -> Prop) (m : M A) (k : A -> M B) (s : State) :
  extends P s (final (m s)) ->
  (forall a s', extends P s' (final (k a s'))) ->
  extends P s (final (bind m k s)).
Proof.
  intros Hm Hk. unfold bind. destruct (m s) as [a s1 | msg s1]; cbn [final] in *.
  - eapply extends_trans; [exact Hm | apply Hk].
  - exact Hm.
Qed.

Lemma extends_forEach {A : Type} (P : Event -> Prop) (f : A -> M unit) (l : list A) :
  (forall x s, In x l -> extends P s (final (f x s))) ->
  forall s, extends P s (final (forEach l f s)).
Proof.
  induction l as [| x l IH]; intros Hf s; cbn [forEach].
  - apply extends_refl.
  - apply extends_bind.
    + apply Hf. left. reflexivity.
    + intros _ s'. apply IH. intros y s0 Hy. apply Hf. right. exact Hy.
Qed.

(** A loop panics with a message only if one of its iterations does. *)
Lemma forEach_panic {A : Type} (f : A -> M unit) (l : list A) (msg : string) :
  (forall x s m s', In x l -> f x s = Panic m s' -> m = msg) ->
  forall s m s', forEach l f s = Panic m s' -> m = msg.
Proof.
  induction l as [| x l IH]; intros Hf s m s' H; cbn [forEach] in H.
  - discriminate.
  - unfold bind in H. destruct (f x s) as [[] s1 | m1 s1] eqn:E.
    + eapply IH; [| exact H]. intros y s0 m0 s0' Hy. apply Hf. right. exact Hy.
    + injection H as <- <-. eapply Hf; [left; reflexivity | exact E].
Qed.

(** ** Flow application *)

Lemma depth_guard_spec (b : Liquid) (falling : bool) :
  (newDepth b falling <=? 0) && negb falling = true <-> no_depth_left b falling.
Proof.
  unfold no_depth_left, newDepth. destruct falling; cbn [negb].
  - rewrite andb_false_r. split; [discriminate | intros [H _]; discriminate].
  - rewrite andb_true_r, Z.leb_le. tauto.
Qed.

Lemma liquid_or_not (blk : Block) :
  (exists l, blk = LiquidBlock l) \/ asLiquid blk = None.
Proof. destruct blk; eauto. Qed.

Lemma no_depth_left_dec (b : Liquid) (falling : bool) :
  no_depth_left b falling \/ ~ no_depth_left b falling.
Proof.
  rewrite <- depth_guard_spec.
  destruct ((newDepth b falling <=? 0) && negb falling); [left | right]; congruence.
Qed.

Lemma flow_guard_open (b : Liquid) (falling : bool) :
  ~ no_depth_left b falling -> falling = true \/ 0 < newDepth b falling.
Proof.
  unfold no_depth_left, newDepth. destruct falling; [auto |]. intros H. right. lia.
Qed.

Section FlowProperties.

Variable Harden : Liquid -> BlockPos -> World -> BlockPos -> World * bool.

Lemma flowInto_no_depth (b : Liquid) (src pos : BlockPos) (falling : bool) (s : State) :
  no_depth_left b falling -> flowInto Harden b src pos falling s = Done false s.
Proof.
  intros H. apply depth_guard_spec in H. unfold flowInto. fold (newDepth b falling).
  rewrite H. reflexivity.
Qed.

Lemma flowInto_same_type (b : Liquid) (src pos : BlockPos) (falling : bool) (s : State)
    (l : Liquid) :
  ~ no_depth_left b falling ->
  blocks s pos = LiquidBlock l -> LiquidType l = LiquidType b ->
  flowInto Harden b src pos falling s =
  if (LiquidDepth l >=? newDepth b falling) || LiquidFalling l
  then Done true s
  else Done true (placed pos (LiquidBlock (WithDepth b (newDepth b falling) falling)) s).
Proof.
  intros Hg Hl Ht. rewrite <- depth_guard_spec in Hg. apply not_true_is_false in Hg.
  unfold flowInto. fold (newDepth b falling). rewrite Hg.
  unfold bind, getBlock. rewrite Hl. cbn [asLiquid]. rewrite Ht, String.eqb_refl.
  destruct ((LiquidDepth l >=? newDepth b falling) || LiquidFalling l); reflexivity.
Qed.

Lemma flowInto_foreign (b : Liquid) (src pos : BlockPos) (falling : bool) (s : State)
    (l : Liquid) :
  ~ no_depth_left b falling ->
  blocks s pos = LiquidBlock l -> LiquidType l <> LiquidType b ->
  flowInto Harden b src pos falling s = Done false (hardened Harden l pos src s).
Proof.
  intros Hg Hl Ht. rewrite <- depth_guard_spec in Hg. apply not_true_is_false in Hg.
  unfold flowInto. fold (newDepth b falling). rewrite Hg.
  unfold bind, getBlock. rewrite Hl. cbn [asLiquid].
  apply String.eqb_neq in Ht. rewrite Ht. reflexivity.
Qed.

Lemma flowInto_not_removable (b : Liquid) (src pos : BlockPos) (falling : bool) (s : State) :
  ~ no_depth_left b falling ->
  not_removable (blocks s pos) ->
  flowInto Harden b src pos falling s = Done false s.
Proof.
  intros Hg [Hl Hr]. rewrite <- depth_guard_spec in Hg. apply not_true_is_false in Hg.
  unfold flowInto. fold (newDepth b falling). rewrite Hg.
  unfold bind, getBlock. rewrite Hl, Hr. reflexivity.
Qed.

Lemma flowInto_removable (b : Liquid) (src pos : BlockPos) (falling : bool) (s : State)
    (hasDrops : bool) :
  ~ no_depth_left b falling ->
  asLiquid (blocks s pos) = None ->
  asLiquidRemovable (blocks s pos) = Some hasDrops ->
  flowInto Harden b src pos falling s =
  if hasDrops && negb (isItem (blocks s pos))
  then Panic item_panic (cleared pos s)
  else Done true (placed pos (LiquidBlock (WithDepth b (newDepth b falling) falling))
                         (cleared pos s)).
Proof.
  intros Hg Hl Hr. rewrite <- depth_guard_spec in Hg. apply not_true_is_false in Hg.
  unfold flowInto. fold (newDepth b falling). rewrite Hg.
  unfold bind, getBlock, cleared. rewrite Hl, Hr.
  destruct (isAir (blocks s pos)), hasDrops, (isItem (blocks s pos)); reflexivity.
Qed.

(** [flowInto] ends in one of the seven ways of [flow_outcome]. *)
Lemma flowInto_outcome (b : Liquid) (src pos : BlockPos) (falling : bool) (s : State) :
  flow_outcome Harden b src pos falling s (flowInto Harden b src pos falling s).
Proof.
  destruct (no_depth_left_dec b falling) as [Hg | Hg].
  { rewrite flowInto_no_depth by assumption. apply flow_no_depth. exact Hg. }
  destruct (liquid_or_not (blocks s pos)) as [[l Hl] | Hl].
  - destruct (String.eqb_spec (LiquidType l) (LiquidType b)) as [Ht | Ht].
    + rewrite (flowInto_same_type b src pos falling s l Hg Hl Ht).
      destruct ((LiquidDepth l >=? newDepth b falling) || LiquidFalling l) eqn:E.
      * eapply flow_saturated; eassumption.
      * eapply flow_raised; eassumption.
    + rewrite (flowInto_foreign b src pos falling s l Hg Hl Ht).
      apply flow_hardened; assumption.
  - destruct (asLiquidRemovable (blocks s pos)) as [hasDrops |] eqn:Hr.
    + rewrite (flowInto_removable b src pos falling s hasDrops Hg Hl Hr).
      destruct (hasDrops && negb (isItem (blocks s pos))) eqn:E.
      * apply andb_true_iff in E. destruct E as [-> E].
        apply negb_true_iff in E. apply flow_panicked; [assumption .. |].
        split; assumption.
      * eapply flow_replaced; eassumption.
    + rewrite flowInto_not_removable by (assumption || split; assumption).
      apply flow_blocked; [assumption | split; assumption].
Qed.

Lemma cleared_extends (P : Event -> Prop) (pos : BlockPos) (s : State) :
  P (EvBreak pos) -> extends P s (cleared pos s).
Proof.
  intros H. unfold cleared. destruct (isAir (blocks s pos)).
  - apply extends_refl.
  - exists [EvBreak pos]. split; [reflexivity | constructor; [exact H | constructor]].
Qed.

Lemma placed_extends (P : Event -> Prop) (pos : BlockPos) (blk : Block) (s : State) :
  P (EvPlace pos blk) -> extends P s (placed pos blk s).
Proof.
  intros H. exists [EvPlace pos blk]. split; [reflexivity | constructor; [exact H | constructor]].
Qed.

(** The events of a call of [flowInto]. *)
Lemma flowInto_extends (b : Liquid) (src pos : BlockPos) (falling : bool) (s : State) :
  extends (flow_event b src pos falling) s (final (flowInto Harden b src pos falling s)).
Proof.
  assert (Hbreak : flow_event b src pos falling (EvBreak pos)) by (left; reflexivity).
  assert (Hplace : ~ no_depth_left b falling ->
                   flow_event b src pos falling
                     (EvPlace pos (LiquidBlock (WithDepth b (newDepth b falling) falling)))).
  { intros Hg. right. left. split; [reflexivity | apply flow_guard_open; exact Hg]. }
  destruct (flowInto_outcome b src pos falling s)
    as [Hg | l Hg _ _ _ | l Hg _ _ _ | l Hg _ _ | Hg _ | Hg _ _ | hasDrops Hg _ _ _];
    cbn [final].
  - apply extends_refl.
  - apply extends_refl.
  - apply placed_extends. auto.
  - exists [EvHarden l pos src]. split; [reflexivity |].
    constructor; [| constructor]. right. right. eauto.
  - apply extends_refl.
  - apply cleared_extends. exact Hbreak.
  - eapply extends_trans; [apply cleared_extends; exact Hbreak |].
    apply placed_extends. auto.
Qed.

(** [flowInto] panics with one message only. *)
Lemma flowInto_panic_msg (b : Liquid) (src pos : BlockPos) (falling : bool)
    (s s' : State) (m : string) :
  flowInto Harden b src pos falling s = Panic m s' -> m = item_panic.
Proof.
  intros H. pose proof (flowInto_outcome b src pos falling s) as R.
  rewrite H in R. inversion R. reflexivity.
Qed.

(** A call of [flowInto] on another position leaves the block at [q] as
    it is, when [Harden] does. *)
Lemma flowInto_keeps (b : Liquid) (src pos q : BlockPos) (falling : bool) (s : State) :
  pos <> q ->
  (forall l w, fst (Harden l pos w src) q = w q) ->
  blocks (final (flowInto Harden b src pos falling s)) q = blocks s q.
Proof.
  intros Hq Hh.
  assert (Hc : blocks (cleared pos s) q = blocks s q).
  { unfold cleared. destruct (isAir (blocks s pos)); [reflexivity |].
    cbn [blocks]. apply setBlock_other. congruence. }
  destruct (flowInto_outcome b src pos falling s); cbn [final placed hardened blocks];
    try reflexivity.
  - apply setBlock_other. congruence.
  - apply Hh.
  - exact Hc.
  - rewrite setBlock_other by congruence. exact Hc.
Qed.

(** ** The tick engine *)

Lemma forEach_filter {A : Type} (keep : A -> bool) (f : A -> M unit) (l : list A) :
  forall s,
    forEach l (fun x => if keep x then f x else ret tt) s = forEach (filter keep l) f s.
Proof.
  induction l as [| x l IH]; intros s; cbn [forEach filter].
  - reflexivity.
  - destruct (keep x); cbn [forEach].
    + apply bind_ext. intros _ s'. apply IH.
    + unfold bind at 1. cbn [ret]. apply IH.
Qed.

Lemma spreadOutwards_flowAll (b : Liquid) (pos : BlockPos) (s : State) :
  spreadOutwards Harden b pos s = flowAll Harden b pos (horizontal pos) s.
Proof.
  unfold spreadOutwards, flowAll. rewrite horizontal_filter.
  apply (forEach_filter (fun n => pY n =? pY pos)
           (fun n => flowInto Harden b pos n false ;;; ret tt)).
Qed.

Lemma min_len_tied (L : Z) (paths : list liquidPath) :
  paths <> [] -> Forall (fun p => len p = L) paths -> min_len paths = L.
Proof.
  destruct paths as [| p ps]; [congruence |]. intros _ H.
  apply Forall_cons_iff in H. destruct H as [Hp Hps]. unfold min_len. rewrite Hp.
  induction Hps as [| q ps Hq Hps IH]; cbn [fold_left].
  - reflexivity.
  - rewrite Hq, Z.min_id. exact IH.
Qed.

Lemma filter_tied (L : Z) (paths : list liquidPath) :
  Forall (fun p => len p = L) paths -> filter (fun p => len p <=? L) paths = paths.
Proof.
  induction 1 as [| p ps Hp Hps IH]; cbn [filter]; [reflexivity |].
  rewrite Hp, Z.leb_refl, IH. reflexivity.
Qed.

(** The loop over the paths flows into the first step of each, when the
    paths are tied and none is empty. *)
Lemma forEach_paths_flowAll (b : Liquid) (pos : BlockPos) (L : Z)
    (paths : list liquidPath) :
  Forall (fun p => len p = L /\ exists step rest, p = step :: rest) paths ->
  forall s,
    forEach paths
      (fun path =>
         if Z.of_nat (length path) <=? L then
           match path with
           | [] => panic index_panic
           | step :: _ => flowInto Harden b pos step false ;;; ret tt
           end
         else ret tt) s =
    flowAll Harden b pos (first_steps paths) s.
Proof.
  induction 1 as [| p ps [Hp [t [rest Ht]]] Hps IH]; intros s.
  - reflexivity.
  - cbn [forEach first_steps flat_map]. fold (first_steps ps).
    unfold len in Hp. rewrite Hp, Z.leb_refl. subst p. cbn [app].
    unfold flowAll. cbn [forEach]. apply bind_ext. intros _ s'. apply IH.
Qed.

Lemma first_steps_in (paths : list liquidPath) (t : BlockPos) :
  In t (first_steps paths) -> exists rest, In (t :: rest) paths.
Proof.
  unfold first_steps. rewrite in_flat_map. intros [p [Hp Ht]].
  destruct p as [| t' rest]; [contradiction |].
  destruct Ht as [-> | []]. eauto.
Qed.

(** The lateral spread flows into neighbours at the sides only. *)
Lemma lateral_targets_horizontal (b : Liquid) (cfb : bool) (pos : BlockPos) (w : World)
    (t : BlockPos) :
  In t (lateral_targets b cfb pos w) -> In t (horizontal pos).
Proof.
  unfold lateral_targets. destruct (source b || negb cfb); [| contradiction].
  destruct (calculateLiquidPaths b pos w) as [paths |] eqn:E; [| contradiction].
  destruct paths as [| p ps]; [auto |].
  intros Ht. apply first_steps_in in Ht. destruct Ht as [rest Hin].
  apply filter_In in Hin. destruct Hin as [Hin _].
  destruct (calculateLiquidPaths_paths b pos w _ E) as [L HL].
  rewrite Forall_forall in HL. destruct (HL _ Hin) as [_ [t' [rest' [Heq Hh]]]].
  injection Heq as -> _. exact Hh.
Qed.

(** The lateral spread of the code flows into the targets of the
    specification. *)
Lemma lateral_spread_targets (b : Liquid) (cfb : bool) (pos : BlockPos) (s : State) :
  lateral_spread Harden b cfb pos s =
  if LiquidDepth b <=? SpreadDecay b then Done tt s
  else flowAll Harden b pos (lateral_targets b cfb pos (blocks s)) s.
Proof.
  unfold lateral_spread, lateral_targets.
  destruct (LiquidDepth b <=? SpreadDecay b); [reflexivity |].
  destruct (source b || negb cfb); [| reflexivity].
  unfold bind at 1. unfold getWorld.
  destruct (calculateLiquidPaths_total b pos (blocks s)) as [paths [_ E]].
  rewrite E. destruct (calculateLiquidPaths_paths b pos (blocks s) _ E) as [L HL].
  destruct paths as [| p ps]; [apply spreadOutwards_flowAll |].
  assert (Htied : Forall (fun q => len q = L) (p :: ps)).
  { eapply Forall_impl; [| exact HL]. intros q [Hq _]. exact Hq. }
  rewrite (min_len_tied L (p :: ps)) by (discriminate || assumption).
  rewrite (filter_tied L _ Htied).
  pose proof (proj1 (proj1 (Forall_cons_iff _ _ _) Htied)) as Hp. unfold len in Hp.
  rewrite Hp. apply forEach_paths_flowAll.
  eapply Forall_impl; [| exact HL]. intros q [Hq [t [rest [Ht _]]]]. eauto.
Qed.

(** On a sustained liquid the tick is the falling logic followed by the
    lateral spread. *)
Lemma tickLiquid_sustained (b : Liquid) (pos : BlockPos) (s : State) :
  sustained b pos (blocks s) = true ->
  tickLiquid Harden b pos s =
  (b' <- falling_logic Harden b pos ;;
   lateral_spread Harden b' (canFlowInto b (blocks s) (below pos) false) pos) s.
Proof.
  intros Hs. unfold sustained in Hs.
  unfold tickLiquid, falling_logic, lateral_spread.
  rewrite bind_assoc. unfold bind at 1. unfold bind at 2. unfold getWorld.
  replace (negb (source b) && negb (sourceAround b pos (blocks s))) with false.
  - reflexivity.
  - symmetry. rewrite <- negb_orb, Hs. reflexivity.
Qed.

(** On a liquid that is not sustained the tick places one block. *)
Lemma tickLiquid_decay (b : Liquid) (pos : BlockPos) (s : State) :
  sustained b pos (blocks s) = false ->
  tickLiquid Harden b pos s =
  Done tt
    (placed pos
       (if int_sub (LiquidDepth b) 4 <=? 0 then Air
        else LiquidBlock
               (WithDepth b (int_sub (LiquidDepth b) (int_mul 2 (SpreadDecay b))) false))
       s).
Proof.
  intros Hs. unfold sustained in Hs.
  unfold tickLiquid. unfold bind at 1. unfold getWorld.
  replace (negb (source b) && negb (sourceAround b pos (blocks s))) with true.
  - destruct (int_sub (LiquidDepth b) 4 <=? 0); reflexivity.
  - symmetry. rewrite <- negb_orb, Hs. reflexivity.
Qed.

(** The falling logic is the push below, and leaves the liquid as read
    unless it is falling and cannot flow below. *)
Lemma falling_logic_push_below (b : Liquid) (pos : BlockPos) (s : State) :
  falling_logic Harden b pos s =
  (push_below Harden b pos ;;;
   ret (after_falling_logic b (canFlowInto b (blocks s) (below pos) false))) s.
Proof.
  unfold falling_logic, push_below, after_falling_logic.
  rewrite bind_assoc. unfold bind at 1. unfold bind at 2. unfold getWorld.
  destruct (canFlowInto b (blocks s) (below pos) false), (LiquidFalling b);
    cbn [andb negb]; try reflexivity.
  - rewrite bind_assoc. apply bind_ext. reflexivity.
  - rewrite bind_assoc. apply bind_ext. reflexivity.
Qed.

(** The shape of a tick on a sustained liquid: the push below, then the
    flows into the lateral targets, with the liquid the falling logic
    leaves. *)
Lemma tickLiquid_shape (b : Liquid) (pos : BlockPos) (s : State) :
  sustained b pos (blocks s) = true ->
  tickLiquid Harden b pos s =
  (push_below Harden b pos ;;;
   lateral_spread Harden
     (after_falling_logic b (canFlowInto b (blocks s) (below pos) false))
     (canFlowInto b (blocks s) (below pos) false) pos) s.
Proof.
  intros Hs. rewrite (tickLiquid_sustained b pos s Hs).
  unfold bind at 1. rewrite falling_logic_push_below.
  unfold bind. destruct (push_below Harden b pos s); reflexivity.
Qed.

Lemma push_below_extends (b : Liquid) (pos : BlockPos) (s : State) :
  extends (tick_event b pos) s (final (push_below Harden b pos s)).
Proof.
  unfold push_below. unfold bind at 1. unfold getWorld.
  destruct (canFlowInto b (blocks s) (below pos) false).
  - apply extends_bind; [| intros; apply extends_refl].
    eapply extends_impl; [| apply flowInto_extends]. intros e He. left. exact He.
  - apply extends_refl.
Qed.

Lemma lateral_spread_extends (b b' : Liquid) (cfb : bool) (pos : BlockPos) (s : State) :
  b' = b \/ b' = WithDepth b 8 true ->
  extends (tick_event b pos) s (final (lateral_spread Harden b' cfb pos s)).
Proof.
  intros Hb. rewrite lateral_spread_targets.
  destruct (LiquidDepth b' <=? SpreadDecay b'); [apply extends_refl |].
  generalize (lateral_targets_horizontal b' cfb pos (blocks s)).
  generalize (lateral_targets b' cfb pos (blocks s)). intros targets Hin.
  unfold flowAll. apply extends_forEach. intros t s0 Ht.
  apply extends_bind; [| intros; apply extends_refl].
  eapply extends_impl; [| apply flowInto_extends].
  intros e He. right. exists b', t. auto.
Qed.

Lemma after_falling_logic_cases (b : Liquid) (cfb : bool) :
  after_falling_logic b cfb = b \/ after_falling_logic b cfb = WithDepth b 8 true.
Proof. unfold after_falling_logic. destruct (LiquidFalling b && negb cfb); auto. Qed.

(** The events of a tick on a sustained liquid. *)
Lemma tickLiquid_sustained_extends (b : Liquid) (pos : BlockPos) (s : State) :
  sustained b pos (blocks s) = true ->
  extends (tick_event b pos) s (final (tickLiquid Harden b pos s)).
Proof.
  intros Hs. rewrite (tickLiquid_shape b pos s Hs).
  apply extends_bind; [apply push_below_extends |].
  intros _ s'. apply lateral_spread_extends. apply after_falling_logic_cases.
Qed.

(** A tick panics with the message of [flowInto] only: the search and the
    indexing of its paths do not panic. *)
Lemma tickLiquid_panic_msg (b : Liquid) (pos : BlockPos) (s s' : State) (m : string) :
  tickLiquid Harden b pos s = Panic m s' -> m = item_panic.
Proof.
  destruct (sustained b pos (blocks s)) eqn:Hs.
  - rewrite (tickLiquid_shape b pos s Hs). unfold bind.
    destruct (push_below Harden b pos s) as [[] s1 | m1 s1] eqn:E.
    + rewrite lateral_spread_targets.
      destruct (LiquidDepth _ <=? SpreadDecay _); [discriminate |].
      unfold flowAll. apply forEach_panic. intros t s0 m0 s0' _ H.
      unfold bind in H.
      destruct (flowInto Harden _ pos t false s0) as [r s2 | m2 s2] eqn:E2;
        [discriminate |].
      injection H as <- _. eapply flowInto_panic_msg. exact E2.
    + intros H. injection H as <- _.
      unfold push_below in E. unfold bind at 1 in E. unfold getWorld in E.
      destruct (canFlowInto b (blocks s) (below pos) false); [| discriminate].
      unfold bind in E.
      destruct (flowInto Harden _ pos (below pos) true s) as [r s2 | m2 s2] eqn:E2;
        [discriminate |].
      injection E as <- _. eapply flowInto_panic_msg. exact E2.
  - rewrite (tickLiquid_decay b pos s Hs). discriminate.
Qed.

Lemma flowAll_keeps (b : Liquid) (src q : BlockPos) (targets : list BlockPos) :
  (forall t, In t targets -> t <> q) ->
  (forall l p w, p <> q -> fst (Harden l p w src) q = w q) ->
  forall s, blocks (final (flowAll Harden b src targets s)) q = blocks s q.
Proof.
  intros Ht Hh. unfold flowAll.
  induction targets as [| t targets IH]; intros s; cbn [forEach].
  - reflexivity.
  - assert (Hk : blocks (final (flowInto Harden b src t false s)) q = blocks s q).
    { apply flowInto_keeps; [apply Ht; left; reflexivity |].
      intros l w. apply Hh. apply Ht. left. reflexivity. }
    unfold bind at 1. unfold bind at 1.
    destruct (flowInto Harden b src t false s) as [r s1 | m s1]; cbn [final ret] in *.
    + rewrite IH by (intros t' Ht'; apply Ht; right; exact Ht'). exact Hk.
    + exact Hk.
Qed.

(** A tick on a sustained liquid leaves the block at the ticked position
    as it is, when [Harden] does. *)
Lemma tickLiquid_sustained_keeps (b : Liquid) (pos : BlockPos) (s : State) :
  sustained b pos (blocks s) = true ->
  (forall l p w src, p <> pos -> fst (Harden l p w src) pos = w pos) ->
  blocks (final (tickLiquid Harden b pos s)) pos = blocks s pos.
Proof.
  intros Hs Hh. rewrite (tickLiquid_shape b pos s Hs).
  assert (Hpush : blocks (final (push_below Harden b pos s)) pos = blocks s pos).
  { unfold push_below. unfold bind at 1. unfold getWorld.
    destruct (canFlowInto b (blocks s) (below pos) false); [| reflexivity].
    pose proof (flowInto_keeps (WithDepth b 8 true) pos (below pos) pos true s
                  (below_not_self pos)
                  (fun l w => Hh l (below pos) w pos (below_not_self pos))) as Hk.
    unfold bind.
    destruct (flowInto Harden (WithDepth b 8 true) pos (below pos) true s);
      cbn [final ret] in *; exact Hk. }
  unfold bind. destruct (push_below Harden b pos s) as [[] s1 | m s1];
    cbn [final] in *; [| exact Hpush].
  rewrite lateral_spread_targets.
  destruct (LiquidDepth _ <=? SpreadDecay _); [exact Hpush |].
  rewrite flowAll_keeps; [exact Hpush | | intros l p w; apply Hh].
  intros t Ht. apply horizontal_not_self.
  eapply lateral_targets_horizontal. exact Ht.
Qed.

End FlowProperties.

(** ** The sustain check *)

Lemma sourceAround_visit_or (b : Liquid) (pos : BlockPos) (w : World)
    (acc : bool) (n : BlockPos) :
  sourceAround_visit b pos w acc n =
  acc || (negb (pY n =? int_sub (pY pos) 1)
          && same_type_at b w n
               (fun side => (pY n =? int_add (pY pos) 1) || feedsb b side)).
Proof.
  unfold sourceAround_visit, same_type_at, feedsb.
  destruct (pY n =? int_sub (pY pos) 1); cbn [negb andb].
  - rewrite orb_false_r. reflexivity.
  - destruct (asLiquid (w n)) as [side |]; [| rewrite orb_false_r; reflexivity].
    destruct (String.eqb (LiquidType side) (LiquidType b)); cbn [negb andb].
    + rewrite <- orb_assoc.
      destruct ((pY n =? int_add (pY pos) 1)
                || (source side || (LiquidDepth side >? LiquidDepth b))), acc; reflexivity.
    + rewrite orb_false_r. reflexivity.
Qed.

(** [sourceAround] looks at the liquid above and at the liquids at the
    sides. *)
Lemma sourceAround_closed (b : Liquid) (pos : BlockPos) (w : World) :
  sourceAround b pos w =
  same_type_at b w (above pos) (fun _ => true)
  || existsb (fun p => same_type_at b w p (feedsb b)) (horizontal pos).
Proof.
  unfold sourceAround, Neighbours, horizontal, above.
  cbn [fold_left existsb]. rewrite !sourceAround_visit_or. cbn [pY fst snd].
  rewrite !Z.eqb_refl.
  destruct (Z.eqb_spec (pY pos) (int_sub (pY pos) 1)) as [E | _];
    [exfalso; symmetry in E; exact (int_sub_1_neq _ E) |].
  destruct (Z.eqb_spec (pY pos) (int_add (pY pos) 1)) as [E | _];
    [exfalso; symmetry in E; exact (int_add_1_neq _ E) |].
  destruct (Z.eqb_spec (int_add (pY pos) 1) (int_sub (pY pos) 1)) as [E | _];
    [exfalso; exact (int_add_sub_1_neq _ E) |].
  cbn [negb andb orb].
  unfold same_type_at.
  repeat match goal with
         | |- context [asLiquid ?blk] => destruct (asLiquid blk)
         end;
    repeat match goal with
           | |- context [String.eqb ?a ?c] => destruct (String.eqb a c)
           end;
    cbn [andb orb];
    repeat match goal with
           | |- context [feedsb ?a ?c] => destruct (feedsb a c)
           end;
    reflexivity.
Qed.

Lemma same_type_at_spec (b : Liquid) (w : World) (p : BlockPos) (test : Liquid -> bool) :
  same_type_at b w p test = true <->
  exists side, same_type_liquid_at b w p side /\ test side = true.
Proof.
  unfold same_type_at, same_type_liquid_at. split.
  - destruct (w p) as [| side |]; cbn [asLiquid]; try discriminate.
    rewrite andb_true_iff, String.eqb_eq. intros [Ht Hs]. eauto.
  - intros [side [[Hw Ht] Hs]]. rewrite Hw. cbn [asLiquid].
    rewrite andb_true_iff, String.eqb_eq. auto.
Qed.

Lemma feedsb_spec (b side : Liquid) : feedsb b side = true <-> feeds b side.
Proof.
  unfold feedsb, feeds. rewrite orb_true_iff, Z.gtb_ltb, Z.ltb_lt. tauto.
Qed.

Lemma sustained_rule (b : Liquid) (pos : BlockPos) (w : World) :
  sustained b pos w = true <-> sustain_rule b pos w.
Proof.
  unfold sustained, sustain_rule.
  rewrite sourceAround_closed, !orb_true_iff, same_type_at_spec, existsb_exists.
  split.
  - intros [H | [[side [H _]] | [p [Hp H]]]]; [auto | eauto |].
    apply same_type_at_spec in H. destruct H as [side [H Hf]].
    apply feedsb_spec in Hf. right. right. eauto.
  - intros [H | [[side H] | [p [side [Hp [H Hf]]]]]]; [auto | eauto |].
    right. right. exists p. split; [assumption |].
    apply same_type_at_spec. exists side. split; [assumption |].
    apply feedsb_spec. assumption.
Qed.

Lemma same_type_at_setBlock (b : Liquid) (w : World) (p q : BlockPos) (blk : Block)
    (test : Liquid -> bool) :
  q <> p -> same_type_at b (setBlock w p blk) q test = same_type_at b w q test.
Proof. intros H. unfold same_type_at. rewrite setBlock_other by assumption. reflexivity. Qed.

(** What is at the y below the position does not enter the sustain
    check. *)
Lemma sustained_ignores_below (b : Liquid) (pos p : BlockPos) (w : World) (blk : Block) :
  pY p = int_sub (pY pos) 1 ->
  sustained b pos (setBlock w p blk) = sustained b pos w.
Proof.
  intros Hp. unfold sustained. rewrite !sourceAround_closed.
  assert (Hup : above pos <> p).
  { intros E. subst p. unfold above in Hp. cbn [pY fst snd] in Hp.
    exact (int_add_sub_1_neq _ Hp). }
  assert (Hside : forall q, In q (horizontal pos) -> q <> p).
  { intros q Hq E. subst q. unfold horizontal in Hq. cbn [In] in Hq.
    destruct Hq as [H | [H | [H | [H | []]]]]; subst p; cbn [pY fst snd] in Hp;
      symmetry in Hp; exact (int_sub_1_neq _ Hp). }
  rewrite same_type_at_setBlock by assumption. f_equal. f_equal.
  unfold horizontal in *. cbn [existsb].
  rewrite !same_type_at_setBlock by (apply Hside; cbn [In]; auto 6).
  reflexivity.
Qed.

(** ** The flows and their effect *)

Lemma flow_then
    (Harden : Liquid -> BlockPos -> World -> BlockPos -> World * bool)
    (b : Liquid) (src t : BlockPos) (falling : bool) (k : M unit) (s : State) :
  (flowInto Harden b src t falling ;;; k) s =
  if snd (flow_effect Harden b src t falling s)
  then Panic item_panic (fst (flow_effect Harden b src t falling s))
  else k (fst (flow_effect Harden b src t falling s)).
Proof.
  unfold flowInto, flow_effect, newDepth.
  set (nd := if falling then LiquidDepth b else int_sub (LiquidDepth b) (SpreadDecay b)).
  rewrite (andb_comm (negb falling)).
  destruct ((nd <=? 0) && negb falling); [reflexivity |].
  unfold bind, getBlock, PlaceBlock, BreakBlock, callHarden, hardened, placed, cleared, ret,
    panic.
  destruct (blocks s t) as [| l | name c] eqn:Hb; cbn [asLiquid isAir].
  - cbn. reflexivity.
  - rewrite Z.geb_leb.
    destruct (String.eqb (LiquidType l) (LiquidType b)); [| reflexivity].
    destruct ((nd <=? LiquidDepth l) || LiquidFalling l); reflexivity.
  - destruct (asLiquidRemovable (OtherBlock name c)) as [hasDrops |]; [| reflexivity].
    destruct hasDrops; cbn [andb]; [| reflexivity].
    destruct (isItem (OtherBlock name c)); reflexivity.
Qed.

Lemma flowAll_effect
    (Harden : Liquid -> BlockPos -> World -> BlockPos -> World * bool)
    (b : Liquid) (src : BlockPos) (targets : list BlockPos) :
  forall s, flowAll Harden b src targets s = ended (spread_effect Harden b src targets s).
Proof.
  unfold flowAll. induction targets as [| t rest IH]; intros s; cbn [forEach spread_effect].
  - reflexivity.
  - rewrite bind_assoc, flow_then.
    destruct (flow_effect Harden b src t false s) as [s' p] eqn:E. cbn [fst snd].
    destruct p; [reflexivity |].
    unfold bind at 1, ret at 1. apply IH.
Qed.

Lemma push_below_effect
    (Harden : Liquid -> BlockPos -> World -> BlockPos -> World * bool)
    (b : Liquid) (pos : BlockPos) (k : M unit) (s : State) :
  (push_below Harden b pos ;;; k) s =
  if snd (fall_effect Harden b pos s) then Panic item_panic (fst (fall_effect Harden b pos s))
  else k (fst (fall_effect Harden b pos s)).
Proof.
  unfold push_below, fall_effect. rewrite bind_assoc. unfold bind at 1. unfold getWorld.
  destruct (canFlowInto b (blocks s) (below pos) false).
  - rewrite bind_assoc, flow_then.
    destruct (snd (flow_effect Harden (WithDepth b 8 true) pos (below pos) true s));
      reflexivity.
  - reflexivity.
Qed.

(** The tick of a sustained liquid, by the effect of its flows. *)
Lemma tickLiquid_effect
    (Harden : Liquid -> BlockPos -> World -> BlockPos -> World * bool)
    (b : Liquid) (pos : BlockPos) (s : State) :
  sustained b pos (blocks s) = true ->
  let cfb := canFlowInto b (blocks s) (below pos) false in
  let b' := after_falling_logic b cfb in
  let fall := fall_effect Harden b pos s in
  tickLiquid Harden b pos s =
  if snd fall then Panic item_panic (fst fall)
  else if LiquidDepth b' <=? SpreadDecay b' then Done tt (fst fall)
       else ended (spread_effect Harden b' pos
                     (lateral_targets b' cfb pos (blocks (fst fall))) (fst fall)).
Proof.
  intros Hs cfb b' fall. rewrite (tickLiquid_shape Harden b pos s Hs).
  fold cfb. fold b'. rewrite push_below_effect. fold fall.
  destruct (snd fall); [reflexivity |].
  rewrite lateral_spread_targets.
  destruct (LiquidDepth b' <=? SpreadDecay b'); [reflexivity |].
  apply flowAll_effect.
Qed.

Lemma lateral_targets_spread (b : Liquid) (cfb : bool) (pos : BlockPos) (w : World)
    (paths : list liquidPath) :
  source b || negb cfb = true ->
  calculateLiquidPaths b pos w = Some paths ->
  lateral_targets b cfb pos w = spread_targets pos paths.
Proof.
  intros H E. unfold lateral_targets, spread_targets. rewrite H, E.
  destruct paths; reflexivity.
Qed.

(** The events of the flows are at the targets. *)
Lemma flow_effect_extends
    (Harden : Liquid -> BlockPos -> World -> BlockPos -> World * bool)
    (P : Event -> Prop) (b : Liquid) (src t : BlockPos) (falling : bool) (s : State) :
  (forall e, mutated_at e = None \/ mutated_at e = Some t -> P e) ->
  extends P s (fst (flow_effect Harden b src t falling s)).
Proof.
  intros HP. unfold flow_effect.
  destruct (negb falling && (newDepth b falling <=? 0)); [apply extends_refl |].
  assert (Hnew : forall blk s0, extends P s0 (placed t blk (cleared t s0))).
  { intros blk s0. eapply extends_trans.
    - apply cleared_extends. apply HP. right. reflexivity.
    - apply placed_extends. apply HP. right. reflexivity. }
  destruct (blocks s t) as [| l | name c]; cbn [fst].
  - destruct (asLiquidRemovable Air) as [hasDrops |]; [| apply extends_refl].
    destruct (hasDrops && negb (isItem Air)); cbn [fst]; [| apply Hnew].
    apply cleared_extends. apply HP. right. reflexivity.
  - destruct (String.eqb (LiquidType l) (LiquidType b)).
    + destruct ((newDepth b falling <=? LiquidDepth l) || LiquidFalling l); cbn [fst].
      * apply extends_refl.
      * apply placed_extends. apply HP. right. reflexivity.
    + cbn [fst]. exists [EvHarden l t src]. split; [reflexivity |].
      constructor; [| constructor]. apply HP. left. reflexivity.
  - destruct (asLiquidRemovable (OtherBlock name c)) as [hasDrops |]; [| apply extends_refl].
    destruct (hasDrops && negb (isItem (OtherBlock name c))); cbn [fst]; [| apply Hnew].
    apply cleared_extends. apply HP. right. reflexivity.
Qed.

Lemma spread_effect_extends
    (Harden : Liquid -> BlockPos -> World -> BlockPos -> World * bool)
    (b : Liquid) (src : BlockPos) (all targets : list BlockPos) :
  (forall t, In t targets -> In t all) ->
  forall s,
    extends (fun e => forall p, mutated_at e = Some p -> In p all) s
            (fst (spread_effect Harden b src targets s)).
Proof.
  induction targets as [| t rest IH]; intros Hall s; cbn [spread_effect].
  - apply extends_refl.
  - assert (Ht : extends (fun e => forall p, mutated_at e = Some p -> In p all) s
                         (fst (flow_effect Harden b src t false s))).
    { apply flow_effect_extends. intros e [He | He] p Hp; rewrite He in Hp.
      - discriminate.
      - injection Hp as <-. apply Hall. left. reflexivity. }
    destruct (snd (flow_effect Harden b src t false s)); [exact Ht |].
    eapply extends_trans; [exact Ht |].
    apply IH. intros t' Ht'. apply Hall. right. exact Ht'.
Qed.

(** The blocks that the flows leave, when no target hardens or panics. *)
Lemma cleared_blocks (t p : BlockPos) (s : State) :
  p <> t -> blocks (cleared t s) p = blocks s p.
Proof.
  intros Hp. unfold cleared. destruct (isAir (blocks s t)); [reflexivity |].
  apply setBlock_other. exact Hp.
Qed.

Lemma flow_effect_blocks
    (Harden : Liquid -> BlockPos -> World -> BlockPos -> World * bool)
    (b : Liquid) (src t : BlockPos) (s : State) :
  open_to b (blocks s t) ->
  snd (flow_effect Harden b src t false s) = false /\
  forall p, blocks (fst (flow_effect Harden b src t false s)) p =
            if BlockPos_eqb p t then flowed b (blocks s t) else blocks s p.
Proof.
  intros [Hforeign Hitem].
  assert (Hsame : forall p, blocks s p = if BlockPos_eqb p t then blocks s t else blocks s p).
  { intros p. destruct (BlockPos_eqb p t) eqn:E; [| reflexivity].
    apply BlockPos_eqb_eq in E. subst p. reflexivity. }
  assert (Hnew : forall blk p,
            blocks (placed t blk (cleared t s)) p =
            if BlockPos_eqb p t then blk else blocks s p).
  { intros blk p. cbn [placed blocks]. unfold setBlock at 1.
    destruct (BlockPos_eqb p t) eqn:E; [reflexivity |].
    apply cleared_blocks. apply BlockPos_eqb_neq. exact E. }
  unfold flow_effect, flowed. cbn [negb andb].
  destruct (newDepth b false <=? 0); [split; [reflexivity | exact Hsame] |].
  destruct (blocks s t) as [| l | name c] eqn:Hb.
  - cbn [asLiquidRemovable capsOf removable isItem item andb negb fst snd].
    split; [reflexivity | apply Hnew].
  - destruct (String.eqb_spec (LiquidType l) (LiquidType b)) as [Et | Et].
    + cbn [andb].
      destruct ((newDepth b false <=? LiquidDepth l) || LiquidFalling l); cbn [negb fst snd].
      * split; [reflexivity | exact Hsame].
      * split; [reflexivity |]. intros p. reflexivity.
    + exfalso. apply Hforeign. exists l. split; [reflexivity | exact Et].
  - destruct (asLiquidRemovable (OtherBlock name c)) as [hasDrops |] eqn:Hr.
    + destruct (hasDrops && negb (isItem (OtherBlock name c))) eqn:Hd; cbn [fst snd].
      * exfalso. apply Hitem. split; [reflexivity |].
        apply andb_true_iff in Hd. destruct Hd as [-> Hi].
        apply negb_true_iff in Hi. split; assumption.
      * split; [reflexivity | apply Hnew].
    + split; [reflexivity | exact Hsame].
Qed.

Lemma flowed_cases (b : Liquid) (blk : Block) :
  flowed b blk = blk \/
  (0 < newDepth b false /\
   flowed b blk = LiquidBlock (WithDepth b (newDepth b false) false)).
Proof.
  unfold flowed. destruct (Z.leb_spec (newDepth b false) 0) as [H | H]; [auto |].
  destruct blk as [| l | name c].
  - destruct (asLiquidRemovable Air); auto.
  - destruct (String.eqb (LiquidType l) (LiquidType b)
              && negb ((newDepth b false <=? LiquidDepth l) || LiquidFalling l)); auto.
  - destruct (asLiquidRemovable (OtherBlock name c)); auto.
Qed.

Lemma flowed_new (b : Liquid) :
  flowed b (LiquidBlock (WithDepth b (newDepth b false) false)) =
  LiquidBlock (WithDepth b (newDepth b false) false).
Proof.
  unfold flowed at 1. destruct (newDepth b false <=? 0); [reflexivity |].
  cbn [WithDepth LiquidType LiquidDepth LiquidFalling].
  rewrite Z.leb_refl. cbn [orb negb]. rewrite andb_false_r. reflexivity.
Qed.

Lemma flowed_idem (b : Liquid) (blk : Block) : flowed b (flowed b blk) = flowed b blk.
Proof.
  destruct (flowed_cases b blk) as [E | [_ E]]; rewrite E.
  - exact E.
  - apply flowed_new.
Qed.

Lemma flowed_open (b : Liquid) (blk : Block) : open_to b blk -> open_to b (flowed b blk).
Proof.
  intros Ho. destruct (flowed_cases b blk) as [E | [_ E]]; rewrite E; [exact Ho |].
  split.
  - intros [l [Hl Ht]]. injection Hl as <-. apply Ht. reflexivity.
  - intros [Hl _]. discriminate.
Qed.

Lemma spread_effect_blocks
    (Harden : Liquid -> BlockPos -> World -> BlockPos -> World * bool)
    (b : Liquid) (src : BlockPos) (targets : list BlockPos) :
  forall s,
    (forall t, In t targets -> open_to b (blocks s t)) ->
    snd (spread_effect Harden b src targets s) = false /\
    forall p, blocks (fst (spread_effect Harden b src targets s)) p =
              if among targets p then flowed b (blocks s p) else blocks s p.
Proof.
  unfold among.
  induction targets as [| t rest IH]; intros s Ho; cbn [spread_effect existsb].
  - split; reflexivity.
  - destruct (flow_effect_blocks Harden b src t s (Ho t (or_introl eq_refl))) as [Hp Hb].
    rewrite Hp.
    destruct (IH (fst (flow_effect Harden b src t false s))) as [Hp' Hb'].
    { intros t' Ht'. rewrite Hb. destruct (BlockPos_eqb t' t).
      - apply flowed_open. apply Ho. left. reflexivity.
      - apply Ho. right. exact Ht'. }
    split; [exact Hp' |].
    intros p. rewrite Hb', Hb.
    destruct (BlockPos_eqb p t) eqn:E; cbn [orb].
    + apply BlockPos_eqb_eq in E. subst p.
      destruct (existsb (BlockPos_eqb t) rest); [apply flowed_idem | reflexivity].
    + reflexivity.
Qed.

(** ** The search of a liquid with a decay of 1 to 63, from any depth *)






(** Flows that have no depth left do nothing. *)
Lemma spread_effect_no_depth
    (Harden : Liquid -> BlockPos -> World -> BlockPos -> World * bool)
    (b : Liquid) (src : BlockPos) (targets : list BlockPos) (s : State) :
  no_depth_left b false -> spread_effect Harden b src targets s = (s, false).
Proof.
  intros [_ Hg]. induction targets as [| t rest IH]; cbn [spread_effect]; [reflexivity |].
  unfold flow_effect, newDepth. cbn [negb andb].
  apply Z.leb_le in Hg. rewrite Hg. cbn [fst snd]. exact IH.
Qed.

(** * The claims of the specification *)

Lemma issued_placed (pos : BlockPos) (blk : Block) (s : State) :
  issued s (placed pos blk s) = [EvPlace pos blk].
Proof.
  unfold issued, placed. cbn [trace].
  rewrite skipn_app, skipn_all, Nat.sub_diag. reflexivity.
Qed.

Lemma issued_same (s : State) : issued s s = [].
Proof. unfold issued. apply skipn_all. Qed.

Section Claims.

Variable Harden : Liquid -> BlockPos -> World -> BlockPos -> World * bool.

(** C1 (amended).  For every non-source liquid with no sustaining neighbour
    one tick is pure decay: if [depth - 4 <= 0] (in the arithmetic of Go's
    [int]) the block at the ticked position is replaced with air, else
    with [WithDepth(depth - 2 * decay, false)]; this placement is the only
    thing the tick does, so there is no falling or lateral flow.  In
    particular a liquid of depth 3 and decay 1 is removed by its first
    tick: it does not pass through depth 1. *)
Theorem decay_tick (b : Liquid) (pos : BlockPos) (s : State) :
  source b = false ->
  sourceAround b pos (blocks s) = false ->
  let blk :=
    if int_sub (LiquidDepth b) 4 <=? 0 then Air
    else LiquidBlock
           (WithDepth b (int_sub (LiquidDepth b) (int_mul 2 (SpreadDecay b))) false) in
  tickLiquid Harden b pos s = Done tt (placed pos blk s) /\
  issued s (final (tickLiquid Harden b pos s)) = [EvPlace pos blk] /\
  (LiquidDepth b = 3 -> SpreadDecay b = 1 ->
   blocks (final (tickLiquid Harden b pos s)) pos = Air).
Proof.
  intros Hsrc Haround blk.
  assert (Hs : sustained b pos (blocks s) = false).
  { unfold sustained. rewrite Hsrc, Haround. reflexivity. }
  rewrite (tickLiquid_decay Harden b pos s Hs). fold blk. cbn [final].
  split; [reflexivity |]. split; [apply issued_placed |].
  intros Hd _. unfold placed. cbn [blocks]. rewrite setBlock_same.
  unfold blk. rewrite Hd. reflexivity.
Qed.

(** C2 (amended).  A tick on a liquid that is not sustained only decays:
    it places one block at the position of the liquid and flows nowhere.
    On a sustained liquid the tick first makes the falling step, which
    leaves the state [s1]; a panic there ends the tick.  After it the
    liquid of the tick is [b'], the liquid as read, or that liquid at
    depth 8 and falling when it is falling and cannot flow below.
    Lateral spread happens only if the depth of [b'] exceeds its decay
    and [b'] is a source or the liquid could not flow below: otherwise
    the tick ends in [s1].  In that case the path finder returns paths,
    and the tick is the flows, not falling, into the four horizontal
    neighbours when there is no path, else into the first step of every
    path whose length is at most the minimum of the lengths, in this
    order, up to a panic; every block placed or broken after the falling
    step is at one of these targets; and when no target holds a liquid of
    another type or a block with drops that is no item, the tick does not
    panic, every target holds what the flow leaves there, and every other
    block is as the falling step left it.  Where the depth does not
    exceed the decay and the tick stops, the flows would have done
    nothing. *)
Theorem lateral_spread_rule (b : Liquid) (pos : BlockPos) (s : State) :
  let cfb := canFlowInto b (blocks s) (below pos) false in
  let b' := after_falling_logic b cfb in
  let fall := fall_effect Harden b pos s in
  let s1 := fst fall in
  (sustained b pos (blocks s) = false ->
   exists blk, tickLiquid Harden b pos s = Done tt (placed pos blk s))
  /\ (sustained b pos (blocks s) = true ->
      (snd fall = true -> tickLiquid Harden b pos s = Panic item_panic s1)
      /\ (snd fall = false ->
          (LiquidDepth b' <= SpreadDecay b' \/ (source b' = false /\ cfb = true) ->
           tickLiquid Harden b pos s = Done tt s1)
          /\ (SpreadDecay b' < LiquidDepth b' -> source b' = true \/ cfb = false ->
              (exists paths, calculateLiquidPaths b' pos (blocks s1) = Some paths)
              /\ forall paths,
                   calculateLiquidPaths b' pos (blocks s1) = Some paths ->
                   tickLiquid Harden b pos s =
                     ended (spread_effect Harden b' pos (spread_targets pos paths) s1)
                   /\ Forall (fun e => forall p, mutated_at e = Some p ->
                                                 In p (spread_targets pos paths))
                             (issued s1 (final (tickLiquid Harden b pos s)))
                   /\ ((forall t, In t (spread_targets pos paths) ->
                                  open_to b' (blocks s1 t)) ->
                       panicked (tickLiquid Harden b pos s) = false /\
                       forall p,
                         blocks (final (tickLiquid Harden b pos s)) p =
                         if among (spread_targets pos paths) p
                         then flowed b' (blocks s1 p) else blocks s1 p))))
  /\ (LiquidDepth b' <= SpreadDecay b' ->
      - 2 ^ 63 <= LiquidDepth b' - SpreadDecay b' ->
      forall targets, spread_effect Harden b' pos targets s1 = (s1, false)).
Proof.
  intros cfb b' fall s1. split; [| split].
  - intros Hs. rewrite (tickLiquid_decay Harden b pos s Hs). eexists. reflexivity.
  - intros Hs. pose proof (tickLiquid_effect Harden b pos s Hs) as E.
    cbv zeta in E. fold cfb in E. fold b' in E. fold fall in E. fold s1 in E.
    split.
    + intros Hp. rewrite E, Hp. reflexivity.
    + intros Hp. rewrite Hp in E. split.
      * intros [Hle | [Hsrc Hcfb]].
        -- rewrite E. apply Z.leb_le in Hle. rewrite Hle. reflexivity.
        -- rewrite E. destruct (LiquidDepth b' <=? SpreadDecay b'); [reflexivity |].
           unfold lateral_targets. rewrite Hsrc, Hcfb. reflexivity.
      * intros Hcap Hrule.
        assert (Hor : source b' || negb cfb = true).
        { destruct Hrule as [-> | ->]; [reflexivity | apply orb_true_r]. }
        split.
        { destruct (calculateLiquidPaths_total b' pos (blocks s1)) as [paths [_ Ep]].
          eauto. }
        intros paths Ep.
        assert (Et : tickLiquid Harden b pos s =
                     ended (spread_effect Harden b' pos (spread_targets pos paths) s1)).
        { rewrite E. apply Z.leb_gt in Hcap. rewrite Hcap.
          rewrite (lateral_targets_spread b' cfb pos (blocks s1) paths Hor Ep).
          reflexivity. }
        split; [exact Et |]. split.
        -- rewrite Et. apply extends_issued.
           replace (final (ended (spread_effect Harden b' pos (spread_targets pos paths) s1)))
             with (fst (spread_effect Harden b' pos (spread_targets pos paths) s1))
             by (unfold ended;
                 destruct (snd (spread_effect Harden b' pos (spread_targets pos paths) s1));
                 reflexivity).
           apply spread_effect_extends. auto.
        -- intros Ho.
           destruct (spread_effect_blocks Harden b' pos (spread_targets pos paths) s1 Ho)
             as [Hnp Hb].
           rewrite Et. unfold ended. rewrite Hnp. cbn [panicked final].
           split; [reflexivity | exact Hb].
  - intros Hle Hlow targets. apply spread_effect_no_depth.
    split; [reflexivity |]. rewrite int_sub_exact by lia. lia.
Qed.

(** C4 (amended).  [flowInto] returns failure exactly in three cases: (1)
    it is not a falling flow and [depth - decay <= 0], (2) the target
    holds a liquid of a different type, (3) the target holds a block that
    is no liquid and is not removable by liquid.  A call that fails records
    no placement and no removal.  In case (1) nothing happens at all, the
    harden capability is not invoked even when the target holds a liquid
    of a different type.  In case (2), when case (1) does not apply,
    [flowInto] invokes the harden capability of the existing liquid with
    the target position and the source position, and the world is then as
    [Harden] has left it.  In every failure case the block at the source
    position is unchanged, when [Harden] called on the target leaves the
    block at the source position alone: [flowInto] itself changes no
    block. *)
Theorem flowInto_failure (b : Liquid) (src pos : BlockPos) (falling : bool) (s : State) :
  ((exists s', flowInto Harden b src pos falling s = Done false s') <->
   no_depth_left b falling \/ foreign_liquid b (blocks s pos) \/
   not_removable (blocks s pos))
  /\ (forall s', flowInto Harden b src pos falling s = Done false s' ->
                 Forall (fun e => mutated_at e = None) (issued s s'))
  /\ (no_depth_left b falling -> flowInto Harden b src pos falling s = Done false s)
  /\ (~ no_depth_left b falling ->
      forall l, blocks s pos = LiquidBlock l -> LiquidType l <> LiquidType b ->
                flowInto Harden b src pos falling s = Done false (hardened Harden l pos src s))
  /\ (~ no_depth_left b falling -> not_removable (blocks s pos) ->
      flowInto Harden b src pos falling s = Done false s)
  /\ (forall s', flowInto Harden b src pos falling s = Done false s' ->
                 (forall l, blocks s pos = LiquidBlock l ->
                            fst (Harden l pos (blocks s) src) src = blocks s src) ->
                 blocks s' src = blocks s src).
Proof.
  pose proof (flowInto_outcome Harden b src pos falling s) as R.
  split; [| split; [| split; [| split; [| split]]]].
  - split.
    + intros [s' H]. rewrite H in R.
      inversion R as [Hg | | | l Hg Hl Ht | Hg Hn | | ]; subst.
      * left. exact Hg.
      * right. left. exists l. split; assumption.
      * right. right. exact Hn.
    + intros H. destruct (no_depth_left_dec b falling) as [Hg | Hg].
      { exists s. apply flowInto_no_depth. exact Hg. }
      destruct H as [Hg' | [[l [Hl Ht]] | Hn]]; [contradiction | |].
      * eexists. apply (flowInto_foreign Harden b src pos falling s l Hg Hl Ht).
      * exists s. apply flowInto_not_removable; assumption.
  - intros s' H. rewrite H in R.
    inversion R as [Hg | | | l Hg Hl Ht | Hg Hn | | ]; subst.
    + rewrite issued_same. constructor.
    + unfold issued, hardened. cbn [trace].
      rewrite skipn_app, skipn_all, Nat.sub_diag. constructor; [reflexivity | constructor].
    + rewrite issued_same. constructor.
  - apply flowInto_no_depth.
  - intros Hg l Hl Ht. apply flowInto_foreign; assumption.
  - intros Hg Hn. apply flowInto_not_removable; assumption.
  - intros s' H Hframe. rewrite H in R.
    inversion R as [Hg | | | l Hg Hl Ht | Hg Hn | | ]; subst.
    + reflexivity.
    + unfold hardened. cbn [blocks]. apply Hframe. exact Hl.
    + reflexivity.
Qed.

(** C6 (amended).  On a sustained liquid the spread-capacity check, the
    path finder and the lateral flows work with the liquid as read at the
    start of the tick, except when that liquid is falling and cannot flow
    below: the falling logic then replaces it with [WithDepth(8, true)],
    and it is the depth 8 of that value that the check and the flows
    use.  The two values differ when the depth read is not 8. *)
Theorem tick_liquid_value (b : Liquid) (pos : BlockPos) (s : State) :
  sustained b pos (blocks s) = true ->
  let cfb := canFlowInto b (blocks s) (below pos) false in
  tickLiquid Harden b pos s =
    (push_below Harden b pos ;;;
     lateral_spread Harden (after_falling_logic b cfb) cfb pos) s
  /\ (LiquidFalling b = false \/ cfb = true -> after_falling_logic b cfb = b)
  /\ (LiquidFalling b = true -> cfb = false ->
      after_falling_logic b cfb = WithDepth b 8 true)
  /\ (LiquidFalling b = true -> LiquidDepth b = 8 -> WithDepth b 8 true = b).
Proof.
  intros Hs cfb. split; [| split; [| split]].
  - apply tickLiquid_shape. exact Hs.
  - unfold after_falling_logic. intros [-> | ->]; [reflexivity |].
    rewrite andb_false_r. reflexivity.
  - unfold after_falling_logic. intros -> ->. reflexivity.
  - destruct b as [d f c t k]. cbn. intros -> ->. reflexivity.
Qed.

(** C7 (amended).  For every liquid with depth in [1,8] and decay 1 or 2,
    every liquid a tick places has its depth in [1,8]. *)
Theorem placed_depth_in_range (b : Liquid) (pos : BlockPos) (s : State) :
  1 <= LiquidDepth b <= 8 ->
  1 <= SpreadDecay b <= 2 ->
  forall p l,
    In (EvPlace p (LiquidBlock l)) (issued s (final (tickLiquid Harden b pos s))) ->
    1 <= LiquidDepth l <= 8.
Proof.
  intros Hd Hc p l Hin.
  destruct (sustained b pos (blocks s)) eqn:Hs.
  - pose proof (extends_issued _ _ _ (tickLiquid_sustained_extends Harden b pos s Hs)) as HF.
    rewrite Forall_forall in HF. specialize (HF _ Hin).
    destruct HF as [Hfall | [b' [t [Hb' [_ Hflow]]]]].
    + destruct Hfall as [E | [[E _] | [l' E]]]; try discriminate.
      injection E as _ ->. cbn. lia.
    + destruct Hflow as [E | [[E Hpos] | [l' E]]]; try discriminate.
      injection E as _ ->. destruct Hpos as [Hf | Hpos]; [discriminate |].
      unfold newDepth in *. cbn [WithDepth LiquidDepth] in *.
      assert (Hb : 1 <= LiquidDepth b' <= 8 /\ SpreadDecay b' = SpreadDecay b).
      { destruct Hb' as [-> | ->]; cbn; split; (lia || reflexivity). }
      destruct Hb as [Hb1 Hb2]. rewrite Hb2 in *.
      rewrite int_sub_exact in * by lia. lia.
  - rewrite (tickLiquid_decay Harden b pos s Hs) in Hin. cbn [final] in Hin.
    rewrite issued_placed in Hin. destruct Hin as [E | []].
    rewrite (int_sub_exact (LiquidDepth b) 4) in E by lia.
    destruct (Z.leb_spec (LiquidDepth b - 4) 0) as [Hle | Hgt]; [discriminate |].
    injection E as _ <-. cbn [WithDepth LiquidDepth].
    rewrite int_mul_exact by lia. rewrite int_sub_exact by lia. lia.
Qed.

(** C9 (amended).  [flowInto] panics if and only if it gets to the removal
    of the target, that is, it is a falling flow or [depth - decay > 0] and
    the target holds no liquid, and the target block exposes the
    liquid-removable capability with drops but is no item.  That panic is
    the only one of [flowInto] and of a tick: the path finder, the indexing
    of its paths and every other outcome return normally. *)
Theorem flowInto_panics_iff (b : Liquid) (src pos : BlockPos) (falling : bool) (s : State) :
  (panicked (flowInto Harden b src pos falling s) = true <->
   ~ no_depth_left b falling /\ asLiquid (blocks s pos) = None /\
   drops_without_item (blocks s pos))
  /\ (forall m s', flowInto Harden b src pos falling s = Panic m s' -> m = item_panic)
  /\ (forall m s', tickLiquid Harden b pos s = Panic m s' -> m = item_panic)
  /\ (exists paths, calculateLiquidPaths b pos (blocks s) = Some paths).
Proof.
  split; [| split; [| split]].
  - split.
    + intros H. destruct (flowInto_outcome Harden b src pos falling s);
        try discriminate. auto.
    + intros [Hg [Hl [Hr Hi]]].
      rewrite (flowInto_removable Harden b src pos falling s true Hg Hl Hr), Hi.
      reflexivity.
  - intros m s'. apply flowInto_panic_msg.
  - intros m s'. apply tickLiquid_panic_msg.
  - destruct (calculateLiquidPaths_total b pos (blocks s)) as [paths [_ E]]. eauto.
Qed.

(** C10.  On a sustained liquid a tick places and breaks blocks only at
    the position directly below and at the horizontal neighbours at the
    same y, never at the ticked position itself; the block at the ticked
    position is the same after the tick, when [Harden] called on another
    position leaves it alone. *)
Theorem sustained_tick_frame (b : Liquid) (pos : BlockPos) (s : State) :
  sustained b pos (blocks s) = true ->
  (forall e p,
     In e (issued s (final (tickLiquid Harden b pos s))) ->
     mutated_at e = Some p ->
     (p = below pos \/ In p (horizontal pos)) /\ p <> pos)
  /\ ((forall l p w src, p <> pos -> fst (Harden l p w src) pos = w pos) ->
      blocks (final (tickLiquid Harden b pos s)) pos = blocks s pos).
Proof.
  intros Hs. split; [| apply tickLiquid_sustained_keeps; exact Hs].
  intros e p Hin Hp.
  pose proof (extends_issued _ _ _ (tickLiquid_sustained_extends Harden b pos s Hs)) as HF.
  rewrite Forall_forall in HF. specialize (HF _ Hin).
  assert (Hflow : forall b' src t f, flow_event b' src t f e -> p = t).
  { intros b' src t f [E | [[E _] | [l E]]]; subst e; cbn [mutated_at] in Hp; congruence. }
  destruct HF as [Hfall | [b' [t [_ [Ht Hfl]]]]].
  - apply Hflow in Hfall. subst p. split; [auto | apply below_not_self].
  - apply Hflow in Hfl. subst p. split; [auto | apply horizontal_not_self; exact Ht].
Qed.

End Claims.

(** C3.  Every path that one call of the path finder returns is as short
    as the shortest path it returns: the returned paths are tied. *)
Theorem paths_tied (b : Liquid) (pos : BlockPos) (w : World) :
  exists paths,
    calculateLiquidPaths b pos w = Some paths /\
    Forall (fun p => len p <= min_len paths) paths /\
    (forall p q, In p paths -> In q paths -> len p = len q).
Proof.
  destruct (calculateLiquidPaths_total b pos w) as [paths [_ E]].
  exists paths. split; [exact E |].
  destruct (calculateLiquidPaths_paths b pos w paths E) as [L HL].
  assert (Htied : Forall (fun p => len p = L) paths).
  { eapply Forall_impl; [| exact HL]. intros p [Hp _]. exact Hp. }
  split.
  - destruct paths as [| p0 ps]; [constructor |].
    rewrite (min_len_tied L (p0 :: ps)) by (discriminate || assumption).
    eapply Forall_impl; [| exact Htied]. intros p Hp. cbv beta in Hp. lia.
  - rewrite Forall_forall in Htied. intros p q Hp Hq.
    rewrite (Htied p Hp), (Htied q Hq). reflexivity.
Qed.

(** C5 (amended).  The sustain check of the tick holds if and only if the
    liquid is itself a source, or a liquid of its type is directly above
    (whatever the depth of that liquid), or a liquid of its type that is a
    source or has a strictly higher depth is at one of the four horizontal
    neighbours.  What is at the y below the position, the block directly
    below included, does not enter the check. *)
Theorem sustain_check (b : Liquid) (pos : BlockPos) (w : World) :
  (sustained b pos w = true <-> sustain_rule b pos w)
  /\ (forall p blk, pY p = int_sub (pY pos) 1 ->
                    sustained b pos (setBlock w p blk) = sustained b pos w).
Proof.
  split.
  - apply sustained_rule.
  - intros p blk Hp. apply sustained_ignores_below. exact Hp.
Qed.


(** * The claims on concrete inputs *)

(** C1, an instance: still water of depth 5 that nothing sustains becomes
    water of depth 3. *)
Lemma decay_tick_witness :
  source (water 5 false) = false /\
  sourceAround (water 5 false) origin (blocks (fresh plain)) = false /\
  tickLiquid harden_cobble (water 5 false) origin (fresh plain) =
    Done tt (placed origin (LiquidBlock (water 3 false)) (fresh plain)).
Proof.
  split; [reflexivity |]. split; [vm_compute; reflexivity |].
  exact (proj1 (decay_tick harden_cobble (water 5 false) origin (fresh plain)
                  eq_refl eq_refl)).
Defined.

(** C1 as stated fails: water of depth 3 and decay 1 that nothing sustains
    is air after one tick, not water of depth 1. *)
Lemma decay_scenario_counterexample :
  source (water 3 false) = false /\
  sourceAround (water 3 false) origin plain = false /\
  LiquidDepth (water 3 false) = 3 /\ SpreadDecay (water 3 false) = 1 /\
  blocks (final (tickLiquid harden_cobble (water 3 false) origin (fresh plain))) origin = Air /\
  blocks (final (tickLiquid harden_cobble (water 3 false) origin (fresh plain))) origin
    <> LiquidBlock (WithDepth (water 3 false) 1 false).
Proof.
  repeat split; try (vm_compute; reflexivity).
  vm_compute. discriminate.
Qed.

(** C2 as stated fails: still water of depth 5 that nothing sustains, on
    the plain, cannot flow below and the path finder has no path for it;
    its tick does not flow into the four horizontal neighbours: it places
    water of depth 3 at its own position and leaves the neighbours
    empty. *)
Lemma lateral_spread_unsustained_counterexample :
  canFlowInto (water 5 false) plain (below origin) false = false /\
  calculateLiquidPaths (water 5 false) origin plain = Some [] /\
  tickLiquid harden_cobble (water 5 false) origin (fresh plain) =
    Done tt (placed origin (LiquidBlock (water 3 false)) (fresh plain)) /\
  issued (fresh plain)
         (final (tickLiquid harden_cobble (water 5 false) origin (fresh plain))) =
    [EvPlace origin (LiquidBlock (water 3 false))] /\
  Forall (fun t => blocks (final (tickLiquid harden_cobble (water 5 false) origin
                                     (fresh plain))) t = Air)
         (horizontal origin).
Proof.
  split; [reflexivity |]. split; [vm_compute; reflexivity |].
  split; [reflexivity |]. split; [reflexivity |].
  repeat (constructor; [reflexivity |]). constructor.
Qed.

(** C2, an instance: a source on the plain with a hole two blocks east
    flows east only, the first step of the one path: the tick places
    water of depth 7 there and leaves the western neighbour empty. *)
Lemma lateral_spread_rule_witness :
  sustained (water 8 false) origin (blocks (fresh holed)) = true /\
  calculateLiquidPaths (water 8 false) origin holed = Some [[(1, 0, 0); (2, 0, 0)]] /\
  spread_targets origin [[(1, 0, 0); (2, 0, 0)]] = [(1, 0, 0)] /\
  tickLiquid harden_cobble (water 8 false) origin (fresh holed) =
    Done tt (placed (1, 0, 0) (LiquidBlock (water 7 false)) (fresh holed)) /\
  blocks (final (tickLiquid harden_cobble (water 8 false) origin (fresh holed))) (1, 0, 0) =
    LiquidBlock (water 7 false) /\
  blocks (final (tickLiquid harden_cobble (water 8 false) origin (fresh holed))) (-1, 0, 0) =
    Air.
Proof.
  assert (Hs : sustained (water 8 false) origin (blocks (fresh holed)) = true)
    by (vm_compute; reflexivity).
  assert (Hp : calculateLiquidPaths (water 8 false) origin holed =
               Some [[(1, 0, 0); (2, 0, 0)]]) by (vm_compute; reflexivity).
  assert (Ht : spread_targets origin [[(1, 0, 0); (2, 0, 0)]] = [(1, 0, 0)])
    by (vm_compute; reflexivity).
  destruct (proj2 (proj2 (proj2 (proj1 (proj2 (lateral_spread_rule harden_cobble
                                                 (water 8 false) origin (fresh holed)))
                                   Hs) eq_refl)
                    eq_refl (or_introl eq_refl))
              [[(1, 0, 0); (2, 0, 0)]] Hp) as [Et [_ Hb]].
  destruct Hb as [_ Hb].
  { rewrite Ht. intros t [<- | []]. split.
    - intros [l [Hl _]]. discriminate.
    - intros [_ [Hr _]]. discriminate. }
  split; [exact Hs |]. split; [exact Hp |]. split; [exact Ht |].
  split; [exact Et |]. split; [exact (Hb (1, 0, 0)) | exact (Hb (-1, 0, 0))].
Defined.

(** C8: the bound on the iterations. *)
Example depth_budget_value : depth_budget = 1366%nat.
Proof. reflexivity. Qed.

(** C3 and C8 on the plain with a hole: one path, of two steps. *)
Example paths_holed :
  calculateLiquidPaths (water 8 false) origin holed = Some [[(1, 0, 0); (2, 0, 0)]].
Proof. vm_compute. reflexivity. Qed.

(** C3 in the void: four paths of one step. *)
Example paths_void :
  calculateLiquidPaths (water 8 false) origin void =
  Some [[(-1, 0, 0)]; [(1, 0, 0)]; [(0, 0, -1)]; [(0, 0, 1)]].
Proof. vm_compute. reflexivity. Qed.



(** C4 as stated fails: lava of depth 2 and decay 2 has no depth left for a
    flow that is not falling, and its flow into water fails without a call
    of the harden capability of the water. *)
Lemma flowInto_harden_counterexample :
  foreign_liquid (lava 2 false) (blocks (fresh pond) (1, 0, 0)) /\
  flowInto harden_cobble (lava 2 false) origin (1, 0, 0) false (fresh pond) =
    Done false (fresh pond) /\
  ~ In (EvHarden (water 8 false) (1, 0, 0) origin)
       (trace (final (flowInto harden_cobble (lava 2 false) origin (1, 0, 0) false
                        (fresh pond)))).
Proof.
  split; [| split; [reflexivity | intros []]].
  exists (water 8 false). split; [reflexivity | discriminate].
Qed.

(** C4, an instance: lava of depth 8 flows into water; the flow fails, the
    harden capability of the water has been invoked and has made
    cobblestone of it; the block at the source position is as it was. *)
Lemma flowInto_failure_witness :
  ~ no_depth_left (lava 8 false) false /\
  flowInto harden_cobble (lava 8 false) origin (1, 0, 0) false (fresh pond) =
    Done false (hardened harden_cobble (water 8 false) (1, 0, 0) origin (fresh pond)) /\
  trace (hardened harden_cobble (water 8 false) (1, 0, 0) origin (fresh pond)) =
    [EvHarden (water 8 false) (1, 0, 0) origin] /\
  blocks (hardened harden_cobble (water 8 false) (1, 0, 0) origin (fresh pond)) (1, 0, 0) =
    cobblestone /\
  blocks (hardened harden_cobble (water 8 false) (1, 0, 0) origin (fresh pond)) origin =
    blocks (fresh pond) origin.
Proof.
  assert (Hg : ~ no_depth_left (lava 8 false) false).
  { intros [_ H]. vm_compute in H. apply H. reflexivity. }
  assert (Hf : flowInto harden_cobble (lava 8 false) origin (1, 0, 0) false (fresh pond) =
               Done false (hardened harden_cobble (water 8 false) (1, 0, 0) origin
                             (fresh pond))).
  { apply (proj1 (proj2 (proj2 (proj2
             (flowInto_failure harden_cobble (lava 8 false) origin (1, 0, 0) false
                               (fresh pond)))))).
    - exact Hg.
    - reflexivity.
    - discriminate. }
  split; [exact Hg |]. split; [exact Hf |]. split; [reflexivity |].
  split; [reflexivity |].
  apply (proj2 (proj2 (proj2 (proj2 (proj2
           (flowInto_failure harden_cobble (lava 8 false) origin (1, 0, 0) false
                             (fresh pond)))))) _ Hf).
  intros l _. reflexivity.
Defined.

(** C5 as stated fails: still water of depth 3 directly above sustains
    water of depth 5, though it is no source and is not deeper. *)
Lemma sustain_above_counterexample :
  sustained (water 5 false) origin topped = true /\
  ~ sustain_uniform (water 5 false) origin topped.
Proof.
  split; [vm_compute; reflexivity |].
  intros [H | [p [side [Hp [[Hw _] Hf]]]]]; [discriminate |].
  cbn [In above horizontal origin pX pY pZ fst snd] in Hp.
  destruct Hp as [<- | [<- | [<- | [<- | [<- | []]]]]]; vm_compute in Hw;
    try discriminate.
  injection Hw as <-. destruct Hf as [Hf | Hf]; vm_compute in Hf; discriminate.
Qed.

(** C5, an instance. *)
Lemma sustain_check_witness :
  sustained (water 5 false) origin topped = true /\
  sustain_rule (water 5 false) origin topped /\
  sustained (water 5 false) origin (setBlock topped (0, -1, 0) (LiquidBlock (water 8 false))) =
  sustained (water 5 false) origin topped.
Proof.
  split; [vm_compute; reflexivity |]. split.
  - apply (proj1 (proj1 (sustain_check (water 5 false) origin topped))).
    vm_compute. reflexivity.
  - apply (proj2 (sustain_check (water 5 false) origin topped)).
    vm_compute. reflexivity.
Defined.

(** C6 as stated fails: falling water of depth 1 and decay 1 under a
    column of water, on stone, has no capacity to spread as it is read
    (1 <= 1); the tick spreads it all the same, with depth 7 = 8 - 1. *)
Lemma tick_as_read_counterexample :
  sustained (water 1 true) origin (blocks (fresh capped)) = true /\
  LiquidDepth (water 1 true) <= SpreadDecay (water 1 true) /\
  issued (fresh capped)
         (final ((push_below harden_cobble (water 1 true) origin ;;;
                  lateral_spread harden_cobble (water 1 true)
                    (canFlowInto (water 1 true) capped (below origin) false) origin)
                   (fresh capped))) = [] /\
  In (EvPlace (1, 0, 0) (LiquidBlock (water 7 false)))
     (issued (fresh capped)
             (final (tickLiquid harden_cobble (water 1 true) origin (fresh capped)))) /\
  tickLiquid harden_cobble (water 1 true) origin (fresh capped) <>
  (push_below harden_cobble (water 1 true) origin ;;;
   lateral_spread harden_cobble (water 1 true)
     (canFlowInto (water 1 true) capped (below origin) false) origin)
    (fresh capped).
Proof.
  split; [vm_compute; reflexivity |].
  split; [vm_compute; discriminate |].
  split; [vm_compute; reflexivity |].
  split; [vm_compute; left; reflexivity |].
  intros E. apply (f_equal (fun o => trace (final o))) in E.
  vm_compute in E. discriminate.
Qed.

(** C6, an instance: the same tick works with the water at depth 8. *)
Lemma tick_liquid_value_witness :
  sustained (water 1 true) origin (blocks (fresh capped)) = true /\
  tickLiquid harden_cobble (water 1 true) origin (fresh capped) =
    (push_below harden_cobble (water 1 true) origin ;;;
     lateral_spread harden_cobble
       (after_falling_logic (water 1 true)
          (canFlowInto (water 1 true) (blocks (fresh capped)) (below origin) false))
       (canFlowInto (water 1 true) (blocks (fresh capped)) (below origin) false) origin)
      (fresh capped) /\
  after_falling_logic (water 1 true)
    (canFlowInto (water 1 true) (blocks (fresh capped)) (below origin) false) = water 8 true.
Proof.
  split; [vm_compute; reflexivity |]. split; [| vm_compute; reflexivity].
  apply (proj1 (tick_liquid_value harden_cobble (water 1 true) origin (fresh capped)
                  ltac:(vm_compute; reflexivity))).
Defined.

(** C7 as stated fails: a liquid of depth 5 and decay 3 that nothing
    sustains is replaced with a liquid of depth -1. *)
Lemma placed_depth_counterexample :
  1 <= LiquidDepth (tar 5 false) <= 8 /\
  1 <= SpreadDecay (tar 5 false) /\
  issued (fresh plain) (final (tickLiquid harden_cobble (tar 5 false) origin (fresh plain))) =
    [EvPlace origin (LiquidBlock (tar (-1) false))] /\
  LiquidDepth (tar (-1) false) <= 0.
Proof.
  repeat split; try (vm_compute; reflexivity); vm_compute; discriminate.
Qed.

(** C7, an instance: a source of water on the plain places water of
    depth 7. *)
Lemma placed_depth_in_range_witness :
  1 <= LiquidDepth (water 8 false) <= 8 /\
  1 <= SpreadDecay (water 8 false) <= 2 /\
  In (EvPlace (1, 0, 0) (LiquidBlock (water 7 false)))
     (issued (fresh plain)
             (final (tickLiquid harden_cobble (water 8 false) origin (fresh plain)))) /\
  1 <= LiquidDepth (water 7 false) <= 8.
Proof.
  assert (Hd : 1 <= LiquidDepth (water 8 false) <= 8) by (simpl; lia).
  assert (Hc : 1 <= SpreadDecay (water 8 false) <= 2) by (simpl; lia).
  assert (Hin : In (EvPlace (1, 0, 0) (LiquidBlock (water 7 false)))
                   (issued (fresh plain)
                      (final (tickLiquid harden_cobble (water 8 false) origin (fresh plain))))).
  { vm_compute. left. reflexivity. }
  split; [exact Hd |]. split; [exact Hc |]. split; [exact Hin |].
  exact (placed_depth_in_range harden_cobble (water 8 false) origin (fresh plain)
           Hd Hc (1, 0, 0) (water 7 false) Hin).
Defined.

(** C9 as stated fails: the target is removable with drops and is no item,
    yet a flow of water of depth 1, which has no depth left, returns
    without a panic. *)
Lemma flowInto_panic_counterexample :
  drops_without_item (blocks (fresh weedy) (1, 0, 0)) /\
  flowInto harden_cobble (water 1 false) origin (1, 0, 0) false (fresh weedy) =
    Done false (fresh weedy) /\
  panicked (flowInto harden_cobble (water 1 false) origin (1, 0, 0) false (fresh weedy)) =
    false.
Proof. split; [split | split]; reflexivity. Qed.

(** C9, an instance: a source of water flows into the same block and
    panics, after the block has been broken. *)
Lemma flowInto_panics_iff_witness :
  panicked (flowInto harden_cobble (water 8 false) origin (1, 0, 0) false (fresh weedy)) = true /\
  trace (final (flowInto harden_cobble (water 8 false) origin (1, 0, 0) false (fresh weedy))) =
    [EvBreak (1, 0, 0)].
Proof.
  split; [| vm_compute; reflexivity].
  apply (proj1 (flowInto_panics_iff harden_cobble (water 8 false) origin (1, 0, 0) false
                  (fresh weedy))).
  split; [| split; [reflexivity | split; reflexivity]].
  intros [_ H]. vm_compute in H. apply H. reflexivity.
Defined.

(** C10, an instance: the placement of the source on the plain with a
    hole is at the eastern neighbour, and the source is still there. *)
Lemma sustained_tick_frame_witness :
  sustained (water 8 false) origin (blocks (fresh holed)) = true /\
  In (EvPlace (1, 0, 0) (LiquidBlock (water 7 false)))
     (issued (fresh holed)
             (final (tickLiquid harden_cobble (water 8 false) origin (fresh holed)))) /\
  (((1, 0, 0) = below origin \/ In (1, 0, 0) (horizontal origin)) /\ (1, 0, 0) <> origin) /\
  blocks (final (tickLiquid harden_cobble (water 8 false) origin (fresh holed))) origin =
  blocks (fresh holed) origin.
Proof.
  assert (Hs : sustained (water 8 false) origin (blocks (fresh holed)) = true)
    by (vm_compute; reflexivity).
  assert (Hin : In (EvPlace (1, 0, 0) (LiquidBlock (water 7 false)))
                   (issued (fresh holed)
                      (final (tickLiquid harden_cobble (water 8 false) origin (fresh holed))))).
  { vm_compute. left. reflexivity. }
  split; [exact Hs |]. split; [exact Hin |]. split.
  - exact (proj1 (sustained_tick_frame harden_cobble (water 8 false) origin (fresh holed) Hs)
             (EvPlace (1, 0, 0) (LiquidBlock (water 7 false))) (1, 0, 0) Hin eq_refl).
  - apply (proj2 (sustained_tick_frame harden_cobble (water 8 false) origin (fresh holed) Hs)).
    intros l p w src Hp. unfold harden_cobble. cbn [fst].
    apply setBlock_other. congruence.
Defined.

(** * Further properties of the code *)

(** ** Invariants of the search *)

Lemma spreadNeighbour_flow (b : Liquid) (src : BlockPos) (w : World)
    (c : liquidNode) (q : liquidQueue) :
  spreadNeighbour b src w c q = (false, q) \/
  (spreadNeighbour b src w c q = (false, PushBack q c) /\
   0 < int8_add (nodeDepth c) 3 /\ ledge b w (nodePos src c)) \/
  (spreadNeighbour b src w c q = (true, q) /\
   0 < int8_add (nodeDepth c) 3 /\ drop b w (nodePos src c)).
Proof.
  unfold spreadNeighbour, ledge, drop, nodePos, down. cbn [pX pY pZ fst snd].
  destruct (Z.leb_spec (int8_add (nodeDepth c) 3) 0); [auto |].
  destruct (Z.gtb_spec (Len c) (shortestPath q)); [auto |].
  destruct (canFlowInto b w (nodeX c, pY src, nodeZ c) true); cbn [negb]; [| auto].
  destruct (canFlowInto b w (nodeX c, int_sub (pY src) 1, nodeZ c) false); auto 6.
Qed.

Lemma calculateLiquidPaths_loop (b : Liquid) (pos : BlockPos) (w : World)
    (paths : list liquidPath) :
  calculateLiquidPaths b pos w = Some paths ->
  loop (2 ^ search_budget) (search_body b pos w (int8 (SpreadDecay b)))
       (search_start b pos) = Break paths.
Proof.
  unfold calculateLiquidPaths. rewrite iterate_loop.
  destruct (loop _ _ _); congruence.
Qed.

Section SearchInvariant.

Variables (b : Liquid) (pos : BlockPos) (w : World) (decay : Z).

(** A property of the nodes and a property of the paths. *)
Variable P : liquidNode -> Prop.
Variable Q : liquidPath -> Prop.

(** A neighbour that is enqueued inherits [P]. *)
Hypothesis enqueued :
  forall n c,
    P n -> In c (children n (int8_mul decay 2)) ->
    0 < int8_add (nodeDepth c) 3 -> ledge b w (nodePos pos c) -> P c.

(** The path of a neighbour that is a drop has [Q]. *)
Hypothesis found :
  forall n c,
    P n -> In c (children n (int8_mul decay 2)) ->
    0 < int8_add (nodeDepth c) 3 -> drop b w (nodePos pos c) -> Q (chain pos c).

Lemma visit_keeps (n c : liquidNode) (st st' : liquidQueue * list liquidPath) :
  P n -> In c (children n (int8_mul decay 2)) ->
  search_keeps P Q st ->
  visit b pos w c st = Some st' ->
  search_keeps P Q st'.
Proof.
  intros Hn Hc [Hok [HP HQ]] Hv. destruct st as [q ps]. cbn [fst snd] in *.
  unfold visit in Hv.
  destruct (spreadNeighbour_flow b pos w c q) as [E | [[E [Hd Hl]] | [E [Hd Hl]]]];
    rewrite E in Hv.
  - injection Hv as <-. split; [exact Hok | split; assumption].
  - injection Hv as <-. split; [apply cursor_ok_PushBack; exact Hok |].
    cbn [fst snd]. rewrite pending_PushBack by exact Hok.
    split; [| exact HQ]. apply Forall_app. split; [exact HP |].
    constructor; [| constructor]. eapply enqueued; eassumption.
  - rewrite Path_chain in Hv. injection Hv as <-.
    split; [exact Hok |]. split; [exact HP |]. cbn [snd].
    apply Forall_app. split; [exact HQ |].
    constructor; [| constructor]. eapply found; eassumption.
Qed.

Lemma search_body_keeps (st st' : liquidQueue * list liquidPath) :
  search_keeps P Q st ->
  search_body b pos w decay st = Continue st' ->
  search_keeps P Q st'.
Proof.
  intros [Hok [HP HQ]] Hbody. destruct st as [q ps]. cbn [fst snd] in *.
  unfold search_body in Hbody.
  destruct (Z.eqb_spec (QLen q) 0) as [E | E]; [discriminate |].
  destruct (Front_pending q Hok E) as [n [q0 [HF [Hp [Hok0 _]]]]].
  rewrite HF in Hbody. rewrite Hp in HP.
  apply Forall_cons_iff in HP. destruct HP as [Hn Hrest].
  assert (H0 : search_keeps P Q (q0, ps)) by (split; [| split]; assumption).
  assert (Hin : forall c, In c (children n (int8_mul decay 2)) ->
                          forall st1 st2, search_keeps P Q st1 ->
                                          visit b pos w c st1 = Some st2 ->
                                          search_keeps P Q st2).
  { intros c Hc st1 st2 H1 Hv. exact (visit_keeps n c st1 st2 Hn Hc H1 Hv). }
  unfold children, neighbours in Hin. unfold neighbours in Hbody.
  cbv beta iota in Hbody, Hin.
  repeat match type of Hbody with
         | match visit b pos w ?c ?s with _ => _ end = _ =>
             let E := fresh "E" in
             let K := fresh "K" in
             destruct (visit b pos w c s) as [? |] eqn:E; [| discriminate];
             assert (K := Hin c ltac:(cbn [In]; auto 6) _ _ ltac:(eassumption) E)
         end.
  injection Hbody as <-. assumption.
Qed.

(** The paths of a search whose root has [P] have [Q]. *)
Lemma search_keeps_result (root : Liquid) (n : nat) (paths : list liquidPath) :
  P (rootNode root pos) ->
  loop n (search_body b pos w decay) (search_start root pos) = Break paths ->
  Forall Q paths.
Proof.
  intros Hroot Hloop.
  destruct (search_start_ok root pos) as [Hok [_ Hp]].
  destruct (loop_invariant _ _ (search_body b pos w decay) (search_keeps P Q)
              search_body_keeps n (search_start root pos) paths)
    as [[q ps] [[_ [_ HQ]] Hbreak]].
  - split; [exact Hok |]. rewrite Hp. split; [| constructor].
    constructor; [exact Hroot | constructor].
  - exact Hloop.
  - cbn [snd] in HQ. unfold search_body in Hbreak.
    destruct (QLen q =? 0); [congruence |].
    destruct (Front q) as [[m q0] |]; [| discriminate].
    destruct (neighbours m _) as [[[cA cB] cC] cD].
    repeat match type of Hbreak with
           | match ?v with _ => _ end = _ => destruct v; try discriminate
           end.
Qed.

End SearchInvariant.

(** ** The paths of the search *)

Lemma last_nonempty (l : liquidPath) (a d d' : BlockPos) :
  last (a :: l) d = last (a :: l) d'.
Proof.
  revert a. induction l as [| x l IH]; intros a; [reflexivity |].
  change (last (x :: l) d = last (x :: l) d'). apply IH.
Qed.

Lemma walk_snoc (start : BlockPos) (path : liquidPath) (t : BlockPos) :
  walk start path -> In t (horizontal (last path start)) -> walk start (path ++ [t]).
Proof.
  revert start. induction path as [| q rest IH]; intros start Hw Ht; cbn [app walk].
  - cbn [last] in Ht. auto.
  - destruct Hw as [Hq Hrest]. split; [exact Hq |]. apply IH; [exact Hrest |].
    destruct rest as [| r rest']; [exact Ht |].
    rewrite (last_nonempty rest' r q start).
    change (last (q :: r :: rest') start) with (last (r :: rest') start) in Ht. exact Ht.
Qed.

Lemma walk_same_y (start : BlockPos) (path : liquidPath) :
  walk start path -> Forall (fun q => pY q = pY start) path.
Proof.
  revert start. induction path as [| q rest IH]; intros start Hw; [constructor |].
  destruct Hw as [Hq Hrest].
  assert (Hy : pY q = pY start).
  { unfold horizontal in Hq. cbn [In] in Hq.
    destruct Hq as [<- | [<- | [<- | [<- | []]]]]; reflexivity. }
  constructor; [exact Hy |]. rewrite <- Hy. apply IH. exact Hrest.
Qed.

Lemma on_ledges_chain (b : Liquid) (w : World) (src : BlockPos) (n : liquidNode) :
  on_ledges b w src n -> Forall (ledge b w) (chain src n).
Proof.
  induction n as [x z d | x z d p IH] using liquidNode_ind; cbn [on_ledges chain].
  - constructor.
  - intros [Hl Hp]. apply Forall_app. split; [apply IH; exact Hp |].
    constructor; [exact Hl | constructor].
Qed.

Lemma child_shape (n c : liquidNode) (decay : Z) :
  In c (children n decay) ->
  exists x z, c = mkNode x z (int8_sub (nodeDepth n) decay) (Some n).
Proof.
  unfold children, neighbours. cbn [In].
  intros [<- | [<- | [<- | [<- | []]]]]; eauto.
Qed.

(** X9.  Every path the path finder returns is a walk from the position
    of the liquid: each step is a horizontal neighbour of the one before,
    the first one of the position itself; the liquid can spread onto each
    step; it cannot flow down from any step but the last, and can flow
    down from the last. *)
Theorem paths_lead_to_drops (b : Liquid) (pos : BlockPos) (w : World)
    (paths : list liquidPath) :
  calculateLiquidPaths b pos w = Some paths ->
  Forall (fun p => walk pos p /\ leads_to_drop b w p) paths.
Proof.
  intros Hcalc. apply calculateLiquidPaths_loop in Hcalc.
  apply (search_keeps_result b pos w (int8 (SpreadDecay b))
           (fun n => on_ledges b w pos n /\ walk pos (chain pos n) /\
                     last (chain pos n) pos = nodePos pos n)
           (fun p => walk pos p /\ leads_to_drop b w p))
    with (root := b) (n := (2 ^ search_budget)%nat); [| | | exact Hcalc].
  - intros n c [Hl [Hw Hlast]] Hc _ Hledge.
    destruct (children_step pos n c _ Hc) as [t [Hch Ht]].
    destruct (child_shape n c _ Hc) as [x [z ->]].
    assert (Et : t = (x, pY pos, z)).
    { cbn [chain] in Hch. apply app_inj_tail in Hch. symmetry. apply Hch. }
    subst t. split; [| split].
    + cbn [on_ledges]. split; [exact Hledge | exact Hl].
    + cbn [chain]. apply walk_snoc; [exact Hw |]. rewrite Hlast. exact Ht.
    + cbn [chain]. rewrite last_last. reflexivity.
  - intros n c [Hl [Hw Hlast]] Hc _ Hdrop.
    destruct (children_step pos n c _ Hc) as [t [Hch Ht]].
    destruct (child_shape n c _ Hc) as [x [z ->]].
    assert (Et : t = (x, pY pos, z)).
    { cbn [chain] in Hch. apply app_inj_tail in Hch. symmetry. apply Hch. }
    subst t. split.
    + cbn [chain]. apply walk_snoc; [exact Hw |]. rewrite Hlast. exact Ht.
    + exists (chain pos n), (x, pY pos, z). split; [reflexivity |].
      split; [apply on_ledges_chain; exact Hl | exact Hdrop].
  - cbn [rootNode on_ledges chain walk last]. split; [exact I |]. split; [exact I |].
    destruct pos as [[x y] z]. reflexivity.
Qed.

(** X10.  For a liquid with a depth of 1 to 8 and a decay of 1 to 63, a
    returned path of [L] steps satisfies [2 * decay * L <= depth + 2]: the
    path finder does not look further than the remaining depth allows. *)
Theorem paths_within_depth (b : Liquid) (pos : BlockPos) (w : World)
    (paths : list liquidPath) :
  1 <= LiquidDepth b <= 8 ->
  1 <= SpreadDecay b <= 63 ->
  calculateLiquidPaths b pos w = Some paths ->
  Forall (fun p => 2 * SpreadDecay b * len p <= LiquidDepth b + 2) paths.
Proof.
  intros Hd Hc Hcalc. apply calculateLiquidPaths_loop in Hcalc.
  assert (Hchild : forall n c,
             -2 <= nodeDepth n <= 8 ->
             In c (children n (int8_mul (int8 (SpreadDecay b)) 2)) ->
             0 < int8_add (nodeDepth c) 3 ->
             nodeDepth c = nodeDepth n - 2 * SpreadDecay b /\
             -2 <= nodeDepth c <= 8 /\ hops c = S (hops n)).
  { intros n c Hn Hin Hpos.
    pose proof (children_hops _ _ _ Hin) as Hh.
    destruct (child_shape n c _ Hin) as [x [z ->]]. cbn [nodeDepth] in *.
    rewrite child_depth_exact in * by lia.
    rewrite int8_add_exact in Hpos by lia. lia. }
  apply (search_keeps_result b pos w (int8 (SpreadDecay b))
           (fun n => nodeDepth n = LiquidDepth b - 2 * SpreadDecay b * Z.of_nat (hops n) /\
                     -2 <= nodeDepth n <= 8)
           (fun p => 2 * SpreadDecay b * len p <= LiquidDepth b + 2))
    with (root := b) (n := (2 ^ search_budget)%nat); [| | | exact Hcalc].
  - intros n c [Hn Hr] Hin Hpos _.
    destruct (Hchild n c Hr Hin Hpos) as [E [Hr' Hh]].
    split; [| exact Hr']. rewrite E, Hn, Hh, Nat2Z.inj_succ. ring.
  - intros n c [Hn Hr] Hin Hpos _.
    destruct (Hchild n c Hr Hin Hpos) as [E [Hr' Hh]].
    unfold len. rewrite chain_length, Hh, Nat2Z.inj_succ.
    rewrite Hn in E. lia.
  - cbn [rootNode nodeDepth hops]. rewrite int8_exact by lia. lia.
Qed.

(** ** What the search reads *)

Lemma canFlowInto_agree (b b' : Liquid) (w w' : World) (p : BlockPos) (sideways : bool) :
  LiquidType b' = LiquidType b -> agree_at w w' p ->
  canFlowInto b' w' p sideways = canFlowInto b w p sideways.
Proof.
  unfold agree_at, canFlowInto, World_runtimeID_is_zero, LiquidRemovable_registered.
  intros -> <-. reflexivity.
Qed.

Lemma iterate_ext {S R : Type} (f g : S -> progress S R) (k : nat) :
  (forall s, f s = g s) -> forall s, iterate k f s = iterate k g s.
Proof.
  intros H. induction k as [| k IH]; intros s; cbn [iterate].
  - apply H.
  - rewrite IH. destruct (iterate k g s); auto.
Qed.

Lemma search_body_agree (b b' : Liquid) (pos : BlockPos) (w w' : World) (decay decay' : Z)
    (st : liquidQueue * list liquidPath) :
  LiquidType b' = LiquidType b ->
  (forall p, pY p = pY pos \/ pY p = int_sub (pY pos) 1 -> agree_at w w' p) ->
  int8_mul decay' 2 = int8_mul decay 2 ->
  search_body b' pos w' decay' st = search_body b pos w decay st.
Proof.
  intros Ht Hw Hd.
  assert (Hsn : forall c q, spreadNeighbour b' pos w' c q = spreadNeighbour b pos w c q).
  { intros c q. unfold spreadNeighbour.
    rewrite (canFlowInto_agree b b' w w' (nodeX c, pY pos, nodeZ c) true Ht)
      by (apply Hw; left; reflexivity).
    rewrite (canFlowInto_agree b b' w w' (nodeX c, int_sub (pY pos) 1, nodeZ c) false Ht)
      by (apply Hw; right; reflexivity).
    reflexivity. }
  assert (Hv : forall c s, visit b' pos w' c s = visit b pos w c s).
  { intros c [q ps]. unfold visit. rewrite Hsn. reflexivity. }
  destruct st as [q ps]. unfold search_body. rewrite Hd.
  destruct (QLen q =? 0); [reflexivity |].
  destruct (Front q) as [[n q0] |]; [| reflexivity].
  destruct (neighbours n (int8_mul decay 2)) as [[[cA cB] cC] cD].
  rewrite Hv. destruct (visit b pos w cA (q0, ps)); [| reflexivity].
  rewrite Hv. destruct (visit b pos w cB p); [| reflexivity].
  rewrite Hv. destruct (visit b pos w cC p0); [| reflexivity].
  rewrite Hv. reflexivity.
Qed.

(** X8.  The path finder reads the world at the y of the liquid and at
    the y below only: two worlds that agree on these two layers give the
    same paths. *)
Theorem search_reads_two_layers (b : Liquid) (pos : BlockPos) (w w' : World) :
  (forall p, pY p = pY pos \/ pY p = int_sub (pY pos) 1 -> w p = w' p) ->
  calculateLiquidPaths b pos w' = calculateLiquidPaths b pos w.
Proof.
  intros Hw. unfold calculateLiquidPaths.
  rewrite (iterate_ext (search_body b pos w' (int8 (SpreadDecay b)))
                       (search_body b pos w (int8 (SpreadDecay b)))).
  - reflexivity.
  - intros st. apply search_body_agree; [reflexivity | exact Hw | reflexivity].
Qed.

Lemma wrap8_shift (v k : Z) : wrap 8 (v + 256 * k) = wrap 8 v.
Proof.
  unfold wrap. change (2 ^ 8) with 256.
  replace (v + 256 * k + 2 ^ (8 - 1)) with (v + 2 ^ (8 - 1) + k * 256) by ring.
  rewrite Z_mod_plus_full. reflexivity.
Qed.

Lemma wrap8_double (v : Z) : wrap 8 (wrap 8 v * 2) = wrap 8 (v * 2).
Proof.
  assert (E : wrap 8 v = v + 256 * (- ((v + 128) / 256))).
  { unfold wrap. change (2 ^ 8) with 256. change (2 ^ (8 - 1)) with 128.
    rewrite Z.mod_eq by lia. ring. }
  rewrite E.
  replace ((v + 256 * - ((v + 128) / 256)) * 2)
    with (v * 2 + 256 * (- ((v + 128) / 256) * 2)) by ring.
  apply wrap8_shift.
Qed.

(** X11.  The path finder converts the depth and the decay to [int8]: it
    sees the type of the liquid, the low 8 bits of its depth and the low
    7 bits of its decay only.  A liquid of depth [d + 256 * i] and decay
    [c + 128 * j] gets the paths of a liquid of depth [d] and decay [c]. *)
Theorem search_truncates (b b' : Liquid) (pos : BlockPos) (w : World) (i j : Z) :
  LiquidType b' = LiquidType b ->
  LiquidDepth b' = LiquidDepth b + 256 * i ->
  SpreadDecay b' = SpreadDecay b + 128 * j ->
  calculateLiquidPaths b' pos w = calculateLiquidPaths b pos w.
Proof.
  intros Ht Hd Hc. unfold calculateLiquidPaths.
  assert (Hstart : search_start b' pos = search_start b pos).
  { unfold search_start, rootNode, int8. rewrite Hd, wrap8_shift. reflexivity. }
  rewrite Hstart.
  rewrite (iterate_ext (search_body b' pos w (int8 (SpreadDecay b')))
                       (search_body b pos w (int8 (SpreadDecay b)))).
  - reflexivity.
  - intros st. apply search_body_agree; [exact Ht | intros p _; reflexivity |].
    unfold int8_mul, int8. rewrite !wrap8_double, Hc.
    replace ((SpreadDecay b + 128 * j) * 2) with (SpreadDecay b * 2 + 256 * j) by ring.
    apply wrap8_shift.
Qed.

Lemma spreadNeighbour_blocked (b : Liquid) (src : BlockPos) (w : World)
    (c : liquidNode) (q : liquidQueue) :
  canFlowInto b w (nodePos src c) true = false ->
  spreadNeighbour b src w c q = (false, q).
Proof.
  unfold spreadNeighbour, nodePos. intros ->. cbn [negb].
  destruct (int8_add (nodeDepth c) 3 <=? 0); [reflexivity |].
  destruct (Len c >? shortestPath q); reflexivity.
Qed.

(** X12.  When the liquid can spread onto none of the four horizontal
    neighbours of its position, the path finder returns no path. *)
Theorem no_paths_when_walled_in (b : Liquid) (pos : BlockPos) (w : World) :
  (forall t, In t (horizontal pos) -> canFlowInto b w t true = false) ->
  calculateLiquidPaths b pos w = Some [].
Proof.
  intros Hwall. unfold calculateLiquidPaths. rewrite iterate_loop.
  rewrite (loop_more _ _ _ 2 (2 ^ search_budget)%nat _ []); [reflexivity | |].
  - cbn [loop]. unfold search_start, search_body at 1.
    cbn [QLen PushBack newQueue nodes cursor length app Z.of_nat].
    cbn [Z.sub Z.opp Z.add Z.eqb Pos.of_succ_nat].
    unfold Front. cbn [cursor nodes PushBack newQueue app Z.ltb Z.compare Z.to_nat nth_error
                       shortestPath].
    unfold neighbours. cbn [rootNode nodeX nodeZ nodeDepth].
    unfold visit.
    rewrite !spreadNeighbour_blocked
      by (apply Hwall; unfold nodePos, horizontal; cbn [nodeX nodeZ In]; auto 6).
    unfold search_body. cbn [QLen nodes cursor length Z.of_nat Z.add].
    reflexivity.
  - pose proof (Nat.pow_le_mono_r 2 1 search_budget ltac:(lia)) as H.
    change (2 ^ 1)%nat with 2%nat in H. apply H. unfold search_budget. lia.
Qed.

(** ** Drops next to the liquid *)

Lemma visit_side (b : Liquid) (pos : BlockPos) (w : World) (x z d : Z)
    (q : liquidQueue) (ps : list liquidPath) :
  0 < int8_add d 3 -> 1 <= shortestPath q ->
  visit b pos w (mkNode x z d (Some (rootNode b pos))) (q, ps) =
  Some (if is_drop b w (x, pY pos, z)
        then (setShortestPath q 1, ps ++ [[(x, pY pos, z)]])
        else if canFlowInto b w (x, pY pos, z) true
             then (PushBack q (mkNode x z d (Some (rootNode b pos))), ps)
             else (q, ps)).
Proof.
  intros Hd Hsp. unfold visit, spreadNeighbour, is_drop, down.
  cbn [nodeDepth nodeX nodeZ pX pY pZ fst snd].
  destruct (Z.leb_spec (int8_add d 3) 0); [lia |].
  change (Len (mkNode x z d (Some (rootNode b pos)))) with 1.
  destruct (Z.gtb_spec 1 (shortestPath q)); [lia |].
  destruct (canFlowInto b w (x, pY pos, z) true); cbn [negb andb]; [| reflexivity].
  destruct (canFlowInto b w (x, int_sub (pY pos) 1, z) false); [| reflexivity].
  rewrite Path_chain. reflexivity.
Qed.

Lemma visit_first_round (b : Liquid) (pos : BlockPos) (w : World) (x z d : Z)
    (found : list liquidPath) (st : liquidQueue * list liquidPath) :
  0 < int8_add d 3 ->
  first_round found st ->
  exists st',
    visit b pos w (mkNode x z d (Some (rootNode b pos))) st = Some st' /\
    first_round (found ++ if is_drop b w (x, pY pos, z) then [[(x, pY pos, z)]] else []) st'.
Proof.
  intros Hd [Hok [Hh [Hps [Hsp Hone]]]]. destruct st as [q ps]. cbn [fst snd] in *.
  rewrite visit_side by assumption. eexists. split; [reflexivity |].
  destruct (is_drop b w (x, pY pos, z)).
  - unfold first_round. cbn [fst snd setShortestPath shortestPath]. subst ps.
    split; [exact Hok |]. split; [exact Hh |]. split; [reflexivity |].
    split; [lia | reflexivity].
  - rewrite app_nil_r. destruct (canFlowInto b w (x, pY pos, z) true).
    + unfold first_round. cbn [fst snd].
      split; [apply cursor_ok_PushBack; exact Hok |].
      rewrite pending_PushBack by exact Hok.
      split; [apply Forall_app; split; [exact Hh | repeat constructor] |].
      split; [exact Hps | split; [exact Hsp | exact Hone]].
    + unfold first_round. cbn [fst snd]. auto.
Qed.

Lemma spreadNeighbour_far (b : Liquid) (src : BlockPos) (w : World)
    (c : liquidNode) (q : liquidQueue) :
  shortestPath q < Len c -> spreadNeighbour b src w c q = (false, q).
Proof.
  intros H. unfold spreadNeighbour.
  destruct (int8_add (nodeDepth c) 3 <=? 0); [reflexivity |].
  destruct (Z.gtb_spec (Len c) (shortestPath q)); [reflexivity | lia].
Qed.

(** Once a neighbour of the root is a drop, the rest of the search finds
    nothing more. *)
Lemma search_body_after_first_round (b : Liquid) (pos : BlockPos) (w : World) (decay : Z)
    (found : list liquidPath) (st st' : liquidQueue * list liquidPath) :
  found <> [] ->
  first_round found st ->
  search_body b pos w decay st = Continue st' ->
  first_round found st'.
Proof.
  intros Hne [Hok [Hh [Hps [Hsp Hone]]]] Hbody. destruct st as [q ps].
  cbn [fst snd] in *. specialize (Hone Hne).
  unfold search_body in Hbody.
  destruct (Z.eqb_spec (QLen q) 0) as [E | E]; [discriminate |].
  destruct (Front_pending q Hok E) as [n [q0 [HF [Hp [Hok0 Hsp0]]]]].
  rewrite HF in Hbody. rewrite Hp in Hh.
  apply Forall_cons_iff in Hh. destruct Hh as [Hn Hrest].
  assert (Hfar : forall c, In c (children n (int8_mul decay 2)) ->
                           spreadNeighbour b pos w c q0 = (false, q0)).
  { intros c Hc. apply spreadNeighbour_far.
    rewrite Len_hops, (children_hops _ _ _ Hc), Hn, Hsp0, Hone. simpl. lia. }
  unfold children, neighbours in Hfar. unfold neighbours, visit in Hbody.
  cbv beta iota in Hbody, Hfar.
  rewrite !Hfar in Hbody by (cbn [In]; auto 6).
  injection Hbody as <-. unfold first_round. cbn [fst snd].
  split; [exact Hok0 |]. split; [exact Hrest |]. split; [exact Hps |].
  rewrite Hsp0. split; [lia | intros _; exact Hone].
Qed.

Lemma filter_singletons (keep : BlockPos -> bool) (l : list BlockPos) :
  map (fun t => [t]) (filter keep l) =
  flat_map (fun t => if keep t then [[t]] else @nil liquidPath) l.
Proof.
  induction l as [| t l IH]; [reflexivity |].
  cbn [filter flat_map]. destruct (keep t); cbn [map app]; rewrite IH; reflexivity.
Qed.

(** X13.  When the liquid has the depth for one hop
    ([2 * decay <= depth + 2], with a depth of 1 to 8) and some of the
    four positions next to it are drops, the path finder returns exactly
    the one-step paths to these drops, in the order west, east, north,
    south in which it visits them. *)
Theorem paths_to_adjacent_drops (b : Liquid) (pos : BlockPos) (w : World) :
  1 <= LiquidDepth b <= 8 ->
  1 <= SpreadDecay b ->
  2 * SpreadDecay b <= LiquidDepth b + 2 ->
  filter (is_drop b w) (search_sides pos) <> [] ->
  calculateLiquidPaths b pos w =
  Some (map (fun t => [t]) (filter (is_drop b w) (search_sides pos))).
Proof.
  intros Hd Hc Hcap Hne.
  set (d := int8_sub (int8 (LiquidDepth b)) (int8_mul (int8 (SpreadDecay b)) 2)).
  assert (Hpos : 0 < int8_add d 3).
  { unfold d. rewrite (int8_exact (LiquidDepth b)) by lia.
    rewrite child_depth_exact by lia. rewrite int8_add_exact by lia. lia. }
  set (side := fun t : BlockPos => if is_drop b w t then [[t]] else @nil liquidPath).
  assert (Htarget : map (fun t => [t]) (filter (is_drop b w) (search_sides pos)) =
                    flat_map side (search_sides pos)).
  { apply filter_singletons. }
  destruct (calculateLiquidPaths_total b pos w) as [paths [Hloop Hcalc]].
  rewrite Hcalc. f_equal.
  cbn [loop] in Hloop.
  (* the first iteration *)
  assert (Hfirst : exists st1,
             search_body b pos w (int8 (SpreadDecay b)) (search_start b pos) = Continue st1 /\
             first_round (flat_map side (search_sides pos)) st1).
  { unfold search_start, search_body.
    cbn [QLen PushBack newQueue nodes cursor length app Z.of_nat].
    cbn [Z.sub Z.opp Z.add Z.eqb Pos.of_succ_nat].
    unfold Front. cbn [cursor nodes PushBack newQueue app Z.ltb Z.compare Z.to_nat nth_error
                       shortestPath].
    unfold neighbours. cbn [rootNode nodeX nodeZ nodeDepth]. fold (rootNode b pos). fold d.
    assert (H0 : first_round []
                   ({| nodes := [rootNode b pos]; cursor := 0 + 1; shortestPath := MaxInt8 |},
                    [])).
    { unfold first_round, cursor_ok, pending. cbn [fst snd nodes cursor shortestPath length].
      split; [simpl; lia |]. split; [constructor |]. split; [reflexivity |].
      split; [unfold MaxInt8; lia | intros H; exfalso; apply H; reflexivity]. }
    destruct (visit_first_round b pos w (int_sub (pX pos) 1) (pZ pos) d _ _ Hpos H0)
      as [st1 [E1 H1]]. rewrite E1.
    destruct (visit_first_round b pos w (int_add (pX pos) 1) (pZ pos) d _ _ Hpos H1)
      as [st2 [E2 H2]]. rewrite E2.
    destruct (visit_first_round b pos w (pX pos) (int_sub (pZ pos) 1) d _ _ Hpos H2)
      as [st3 [E3 H3]]. rewrite E3.
    destruct (visit_first_round b pos w (pX pos) (int_add (pZ pos) 1) d _ _ Hpos H3)
      as [st4 [E4 H4]]. rewrite E4.
    exists st4. split; [reflexivity |].
    unfold search_sides. cbn [flat_map]. fold (side (int_sub (pX pos) 1, pY pos, pZ pos)) in H4.
    unfold side at 1 2 3 4. rewrite app_nil_r. cbn [app] in H4.
    rewrite <- !app_assoc in H4. exact H4. }
  destruct Hfirst as [st1 [E1 H1]]. rewrite E1 in Hloop.
  assert (Hne' : flat_map side (search_sides pos) <> []).
  { rewrite <- Htarget. intros H. apply map_eq_nil in H. contradiction. }
  rewrite Htarget.
  destruct (loop_invariant _ _ (search_body b pos w (int8 (SpreadDecay b)))
              (first_round (flat_map side (search_sides pos)))
              (fun s s' => search_body_after_first_round b pos w _ _ s s' Hne')
              _ _ _ H1 Hloop)
    as [[q ps] [[_ [_ [Hps _]]] Hbreak]].
  cbn [snd] in Hps. unfold search_body in Hbreak.
  destruct (QLen q =? 0); [congruence |].
  destruct (Front q) as [[m q0] |]; [| discriminate].
  destruct (neighbours m _) as [[[cA cB] cC] cD].
  repeat match type of Hbreak with
         | match ?v with _ => _ end = _ => destruct v; try discriminate
         end.
Qed.

(** ** Flows that succeed *)

Section FlowSuccess.

Variable Harden : Liquid -> BlockPos -> World -> BlockPos -> World * bool.

Lemma saturated_spec (l : Liquid) (depth : Z) :
  (LiquidDepth l >=? depth) || LiquidFalling l = true <->
  depth <= LiquidDepth l \/ LiquidFalling l = true.
Proof. rewrite orb_true_iff, Z.geb_leb, Z.leb_le. tauto. Qed.

(** X1.  When [flowInto] returns true the target holds a liquid of the
    type of the flowing one that is at least as deep as the depth
    delivered, or is falling; no other position has changed, and all
    that has been recorded is a break and a placement at the target: the
    harden capability has not been invoked. *)
Theorem flowInto_success (b : Liquid) (src pos : BlockPos) (falling : bool) (s s' : State) :
  flowInto Harden b src pos falling s = Done true s' ->
  (exists l, blocks s' pos = LiquidBlock l /\ LiquidType l = LiquidType b /\
             (newDepth b falling <= LiquidDepth l \/ LiquidFalling l = true))
  /\ (forall q, q <> pos -> blocks s' q = blocks s q)
  /\ Forall (fun e => mutated_at e = Some pos) (issued s s').
Proof.
  intros H. pose proof (flowInto_outcome Harden b src pos falling s) as R.
  rewrite H in R.
  assert (Hplaced : forall s0,
            exists l, blocks (placed pos (LiquidBlock (WithDepth b (newDepth b falling) falling))
                                     s0) pos = LiquidBlock l /\
                      LiquidType l = LiquidType b /\
                      (newDepth b falling <= LiquidDepth l \/ LiquidFalling l = true)).
  { intros s0. eexists. split; [apply setBlock_same |]. split; [reflexivity |].
    left. cbn [WithDepth LiquidDepth]. lia. }
  inversion R as [| l Hg Hl Ht Hsat | l Hg Hl Ht Hsat | | | | hasDrops Hg Hl Hr Hd]; subst.
  - split; [| split].
    + exists l. split; [exact Hl |]. split; [exact Ht |]. apply saturated_spec. exact Hsat.
    + reflexivity.
    + rewrite issued_same. constructor.
  - split; [apply Hplaced |]. split.
    + intros q Hq. apply setBlock_other. exact Hq.
    + rewrite issued_placed. constructor; [reflexivity | constructor].
  - split; [apply Hplaced |]. split.
    + intros q Hq. cbn [placed blocks]. rewrite setBlock_other by exact Hq.
      unfold cleared. destruct (isAir (blocks s pos)); [reflexivity |].
      apply setBlock_other. exact Hq.
    + apply extends_issued. eapply extends_trans.
      * apply cleared_extends. reflexivity.
      * apply placed_extends. reflexivity.
Qed.

(** X2.  A flow that has succeeded can be repeated: the second call
    returns true and changes nothing. *)
Theorem flowInto_idempotent (b : Liquid) (src pos : BlockPos) (falling : bool) (s s' : State) :
  flowInto Harden b src pos falling s = Done true s' ->
  flowInto Harden b src pos falling s' = Done true s'.
Proof.
  intros H. pose proof (flowInto_outcome Harden b src pos falling s) as R.
  rewrite H in R.
  assert (Hagain : forall s0,
            ~ no_depth_left b falling ->
            flowInto Harden b src pos falling
              (placed pos (LiquidBlock (WithDepth b (newDepth b falling) falling)) s0) =
            Done true (placed pos (LiquidBlock (WithDepth b (newDepth b falling) falling)) s0)).
  { intros s0 Hg.
    rewrite (flowInto_same_type Harden b src pos falling _
               (WithDepth b (newDepth b falling) falling) Hg).
    - cbn [WithDepth LiquidDepth LiquidFalling].
      replace (newDepth b falling >=? newDepth b falling) with true
        by (symmetry; rewrite Z.geb_leb; apply Z.leb_refl).
      reflexivity.
    - apply setBlock_same.
    - reflexivity. }
  inversion R as [| l Hg Hl Ht Hsat | l Hg Hl Ht Hsat | | | | hasDrops Hg Hl Hr Hd]; subst.
  - rewrite (flowInto_same_type Harden b src pos falling s' l Hg Hl Ht), Hsat. reflexivity.
  - apply Hagain. exact Hg.
  - apply Hagain. exact Hg.
Qed.

(** X3.  [flowInto] never lowers a liquid of the type of the flowing one:
    whatever the call does, the target holds such a liquid afterwards, of
    at least the depth it had. *)
Theorem flowInto_never_lowers (b : Liquid) (src pos : BlockPos) (falling : bool) (s : State)
    (l : Liquid) :
  blocks s pos = LiquidBlock l ->
  LiquidType l = LiquidType b ->
  exists l',
    blocks (final (flowInto Harden b src pos falling s)) pos = LiquidBlock l' /\
    LiquidType l' = LiquidType b /\
    LiquidDepth l <= LiquidDepth l'.
Proof.
  intros Hl Ht.
  destruct (flowInto_outcome Harden b src pos falling s)
    as [Hg | l0 Hg Hl0 Ht0 Hsat | l0 Hg Hl0 Ht0 Hsat | l0 Hg Hl0 Ht0 | Hg [Hn _]
        | Hg Hn _ | hasDrops Hg Hn _ _]; cbn [final].
  - exists l. split; [exact Hl |]. split; [exact Ht | lia].
  - exists l. split; [exact Hl |]. split; [exact Ht | lia].
  - rewrite Hl in Hl0. injection Hl0 as <-.
    exists (WithDepth b (newDepth b falling) falling).
    split; [apply setBlock_same |]. split; [reflexivity |].
    cbn [WithDepth LiquidDepth].
    apply orb_false_iff in Hsat. destruct Hsat as [Hsat _].
    rewrite Z.geb_leb in Hsat. apply Z.leb_gt in Hsat. lia.
  - rewrite Hl in Hl0. injection Hl0 as <-. contradiction.
  - rewrite Hl in Hn. discriminate.
  - rewrite Hl in Hn. discriminate.
  - rewrite Hl in Hn. discriminate.
Qed.

(** X5.  [flowInto] does not fail at a position that [canFlowInto]
    accepts, a block that is removable with drops and is no item apart: a
    flow that is not falling and has depth left succeeds at a position
    accepted sideways; a falling flow at an accepted position succeeds, or
    meets a liquid of another type and invokes its harden capability. *)
Theorem accepted_flow (b : Liquid) (src pos : BlockPos) (s : State) :
  ~ drops_without_item (blocks s pos) ->
  (canFlowInto b (blocks s) pos true = true -> ~ no_depth_left b false ->
   exists s', flowInto Harden b src pos false s = Done true s')
  /\ (canFlowInto b (blocks s) pos false = true ->
      (exists s', flowInto Harden b src pos true s = Done true s') \/
      (exists l, blocks s pos = LiquidBlock l /\ LiquidType l <> LiquidType b /\
                 flowInto Harden b src pos true s = Done false (hardened Harden l pos src s))).
Proof.
  intros Hitem.
  assert (Hfalling : ~ no_depth_left b true) by (intros [H _]; discriminate).
  assert (Hsolid : forall falling sideways name c,
            blocks s pos = OtherBlock name c ->
            canFlowInto b (blocks s) pos sideways = true ->
            ~ no_depth_left b falling ->
            exists s', flowInto Harden b src pos falling s = Done true s').
  { intros falling sideways name c Hb Hcan Hg.
    unfold canFlowInto, World_runtimeID_is_zero, LiquidRemovable_registered in Hcan.
    rewrite Hb in Hcan. cbn [isAir asLiquid] in Hcan.
    destruct (asLiquidRemovable (OtherBlock name c)) as [hasDrops |] eqn:Hr.
    - rewrite <- Hb in Hr.
      assert (Hnl : asLiquid (blocks s pos) = None) by (rewrite Hb; reflexivity).
      rewrite (flowInto_removable Harden b src pos falling s hasDrops Hg Hnl Hr).
      destruct (hasDrops && negb (isItem (blocks s pos))) eqn:E; [| eauto].
      exfalso. apply Hitem. apply andb_true_iff in E. destruct E as [-> E].
      apply negb_true_iff in E. split; assumption.
    - destruct sideways; discriminate. }
  assert (Hair : forall falling,
            blocks s pos = Air -> ~ no_depth_left b falling ->
            exists s', flowInto Harden b src pos falling s = Done true s').
  { intros falling Hb Hg.
    assert (Hnl : asLiquid (blocks s pos) = None) by (rewrite Hb; reflexivity).
    assert (Hr : asLiquidRemovable (blocks s pos) = Some false) by (rewrite Hb; reflexivity).
    rewrite (flowInto_removable Harden b src pos falling s false Hg Hnl Hr).
    cbn [andb]. eauto. }
  split.
  - intros Hcan Hg. destruct (blocks s pos) as [| l | name c] eqn:Hb.
    + apply Hair; [reflexivity | exact Hg].
    + unfold canFlowInto, World_runtimeID_is_zero, LiquidRemovable_registered in Hcan.
      rewrite Hb in Hcan. cbn [isAir asLiquid] in Hcan.
      destruct (asLiquidRemovable (LiquidBlock l)); [| discriminate].
      cbn [andb] in Hcan.
      destruct ((LiquidDepth l =? 8) || negb (String.eqb (LiquidType l) (LiquidType b)))
        eqn:E; [discriminate |].
      apply orb_false_iff in E. destruct E as [_ E]. apply negb_false_iff in E.
      apply String.eqb_eq in E.
      rewrite (flowInto_same_type Harden b src pos false s l Hg Hb E).
      destruct ((LiquidDepth l >=? newDepth b false) || LiquidFalling l); eauto.
    + eapply Hsolid; [reflexivity | exact Hcan | exact Hg].
  - intros Hcan. destruct (blocks s pos) as [| l | name c] eqn:Hb.
    + left. apply Hair; [reflexivity | exact Hfalling].
    + destruct (String.eqb_spec (LiquidType l) (LiquidType b)) as [E | E].
      * left. rewrite (flowInto_same_type Harden b src pos true s l Hfalling Hb E).
        destruct ((LiquidDepth l >=? newDepth b true) || LiquidFalling l); eauto.
      * right. exists l. split; [reflexivity |]. split; [exact E |].
        apply flowInto_foreign; assumption.
    + left. eapply Hsolid; [reflexivity | exact Hcan | exact Hfalling].
Qed.

(** X14.  A sustained liquid that is no source and can flow below only
    falls: the tick is the falling flow into the position below, with no
    lateral spread.  When the position below is empty, the tick places a
    falling liquid of depth 8 there and does nothing else. *)
Theorem tick_over_drop (b : Liquid) (pos : BlockPos) (s : State) :
  sustained b pos (blocks s) = true ->
  source b = false ->
  canFlowInto b (blocks s) (below pos) false = true ->
  tickLiquid Harden b pos s =
    (flowInto Harden (WithDepth b 8 true) pos (below pos) true ;;; ret tt) s
  /\ (blocks s (below pos) = Air ->
      tickLiquid Harden b pos s =
      Done tt (placed (below pos) (LiquidBlock (WithDepth b 8 true)) s)).
Proof.
  intros Hs Hsrc Hcan.
  assert (E : tickLiquid Harden b pos s =
              (flowInto Harden (WithDepth b 8 true) pos (below pos) true ;;; ret tt) s).
  { rewrite (tickLiquid_shape Harden b pos s Hs), Hcan.
    unfold after_falling_logic. rewrite andb_false_r.
    unfold push_below. unfold bind at 1. unfold bind at 1. unfold getWorld.
    rewrite Hcan. unfold bind.
    destruct (flowInto Harden (WithDepth b 8 true) pos (below pos) true s) as [r s1 | m s1];
      [| reflexivity].
    cbn [ret]. unfold lateral_spread. rewrite Hsrc.
    destruct (LiquidDepth b <=? SpreadDecay b); reflexivity. }
  split; [exact E |].
  intros Hair. rewrite E. unfold bind.
  assert (Hg : ~ no_depth_left (WithDepth b 8 true) true) by (intros [H _]; discriminate).
  assert (Hnl : asLiquid (blocks s (below pos)) = None) by (rewrite Hair; reflexivity).
  assert (Hr : asLiquidRemovable (blocks s (below pos)) = Some false)
    by (rewrite Hair; reflexivity).
  rewrite (flowInto_removable Harden (WithDepth b 8 true) pos (below pos) true s false
             Hg Hnl Hr).
  cbn [andb]. unfold cleared. rewrite Hair. reflexivity.
Qed.

End FlowSuccess.

(** ** canFlowInto, sourceAround *)

(** X4.  [canFlowInto] accepts a position exactly when it is empty or its
    block is removable by liquid; sideways, a liquid there must moreover
    be of the type of the flowing one and not of depth 8.  A position
    accepted sideways is accepted downwards. *)
Theorem canFlowInto_spec (b : Liquid) (w : World) (p : BlockPos) :
  (canFlowInto b w p false = true <->
   isAir (w p) = true \/ asLiquidRemovable (w p) <> None)
  /\ (canFlowInto b w p true = true <->
      isAir (w p) = true \/
      (asLiquidRemovable (w p) <> None /\
       forall l, w p = LiquidBlock l ->
                 LiquidDepth l <> 8 /\ LiquidType l = LiquidType b))
  /\ (canFlowInto b w p true = true -> canFlowInto b w p false = true).
Proof.
  unfold canFlowInto, World_runtimeID_is_zero, LiquidRemovable_registered.
  destruct (w p) as [| l | name c]; cbn [isAir asLiquid].
  - repeat split; auto.
  - destruct (asLiquidRemovable (LiquidBlock l)) as [d |]; cbn [andb].
    + split; [split; [intros _; right; discriminate | reflexivity] |].
      split; [| reflexivity]. split.
      * destruct (Z.eqb_spec (LiquidDepth l) 8) as [E8 | E8]; cbn [orb]; [discriminate |].
        destruct (String.eqb_spec (LiquidType l) (LiquidType b)) as [Et | Et];
          cbn [negb]; [| discriminate].
        intros _. right. split; [discriminate |].
        intros l' H. injection H as <-. auto.
      * intros [H | [_ H]]; [discriminate |].
        destruct (H l eq_refl) as [H8 Ht].
        apply Z.eqb_neq in H8. apply String.eqb_eq in Ht. rewrite H8, Ht. reflexivity.
    + split; [split; [discriminate | intros [H | H]; [discriminate | congruence]] |].
      split; [| discriminate].
      split; [discriminate | intros [H | [H _]]; [discriminate | congruence]].
  - destruct (asLiquidRemovable (OtherBlock name c)) as [d |]; cbn [andb].
    + split; [split; [intros _; right; discriminate | reflexivity] |].
      split; [| reflexivity].
      split; [| reflexivity]. intros _. right. split; [discriminate |].
      intros l H. discriminate.
    + split; [split; [discriminate | intros [H | H]; [discriminate | congruence]] |].
      split; [| discriminate].
      split; [discriminate | intros [H | [H _]]; [discriminate | congruence]].
Qed.

(** X15.  [sourceAround] reads the world above the position and at its
    four horizontal neighbours only: two worlds that agree there give the
    same result. *)
Theorem sourceAround_reads_five (b : Liquid) (pos : BlockPos) (w w' : World) :
  w (above pos) = w' (above pos) ->
  (forall t, In t (horizontal pos) -> w t = w' t) ->
  sourceAround b pos w' = sourceAround b pos w.
Proof.
  intros Hup Hside. rewrite !sourceAround_closed. unfold same_type_at at 1 3.
  rewrite Hup. f_equal.
  unfold horizontal in *. cbn [existsb]. unfold same_type_at.
  rewrite !Hside by (cbn [In]; auto 6). reflexivity.
Qed.

(** ** Path and the queue *)

(** X6.  [Path] does not panic.  The path of a node without a previous
    node is empty; the path of any other node is the path of its previous
    node followed by its own position at the y of the search.  The path
    has [Len] steps. *)
Theorem Path_spec (n : liquidNode) (src : BlockPos) :
  exists p,
    Path n src = Some p /\
    len p = Len n /\
    match previous n with
    | None => p = []
    | Some parent => exists pp, Path parent src = Some pp /\ p = pp ++ [nodePos src n]
    end.
Proof.
  exists (chain src n). split; [apply Path_chain |]. split.
  - unfold len. rewrite chain_length, Len_hops. reflexivity.
  - destruct n as [x z d [parent |]]; cbn [previous chain].
    + exists (chain src parent). split; [apply Path_chain | reflexivity].
    + reflexivity.
Qed.

Lemma QLen_pending (q : liquidQueue) :
  cursor_ok q -> QLen q = Z.of_nat (length (pending q)).
Proof.
  unfold cursor_ok, QLen, pending. intros H. rewrite length_skipn. lia.
Qed.

Lemma Front_empty (q : liquidQueue) : cursor_ok q -> QLen q = 0 -> Front q = None.
Proof.
  unfold cursor_ok, QLen, Front. intros H H0.
  replace (cursor q <? 0) with false by (symmetry; apply Z.ltb_ge; lia).
  replace (nth_error (nodes q) (Z.to_nat (cursor q))) with (@None liquidNode);
    [reflexivity |].
  symmetry. apply nth_error_None. lia.
Qed.

Lemma pushAll_pending (l : list liquidNode) :
  forall q, cursor_ok q ->
            cursor_ok (pushAll q l) /\ pending (pushAll q l) = pending q ++ l /\
            shortestPath (pushAll q l) = shortestPath q.
Proof.
  unfold pushAll. induction l as [| n l IH]; intros q Hok; cbn [fold_left].
  - rewrite app_nil_r. auto.
  - destruct (IH (PushBack q n) (cursor_ok_PushBack q n Hok)) as [H1 [H2 H3]].
    split; [exact H1 |]. split; [| exact H3].
    rewrite H2, pending_PushBack by exact Hok. rewrite <- app_assoc. reflexivity.
Qed.

Lemma drain_pending (l : list liquidNode) :
  forall q rest,
    cursor_ok q -> pending q = l ++ rest ->
    exists q', drain (length l) q = Some (l, q') /\ cursor_ok q' /\
               pending q' = rest /\ shortestPath q' = shortestPath q.
Proof.
  induction l as [| n l IH]; intros q rest Hok Hp; cbn [length drain].
  - exists q. auto.
  - assert (Hlen : QLen q <> 0).
    { rewrite QLen_pending, Hp by exact Hok. cbn [app length]. lia. }
    destruct (Front_pending q Hok Hlen) as [m [q1 [HF [Hp1 [Hok1 Hsp1]]]]].
    rewrite Hp in Hp1. cbn [app] in Hp1. injection Hp1 as <- Hp1.
    destruct (IH q1 rest Hok1 (eq_sym Hp1)) as [q' [Hd [Hok' [Hp' Hsp']]]].
    exists q'. rewrite HF, Hd. split; [reflexivity |]. split; [exact Hok' |].
    split; [exact Hp' | congruence].
Qed.

(** X7.  The queue is first in, first out: after [PushBack] of the nodes
    of a list, as many calls of [Front] as there are nodes waiting return
    the nodes that were waiting and then the nodes of the list, in their
    order; one more call of [Front] panics, and [Len] is 0 then. *)
Theorem queue_first_in_first_out (q : liquidQueue) (l : list liquidNode) :
  cursor_ok q ->
  exists q',
    drain (length (pending q ++ l)) (pushAll q l) = Some (pending q ++ l, q') /\
    QLen (pushAll q l) = Z.of_nat (length (pending q ++ l)) /\
    QLen q' = 0 /\ Front q' = None /\ shortestPath q' = shortestPath q.
Proof.
  intros Hok. destruct (pushAll_pending l q Hok) as [Hok1 [Hp1 Hsp1]].
  destruct (drain_pending (pending q ++ l) (pushAll q l) [] Hok1)
    as [q' [Hd [Hok' [Hp' Hsp']]]].
  { rewrite app_nil_r. exact Hp1. }
  assert (H0 : QLen q' = 0) by (rewrite QLen_pending, Hp' by exact Hok'; reflexivity).
  exists q'. split; [exact Hd |]. split; [rewrite QLen_pending, Hp1 by exact Hok1; reflexivity |].
  split; [exact H0 |]. split; [apply Front_empty; assumption | congruence].
Qed.

(** ** The further properties on concrete inputs *)

(** X1, an instance: a source flowing east on the plain leaves water of
    depth 7 there and nothing else. *)
Lemma flowInto_success_witness :
  flowInto harden_cobble (water 8 false) origin (1, 0, 0) false (fresh plain) =
    Done true (placed (1, 0, 0) (LiquidBlock (water 7 false)) (fresh plain)) /\
  (exists l, blocks (placed (1, 0, 0) (LiquidBlock (water 7 false)) (fresh plain)) (1, 0, 0) =
             LiquidBlock l /\
             LiquidType l = LiquidType (water 8 false) /\
             (newDepth (water 8 false) false <= LiquidDepth l \/ LiquidFalling l = true)).
Proof.
  assert (H : flowInto harden_cobble (water 8 false) origin (1, 0, 0) false (fresh plain) =
              Done true (placed (1, 0, 0) (LiquidBlock (water 7 false)) (fresh plain)))
    by reflexivity.
  split; [exact H |].
  exact (proj1 (flowInto_success harden_cobble (water 8 false) origin (1, 0, 0) false
                  (fresh plain) _ H)).
Defined.

(** X2, an instance: the same flow a second time. *)
Lemma flowInto_idempotent_witness :
  flowInto harden_cobble (water 8 false) origin (1, 0, 0) false (fresh plain) =
    Done true (placed (1, 0, 0) (LiquidBlock (water 7 false)) (fresh plain)) /\
  flowInto harden_cobble (water 8 false) origin (1, 0, 0) false
    (placed (1, 0, 0) (LiquidBlock (water 7 false)) (fresh plain)) =
    Done true (placed (1, 0, 0) (LiquidBlock (water 7 false)) (fresh plain)).
Proof.
  assert (H : flowInto harden_cobble (water 8 false) origin (1, 0, 0) false (fresh plain) =
              Done true (placed (1, 0, 0) (LiquidBlock (water 7 false)) (fresh plain)))
    by reflexivity.
  split; [exact H |].
  exact (flowInto_idempotent harden_cobble (water 8 false) origin (1, 0, 0) false
           (fresh plain) _ H).
Defined.

(** X3, an instance: shallow water flowing into the source of the pond
    leaves a liquid of depth 8 or more there. *)
Lemma flowInto_never_lowers_witness :
  blocks (fresh pond) (1, 0, 0) = LiquidBlock (water 8 false) /\
  exists l',
    blocks (final (flowInto harden_cobble (water 3 false) origin (1, 0, 0) false
                     (fresh pond))) (1, 0, 0) = LiquidBlock l' /\
    LiquidType l' = LiquidType (water 3 false) /\
    LiquidDepth (water 8 false) <= LiquidDepth l'.
Proof.
  split; [reflexivity |].
  exact (flowInto_never_lowers harden_cobble (water 3 false) origin (1, 0, 0) false
           (fresh pond) (water 8 false) eq_refl eq_refl).
Defined.

(** X5, an instance: the air east of a source on the plain is accepted
    sideways, and the flow into it succeeds. *)
Lemma accepted_flow_witness :
  canFlowInto (water 8 false) (blocks (fresh plain)) (1, 0, 0) true = true /\
  exists s', flowInto harden_cobble (water 8 false) origin (1, 0, 0) false (fresh plain) =
             Done true s'.
Proof.
  split; [reflexivity |].
  assert (Hi : ~ drops_without_item (blocks (fresh plain) (1, 0, 0)))
    by (intros [H _]; vm_compute in H; discriminate).
  apply (proj1 (accepted_flow harden_cobble (water 8 false) origin (1, 0, 0) (fresh plain) Hi)).
  - reflexivity.
  - intros [_ H]. vm_compute in H. apply H. reflexivity.
Defined.

(** X7, an instance: two nodes pushed onto the new queue come out in the
    order in which they went in. *)
Lemma queue_first_in_first_out_witness :
  cursor_ok newQueue /\
  exists q',
    drain 2 (pushAll newQueue [mkNode 0 0 8 None; mkNode 1 0 6 None]) =
      Some ([mkNode 0 0 8 None; mkNode 1 0 6 None], q') /\
    QLen (pushAll newQueue [mkNode 0 0 8 None; mkNode 1 0 6 None]) = 2 /\
    QLen q' = 0 /\ Front q' = None /\ shortestPath q' = shortestPath newQueue.
Proof.
  assert (H : cursor_ok newQueue) by (vm_compute; split; discriminate).
  split; [exact H |].
  exact (queue_first_in_first_out newQueue [mkNode 0 0 8 None; mkNode 1 0 6 None] H).
Defined.

(** X8, an instance: a stone high above the plain with a hole does not
    change the paths. *)
Lemma search_reads_two_layers_witness :
  calculateLiquidPaths (water 8 false) origin (setBlock holed (0, 5, 0) stone) =
  calculateLiquidPaths (water 8 false) origin holed.
Proof.
  apply (search_reads_two_layers (water 8 false) origin holed (setBlock holed (0, 5, 0) stone)).
  intros p Hp. symmetry. apply setBlock_other. intros ->.
  destruct Hp as [Hp | Hp]; vm_compute in Hp; discriminate.
Defined.

(** X9, an instance: the one path on the plain with a hole walks east
    over one ledge to the hole. *)
Lemma paths_lead_to_drops_witness :
  calculateLiquidPaths (water 8 false) origin holed = Some [[(1, 0, 0); (2, 0, 0)]] /\
  Forall (fun p => walk origin p /\ leads_to_drop (water 8 false) holed p)
         [[(1, 0, 0); (2, 0, 0)]].
Proof.
  assert (H : calculateLiquidPaths (water 8 false) origin holed =
              Some [[(1, 0, 0); (2, 0, 0)]]) by (vm_compute; reflexivity).
  split; [exact H |].
  exact (paths_lead_to_drops (water 8 false) origin holed _ H).
Defined.

(** X10, an instance: the two steps of that path are within the depth of
    the source. *)
Lemma paths_within_depth_witness :
  calculateLiquidPaths (water 8 false) origin holed = Some [[(1, 0, 0); (2, 0, 0)]] /\
  Forall (fun p => 2 * SpreadDecay (water 8 false) * len p <= LiquidDepth (water 8 false) + 2)
         [[(1, 0, 0); (2, 0, 0)]].
Proof.
  assert (H : calculateLiquidPaths (water 8 false) origin holed =
              Some [[(1, 0, 0); (2, 0, 0)]]) by (vm_compute; reflexivity).
  split; [exact H |].
  apply (paths_within_depth (water 8 false) origin holed _); [| | exact H].
  - cbn [water LiquidDepth]. lia.
  - cbn [water SpreadDecay]. lia.
Defined.

(** X11, an instance: a liquid of depth 264 and decay 129 gets the paths
    of water of depth 8 and decay 1. *)
Lemma search_truncates_witness :
  calculateLiquidPaths
    {| LiquidDepth := 264; LiquidFalling := false; SpreadDecay := 129;
       LiquidType := "water"; LiquidCaps := washable |} origin holed =
  calculateLiquidPaths (water 8 false) origin holed.
Proof.
  apply (search_truncates (water 8 false) _ origin holed 1 1); reflexivity.
Defined.

(** X12, an instance: a source walled in by stone has no path. *)
Lemma no_paths_when_walled_in_witness :
  calculateLiquidPaths (water 8 false) origin walled = Some [].
Proof.
  apply (no_paths_when_walled_in (water 8 false) origin walled).
  intros t [<- | [<- | [<- | [<- | []]]]]; reflexivity.
Defined.

(** X13, an instance: in the void all four positions next to the source
    are drops, and the paths are the four one-step paths. *)
Lemma paths_to_adjacent_drops_witness :
  calculateLiquidPaths (water 8 false) origin void =
  Some (map (fun t => [t]) (filter (is_drop (water 8 false) void) (search_sides origin))).
Proof.
  apply (paths_to_adjacent_drops (water 8 false) origin void).
  - cbn [water LiquidDepth]. lia.
  - cbn [water SpreadDecay]. lia.
  - cbn [water SpreadDecay LiquidDepth]. lia.
  - vm_compute. discriminate.
Defined.

(** X14, an instance: falling water in the shaft only falls: the tick
    places falling water of depth 8 below it. *)
Lemma tick_over_drop_witness :
  sustained (water 8 true) origin (blocks (fresh shaft)) = true /\
  tickLiquid harden_cobble (water 8 true) origin (fresh shaft) =
  Done tt (placed (below origin) (LiquidBlock (WithDepth (water 8 true) 8 true)) (fresh shaft)).
Proof.
  assert (Hs : sustained (water 8 true) origin (blocks (fresh shaft)) = true)
    by (vm_compute; reflexivity).
  split; [exact Hs |].
  exact (proj2 (tick_over_drop harden_cobble (water 8 true) origin (fresh shaft)
                  Hs eq_refl eq_refl) eq_refl).
Defined.

(** X15, an instance: a stone far from the origin does not change what
    [sourceAround] finds under the shallow water. *)
Lemma sourceAround_reads_five_witness :
  sourceAround (water 3 false) origin (setBlock topped (5, 5, 5) stone) =
  sourceAround (water 3 false) origin topped.
Proof.
  apply (sourceAround_reads_five (water 3 false) origin topped (setBlock topped (5, 5, 5) stone)).
  - reflexivity.
  - intros t [<- | [<- | [<- | [<- | []]]]]; reflexivity.
Defined.
